(** * Page-layout fusion engine of acutis_data ([src/layout.py])

    A shallow embedding of the region pipeline of [layout.py] —
    consolidation, identifier assignment, the degeneracy guard, the
    reading-order reconciler, the gap-filling expander and the table
    decomposer — together with the properties the design document
    states about them.

    Modelling conventions.
    - Coordinates are Python numbers.  The geometry, the consolidator,
      the expander and the table translations are written once, over a
      class [Number] of number types with the comparisons, [+], [-] and
      [int()] that the code applies to a coordinate.  The class has two
      instances: [Z], Python's [int], and [float], binary64 as Python's
      [float].  A statement about [box5], [box7] or [coords] is a
      statement about integer coordinates; what the same code does with
      fractional coordinates is computed at [float].
    - A Python box is a list [[x1, y1, x2, y2, label, ...]] that gains an
      identifier and later an order position.  Each stage has its own
      record ([box5_of], [box6], [box7_of]); [box[:4]] is a 4-tuple
      [coords_of].
    - Lists mutated by index use stdpp's [l !! i] and [<[i:=x]> l]; the
      dictionary of the order reconciler is a [gmap]; the sets of
      indices of the consolidator are [gset nat].
    - The perception models are external: their results are inputs. *)

From Stdlib Require Import Ascii PrimFloat SpecFloat FloatOps.
From stdpp Require Import gmap strings list sorting pretty.

Local Open Scope Z_scope.

(** ** Numbers *)

(** What the code does with a coordinate: the literals [0] and [1], the
    comparisons [<=], [<], [>] and [!=], [+] and [-], and [int()].
    [num_room v] bounds the number of times 1 can be taken from [v]
    before it stops being positive; it gives the model of the two
    [while True] loops their number of sweeps. *)
Class Number (T : Type) : Type := {
  num_zero : T;
  num_one : T;
  num_le : T → T → bool;
  num_lt : T → T → bool;
  num_gt : T → T → bool;
  num_ne : T → T → bool;
  num_add : T → T → T;
  num_sub : T → T → T;
  num_int : T → Z;
  num_room : T → nat
}.

(** Python's [int]: exact, and [int(v)] is [v]. *)
#[global] Instance Z_number : Number Z := {|
  num_zero := 0;
  num_one := 1;
  num_le := Z.leb;
  num_lt := Z.ltb;
  num_gt := Z.gtb;
  num_ne := λ a b, bool_decide (a ≠ b);
  num_add := Z.add;
  num_sub := Z.sub;
  num_int := λ v, v;
  num_room := Z.to_nat
|}.

(** [int(v)] of a float: the integer part, towards zero.  On an infinity
    or a NaN Python raises; the model returns 0. *)
Definition float_int (v : float) : Z :=
  match Prim2SF v with
  | S754_finite negative mantissa exponent =>
      let magnitude :=
        if 0 <=? exponent then Z.pos mantissa * 2 ^ exponent
        else Z.pos mantissa `div` 2 ^ (- exponent) in
      if negative then - magnitude else magnitude
  | _ => 0
  end.

(** Python's [float]: binary64, every sum and difference rounded to the
    nearest value.  An [int] met in a sum or a comparison (the literals
    and the page size) is converted first. *)
#[global] Instance float_number : Number float := {|
  num_zero := 0%float;
  num_one := 1%float;
  num_le := PrimFloat.leb;
  num_lt := PrimFloat.ltb;
  num_gt := λ a b, PrimFloat.ltb b a;
  num_ne := λ a b, negb (PrimFloat.eqb a b);
  num_add := PrimFloat.add;
  num_sub := PrimFloat.sub;
  num_int := float_int;
  num_room := λ v, S (Z.to_nat (float_int v))
|}.

(** ** Boxes *)

(** [box[:4]] and [tuple(box[:4])]. *)
Definition coords_of (T : Type) : Type := T * T * T * T.
Abbreviation coords := (coords_of Z).

(** [[x1, y1, x2, y2, label]], as produced by [extract_bounding_boxes]. *)
Record box5_of (T : Type) : Type := Box5 {
  b5_x1 : T; b5_y1 : T; b5_x2 : T; b5_y2 : T;
  b5_label : string
}.
Arguments Box5 {T} _ _ _ _ _.
Arguments b5_x1 {T} _.
Arguments b5_y1 {T} _.
Arguments b5_x2 {T} _.
Arguments b5_y2 {T} _.
Arguments b5_label {T} _.
Abbreviation box5 := (box5_of Z).

(** [[x1, y1, x2, y2, label, box_id]], as produced by [assign_boxIDs]. *)
Record box6 : Type := Box6 {
  b6_x1 : Z; b6_y1 : Z; b6_x2 : Z; b6_y2 : Z;
  b6_label : string;
  b6_box_id : nat
}.

(** [[x1, y1, x2, y2, label, box_id, position]]; the field names are those
    of the unpacking in [adjust_bounding_boxes_final]. *)
Record box7_of (T : Type) : Type := Box7 {
  x_l : T; y_b : T; x_r : T; y_t : T;
  label : string;
  box_id : nat;
  position : Z
}.
Arguments Box7 {T} _ _ _ _ _ _ _.
Arguments x_l {T} _.
Arguments y_b {T} _.
Arguments x_r {T} _.
Arguments y_t {T} _.
Arguments label {T} _.
Arguments box_id {T} _.
Arguments position {T} _.
Abbreviation box7 := (box7_of Z).

Definition coords5 {T : Type} (b : box5_of T) : coords_of T :=
  (b5_x1 b, b5_y1 b, b5_x2 b, b5_y2 b).
Definition coords6 (b : box6) : coords := (b6_x1 b, b6_y1 b, b6_x2 b, b6_y2 b).
Definition coords7 {T : Type} (b : box7_of T) : coords_of T :=
  (x_l b, y_b b, x_r b, y_t b).

#[global] Instance box5_eq_dec : EqDecision box5.
Proof. solve_decision. Defined.
#[global] Instance box6_eq_dec : EqDecision box6.
Proof. solve_decision. Defined.
#[global] Instance box7_eq_dec : EqDecision box7.
Proof. solve_decision. Defined.

(** [for i, x in enumerate(l)]. *)
Definition enumerate {A : Type} (l : list A) : list (nat * A) := imap pair l.

(** ** Geometry predicates *)

Definition valueInRange {T : Type} `{Number T} (value min_val max_val : T) : bool :=
  num_le min_val value && num_le value max_val.

Definition rectOverlap {T : Type} `{Number T} (box1 box2 : coords_of T) : bool :=
  let '(x1_l, y1_b, x1_r, y1_t) := box1 in
  let '(x2_l, y2_b, x2_r, y2_t) := box2 in
  let xOverlap := valueInRange x1_l x2_l x2_r || valueInRange x2_l x1_l x1_r in
  let yOverlap := valueInRange y1_b y2_b y2_t || valueInRange y2_b y1_b y1_t in
  xOverlap && yOverlap.

Definition full_encapsulation {T : Type} `{Number T}
    (primary_box secondary_box : coords_of T) : bool :=
  let '(x11, y11, x12, y12) := primary_box in
  let '(x21, y21, x22, y22) := secondary_box in
  (num_le x11 x21 && num_lt x21 x22 && num_le x22 x12)
  && (num_le y11 y21 && num_lt y21 y22 && num_le y22 y12).

(** ** Label filter, consolidator, identifier assignment *)

Definition filter_text_labels (bounding_boxes : list box5) : list box5 :=
  filter (λ box, b5_label box ≠ "Text") bounding_boxes.

(** The condition of the [if] in the double loop of [consolidate_regions]:
    the heights are taken between the Y coordinates cut to integers. *)
Definition marks_for_deletion {T : Type} `{Number T}
    (primary_box secondary_box : box5_of T) : bool :=
  (bool_decide (b5_label primary_box ∈ ["Title"; "Section-header"; "Page-header"; "List-item"])
   && rectOverlap (coords5 primary_box) (coords5 secondary_box)
   && (2 * Z.abs (num_int (b5_y1 primary_box) - num_int (b5_y2 primary_box))
         >? Z.abs (num_int (b5_y1 secondary_box) - num_int (b5_y2 secondary_box))))
  || (bool_decide (b5_label primary_box ∈ ["Table"; "Caption"; "Footnote"; "Page-footer"])
      && full_encapsulation (coords5 primary_box) (coords5 secondary_box)).

(** [[box for i, box in enumerate(l) if i not in s]]. *)
Definition keep_unmarked {A : Type} (s : gset nat) (l : list A) : list A :=
  snd <$> filter (λ p, p.1 ∉ s) (enumerate l).

Definition consolidate_regions {T : Type} `{Number T}
    (sparse_line_regions layout_regions : list (box5_of T)) : list (box5_of T) :=
  let to_delete_from_sparse : gset nat := ∅ in
  let to_delete_from_layout : gset nat :=
    foldl (λ acc '(i, primary_box),
             foldl (λ acc '(j, secondary_box),
                      if marks_for_deletion primary_box secondary_box
                      then {[ j ]} ∪ acc else acc)
                   acc (enumerate layout_regions))
          ∅ (enumerate sparse_line_regions) in
  keep_unmarked to_delete_from_sparse sparse_line_regions
  ++ keep_unmarked to_delete_from_layout layout_regions.

Definition assign_boxIDs (bounding_boxes : list box5) : list box6 :=
  (λ '(i, bbox), Box6 (b5_x1 bbox) (b5_y1 bbox) (b5_x2 bbox) (b5_y2 bbox)
                      (b5_label bbox) i) <$> enumerate bounding_boxes.

(** ** Degeneracy guard ([get_layout], the [len(...) >= 255] block) *)

(** Python's [min] and [max] over a generator: a left-to-right scan that
    keeps the best value seen.  On an empty sequence Python raises
    [ValueError]; the guard only calls them on at least 255 values, and
    the model returns 0 there. *)
Definition py_min (l : list Z) : Z :=
  match l with [] => 0 | v :: l' => foldl Z.min v l' end.
Definition py_max (l : list Z) : Z :=
  match l with [] => 0 | v :: l' => foldl Z.max v l' end.

Definition degeneracy_guard (consolidated_regions_with_ids : list box6) : list box6 :=
  if bool_decide (255 ≤ length consolidated_regions_with_ids)%nat then
    let x_min := py_min (b6_x1 <$> consolidated_regions_with_ids) in
    let y_min := py_min (b6_y1 <$> consolidated_regions_with_ids) in
    let x_max := py_max (b6_x2 <$> consolidated_regions_with_ids) in
    let y_max := py_max (b6_y2 <$> consolidated_regions_with_ids) in
    [Box6 x_min y_min x_max y_max "Text" 0]
  else consolidated_regions_with_ids.

(** ** Order reconciler ([get_layout], second per-page loop) *)

(** One entry of [order_prediction.bboxes]. *)
Record order_box : Type := OrderBox {
  ob_bbox : coords;
  ob_position : Z
}.

(** [{tuple(box[:4]): box for box in regions}]: a later box with the same
    rectangle replaces an earlier one. *)
Definition coord_to_box_map (regions : list box6) : gmap coords box6 :=
  foldl (λ m box, <[coords6 box := box]> m) ∅ regions.

(** [[x1, y1, x2, y2, label, box_id, position]] built from a looked-up box. *)
Definition with_position (original_box : box6) (position : Z) : box7 :=
  Box7 (b6_x1 original_box) (b6_y1 original_box) (b6_x2 original_box)
       (b6_y2 original_box) (b6_label original_box) (b6_box_id original_box)
       position.

(** The loop over [order_prediction.bboxes], before the sort. *)
Definition matched_regions (regions : list box6) (order_prediction : list order_box)
  : list box7 :=
  let coord_to_box_map := coord_to_box_map regions in
  foldl (λ ordered order_box,
           match coord_to_box_map !! ob_bbox order_box with
           | Some original_box =>
               ordered ++ [with_position original_box (ob_position order_box)]
           | None => ordered
           end)
        [] order_prediction.

(** [list.sort(key=lambda x: x[6])]: ascending and stable.  A stable sort
    has a single possible result, computed here by insertion. *)
Fixpoint insert_by_position (box : box7) (sorted : list box7) : list box7 :=
  match sorted with
  | [] => [box]
  | box' :: rest =>
      if position box <=? position box' then box :: box' :: rest
      else box' :: insert_by_position box rest
  end.

Definition sort_by_position (boxes : list box7) : list box7 :=
  foldr insert_by_position [] boxes.

Definition reconcile_order (regions : list box6) (order_prediction : list order_box)
  : list box7 :=
  sort_by_position (matched_regions regions order_prediction).

(** ** Gap-filling expander *)

Definition is_pictorial (label : string) : bool :=
  bool_decide (label ∈ ["Picture"; "Figure"]).

(** The inner [for j, box2 in enumerate(...)] loop with its [break]. *)
Definition intersection_found {T : Type} `{Number T} (i : nat) (box1 : box7_of T)
    (boxes : list (box7_of T)) : bool :=
  existsb (λ '(j, box2),
             bool_decide (i ≠ j) && rectOverlap (coords7 box1) (coords7 box2))
          (enumerate boxes).

(** The replacement box of the vertical pass, when one is written. *)
Definition grow_vertical {T : Type} `{Number T} (y_max : T) (box1 : box7_of T)
  : option (box7_of T) :=
  let y_1t_new :=
    if num_lt (y_t box1) y_max then num_add (y_t box1) num_one else y_t box1 in
  let y_1b_new :=
    if num_gt (y_b box1) num_zero then num_sub (y_b box1) num_one else y_b box1 in
  if num_ne y_1t_new (y_t box1) || num_ne y_1b_new (y_b box1)
  then Some (Box7 (x_l box1) y_1b_new (x_r box1) y_1t_new
                  (label box1) (box_id box1) (position box1))
  else None.

(** The replacement box of the horizontal pass, when one is written. *)
Definition grow_horizontal {T : Type} `{Number T} (x_max : T) (box1 : box7_of T)
  : option (box7_of T) :=
  let x_1l_new :=
    if num_gt (x_l box1) num_zero then num_sub (x_l box1) num_one else x_l box1 in
  let x_1r_new :=
    if num_lt (x_r box1) x_max then num_add (x_r box1) num_one else x_r box1 in
  if num_ne x_1l_new (x_l box1) || num_ne x_1r_new (x_r box1)
  then Some (Box7 x_1l_new (y_b box1) x_1r_new (y_t box1)
                  (label box1) (box_id box1) (position box1))
  else None.

(** One iteration of the outer [for i, box1 in enumerate(...)] loop; the
    state is the list being mutated and the flag [changes_made]. *)
Definition sweep_step {T : Type} `{Number T} (grow : box7_of T → option (box7_of T))
    (i : nat) (state : list (box7_of T) * bool) : list (box7_of T) * bool :=
  let '(boxes, changes_made) := state in
  match boxes !! i with
  | None => state
  | Some box1 =>
      if is_pictorial (label box1) then state
      else if intersection_found i box1 boxes then state
      else match grow box1 with
           | Some new_box => (<[i := new_box]> boxes, true)
           | None => state
           end
  end.

(** One full sweep: the body of [while True] up to the test of
    [changes_made]. *)
Definition sweep {T : Type} `{Number T} (grow : box7_of T → option (box7_of T))
    (boxes : list (box7_of T)) : list (box7_of T) * bool :=
  foldl (λ state i, sweep_step grow i state) (boxes, false)
        (seq 0 (length boxes)).

(** [while True: ... if not changes_made: break], with a bound on the
    number of sweeps; [None] means the bound was reached. *)
Fixpoint sweep_until_stable {T : Type} `{Number T}
    (grow : box7_of T → option (box7_of T)) (fuel : nat)
    (boxes : list (box7_of T)) : option (list (box7_of T)) :=
  match fuel with
  | O => None
  | S fuel' =>
      let '(boxes', changes_made) := sweep grow boxes in
      if changes_made then sweep_until_stable grow fuel' boxes'
      else Some boxes'
  end.

(** Room left for growth: the distance of the upper edge to the page
    bound plus the distance of the lower edge to 0, where positive. *)
Definition room_vertical {T : Type} `{Number T} (y_max : T) (box : box7_of T) : nat :=
  (num_room (num_sub y_max (y_t box)) + num_room (y_b box))%nat.
Definition room_horizontal {T : Type} `{Number T} (x_max : T) (box : box7_of T) : nat :=
  (num_room (num_sub x_max (x_r box)) + num_room (x_l box))%nat.

Definition total_room {T : Type} (room : box7_of T → nat) (boxes : list (box7_of T))
  : nat :=
  sum_list_with room boxes.

(** A loop run with as many sweeps as there is room, plus one.  That
    bound is never reached ([sweep_until_stable_total]). *)
Definition fixed_point {T : Type} `{Number T}
    (grow : box7_of T → option (box7_of T)) (room : box7_of T → nat)
    (boxes : list (box7_of T)) : list (box7_of T) :=
  default boxes (sweep_until_stable grow (S (total_room room boxes)) boxes).

Definition vertical_pass {T : Type} `{Number T} (y_max : T) (boxes : list (box7_of T))
  : list (box7_of T) :=
  fixed_point (grow_vertical y_max) (room_vertical y_max) boxes.
Definition horizontal_pass {T : Type} `{Number T} (x_max : T) (boxes : list (box7_of T))
  : list (box7_of T) :=
  fixed_point (grow_horizontal x_max) (room_horizontal x_max) boxes.

(** The body of the final [zip] loop. *)
Definition merge_axes {T : Type} (box_vertical box_horizontal : box7_of T)
  : box7_of T :=
  if is_pictorial (label box_vertical) then box_vertical
  else Box7 (x_l box_horizontal) (y_b box_vertical)
            (x_r box_horizontal) (y_t box_vertical)
            (label box_vertical) (box_id box_vertical) (position box_vertical).

Definition adjust_bounding_boxes_final {T : Type} `{Number T}
    (boxes : list (box7_of T)) (image_bbox : coords_of T) : list (box7_of T) :=
  let '(_, _, x_max, y_max) := image_bbox in
  let adjusted_boxes_vertical := vertical_pass y_max boxes in
  let adjusted_boxes_horizontal := horizontal_pass x_max boxes in
  zip_with merge_axes adjusted_boxes_vertical adjusted_boxes_horizontal.

(** ** Table decomposer ([get_layout], from [final_regions = []] on) *)

(** A cell of a [table_result], in table-local coordinates. *)
Record table_cell : Type := TableCell {
  cell_bbox : coords;
  cell_row_id : Z;
  cell_col_id : Z
}.

(** What [final_regions] holds: a page region taken over as it is, or
    [[x1, y1, x2, y2, 'a', filename, row_id, col_id]]. *)
Inductive final_region : Type :=
  | PageRegion (region : box7)
  | CellRegion (x1 y1 x2 y2 : Z) (short_label filename : string)
               (row_id col_id : Z).

(** [[cell.bbox[0]-x1, cell.bbox[1]-y1, cell.bbox[2]-x1, cell.bbox[3]-y1]]. *)
Definition to_table_local {T : Type} `{Number T} (x1 y1 : T) (bbox : coords_of T)
  : coords_of T :=
  let '(c0, c1, c2, c3) := bbox in
  (num_sub c0 x1, num_sub c1 y1, num_sub c2 x1, num_sub c3 y1).

(** [x1 += table_x1; y1 += table_y1; x2 += table_x1; y2 += table_y1]. *)
Definition to_page_absolute {T : Type} `{Number T} (table_x1 table_y1 : T)
    (bbox : coords_of T) : coords_of T :=
  let '(x1, y1, x2, y2) := bbox in
  (num_add x1 table_x1, num_add y1 table_y1, num_add x2 table_x1, num_add y2 table_y1).

(** The state of the loop over the expanded regions.  The pixels are
    not modelled: an image is held as the rectangle [(x1, y1, x2, y2)]
    of the table it is cut from, before the [int()] and the slicing of
    [normal_image_cv[int(y1):int(y2), int(x1):int(x2)]]. *)
Record table_batch : Type := TableBatch {
  final_regions : list final_region;
  table_images : list coords;         (* the rectangle each image is cut at *)
  table_cells_list : list (list coords);
  table_positions : list (Z * coords)
}.

Definition collect_step (sparse_line_bboxes : list coords)
    (acc : table_batch) (region : box7) : table_batch :=
  if bool_decide (label region = "Table") then
    let '(x1, y1, x2, y2) := coords7 region in
    let cells_in_table :=
      filter (λ cell, full_encapsulation (coords7 region) cell = true)
             sparse_line_bboxes in
    let table_cells := to_table_local x1 y1 <$> cells_in_table in
    TableBatch (final_regions acc)
               (table_images acc ++ [(x1, y1, x2, y2)])
               (table_cells_list acc ++ [table_cells])
               (table_positions acc ++ [(position region, (x1, y1, x2, y2))])
  else
    TableBatch (final_regions acc ++ [PageRegion region])
               (table_images acc) (table_cells_list acc) (table_positions acc).

Definition collect_tables (regions : list box7) (sparse_line_bboxes : list coords)
  : table_batch :=
  foldl (collect_step sparse_line_bboxes) (TableBatch [] [] [] []) regions.

(** [f"{page_number}_{position}_a_{cell.row_id}_{cell.col_id}.png"]. *)
Definition cell_filename (page_number : nat) (position : Z) (cell : table_cell)
  : string :=
  pretty page_number +:+ "_" +:+ pretty position +:+ "_a_"
  +:+ pretty (cell_row_id cell) +:+ "_" +:+ pretty (cell_col_id cell) +:+ ".png".

(** The regions appended for one [table_result]. *)
Definition emit_cells (page_number : nat) (table_result : list table_cell)
    (table_position : Z * coords) : list final_region :=
  let '(position, (table_x1, table_y1, _, _)) := table_position in
  (λ cell,
     let '(x1, y1, x2, y2) := to_page_absolute table_x1 table_y1 (cell_bbox cell) in
     CellRegion x1 y1 x2 y2 "a" (cell_filename page_number position cell)
                (cell_row_id cell) (cell_col_id cell)) <$> table_result.

(** The table stage of one page.  [batch_table_recognition] is the
    external predictor; [None] stands for the call raising.  The two
    outcomes are those of the predictor: cutting the images, and a
    result that cannot be unpacked, are not modelled. *)
Definition decompose_tables
    (batch_table_recognition :
       list coords → list (list coords) → option (list (list table_cell)))
    (page_number : nat) (regions : list box7) (sparse_line_bboxes : list coords)
  : list final_region :=
  let batch := collect_tables regions sparse_line_bboxes in
  match table_images batch with
  | [] => final_regions batch
  | _ :: _ =>
      match batch_table_recognition (table_images batch) (table_cells_list batch) with
      | Some table_results =>
          final_regions batch
          ++ mjoin (zip_with (emit_cells page_number) table_results
                             (table_positions batch))
      | None =>
          final_regions batch
          ++ (PageRegion <$> filter (λ region, label region = "Table") regions)
      end
  end.

(** ** The consolidation rules *)

(** [lo <= v <= hi], as the code tests it. *)
Definition between {T : Type} `{Number T} (lo v hi : T) : Prop :=
  num_le lo v = true ∧ num_le v hi = true.

(** Axis-aligned interval overlap on both axes: either rectangle's left
    (lower) edge lies within the other's span. *)
Definition rectangles_overlap {T : Type} `{Number T} (a b : box5_of T) : Prop :=
  (between (b5_x1 b) (b5_x1 a) (b5_x2 b) ∨ between (b5_x1 a) (b5_x1 b) (b5_x2 a))
  ∧ (between (b5_y1 b) (b5_y1 a) (b5_y2 b) ∨ between (b5_y1 a) (b5_y1 b) (b5_y2 a)).

(** [inner] is half-open fully contained in [outer]:
    [outer.x1 <= inner.x1 < inner.x2 <= outer.x2], and the same in Y. *)
Definition contained {T : Type} `{Number T} (outer inner : box5_of T) : Prop :=
  (num_le (b5_x1 outer) (b5_x1 inner) = true
   ∧ num_lt (b5_x1 inner) (b5_x2 inner) = true
   ∧ num_le (b5_x2 inner) (b5_x2 outer) = true)
  ∧ (num_le (b5_y1 outer) (b5_y1 inner) = true
     ∧ num_lt (b5_y1 inner) (b5_y2 inner) = true
     ∧ num_le (b5_y2 inner) (b5_y2 outer) = true).

(** The height [|y1 - y2|] of a region. *)
Definition height {T : Type} `{Number T} (b : box5_of T) : T :=
  if num_le (b5_y2 b) (b5_y1 b) then num_sub (b5_y1 b) (b5_y2 b)
  else num_sub (b5_y2 b) (b5_y1 b).

(** The height the code compares: [abs(int(y1) - int(y2))], between the
    Y coordinates cut to integers. *)
Definition truncated_height {T : Type} `{Number T} (b : box5_of T) : Z :=
  Z.abs (num_int (b5_y1 b) - num_int (b5_y2 b)).

(** Rule 1 in the words of the design document: a structural sparse
    label, overlapping rectangles, and twice the sparse height exceeding
    the layout height. *)
Definition structural_rule_as_written {T : Type} `{Number T}
    (sparse layout : box5_of T) : Prop :=
  b5_label sparse ∈ ["Title"; "Section-header"; "Page-header"; "List-item"]
  ∧ rectangles_overlap sparse layout
  ∧ num_gt (num_add (height sparse) (height sparse)) (height layout) = true.

(** Rule 1 as the code applies it: the two heights are truncated
    heights. *)
Definition structural_rule {T : Type} `{Number T} (sparse layout : box5_of T) : Prop :=
  b5_label sparse ∈ ["Title"; "Section-header"; "Page-header"; "List-item"]
  ∧ rectangles_overlap sparse layout
  ∧ truncated_height layout < 2 * truncated_height sparse.

(** Rule 2: an encapsulating sparse label and the layout rectangle
    half-open fully contained in the sparse rectangle. *)
Definition encapsulating_rule {T : Type} `{Number T} (sparse layout : box5_of T)
  : Prop :=
  b5_label sparse ∈ ["Table"; "Caption"; "Footnote"; "Page-footer"]
  ∧ contained sparse layout.

(** A layout region is superseded when some sparse region satisfies one
    of the two rules against it. *)
Definition superseded {T : Type} `{Number T} (sparseRegions : list (box5_of T))
    (layout : box5_of T) : Prop :=
  Exists (λ sparse, structural_rule sparse layout ∨ encapsulating_rule sparse layout)
         sparseRegions.

(** The same with rule 1 in the words of the design document. *)
Definition superseded_as_written {T : Type} `{Number T}
    (sparseRegions : list (box5_of T)) (layout : box5_of T) : Prop :=
  Exists (λ sparse, structural_rule_as_written sparse layout
                    ∨ encapsulating_rule sparse layout)
         sparseRegions.

#[global] Instance between_dec {T : Type} `{Number T} (lo v hi : T) :
  Decision (between lo v hi).
Proof. unfold between. apply _. Defined.
#[global] Instance rectangles_overlap_dec {T : Type} `{Number T} (a b : box5_of T) :
  Decision (rectangles_overlap a b).
Proof. unfold rectangles_overlap. apply _. Defined.
#[global] Instance contained_dec {T : Type} `{Number T} (a b : box5_of T) :
  Decision (contained a b).
Proof. unfold contained. apply _. Defined.
#[global] Instance structural_rule_as_written_dec {T : Type} `{Number T}
    (s l : box5_of T) : Decision (structural_rule_as_written s l).
Proof. unfold structural_rule_as_written. apply _. Defined.
#[global] Instance structural_rule_dec {T : Type} `{Number T} (s l : box5_of T) :
  Decision (structural_rule s l).
Proof. unfold structural_rule. apply _. Defined.
#[global] Instance encapsulating_rule_dec {T : Type} `{Number T} (s l : box5_of T) :
  Decision (encapsulating_rule s l).
Proof. unfold encapsulating_rule. apply _. Defined.
#[global] Instance superseded_dec {T : Type} `{Number T} (S : list (box5_of T))
    (l : box5_of T) : Decision (superseded S l).
Proof. unfold superseded. apply _. Defined.
#[global] Instance superseded_as_written_dec {T : Type} `{Number T}
    (S : list (box5_of T)) (l : box5_of T) : Decision (superseded_as_written S l).
Proof. unfold superseded_as_written. apply _. Defined.

(** A title whose lower edge lies between two pixel rows, over a text
    region 21 pixels high. *)
Definition low_title : list (box5_of float) := [Box5 0 0.5 10 11 "Title"]%float.
Definition tall_text : list (box5_of float) := [Box5 0 0 10 21 "Text"]%float.

(** ** Extremes and matches in the words of the design document *)

Definition is_minimum (m : Z) (values : list Z) : Prop :=
  m ∈ values ∧ ∀ v, v ∈ values → m ≤ v.
Definition is_maximum (m : Z) (values : list Z) : Prop :=
  m ∈ values ∧ ∀ v, v ∈ values → v ≤ m.

(** The region a rectangle designates: the last region of the list with
    exactly that rectangle, if there is one. *)
Definition matching_region (regions : list box6) (rectangle : coords) : option box6 :=
  last (filter (λ region, coords6 region = rectangle) regions).

(** What one prediction entry contributes to the ordered output. *)
Definition stamped_match (regions : list box6) (entry : order_box) : option box7 :=
  region ← matching_region regions (ob_bbox entry);
  Some (with_position region (ob_position entry)).

Definition position_le (a b : box7) : Prop := position a ≤ position b.

(** ** Vocabulary for the expander *)

(** One write [adjusted_boxes[i] = new_box] of a sweep, with the tests
    that guard it. *)
Definition guarded_write (grow : box7 → option box7) (boxes boxes' : list box7)
  : Prop :=
  ∃ i box1 new_box,
    boxes !! i = Some box1
    ∧ is_pictorial (label box1) = false
    ∧ intersection_found i box1 boxes = false
    ∧ grow box1 = Some new_box
    ∧ boxes' = <[i := new_box]> boxes.

(** A list on which a sweep writes nothing: every box is pictorial,
    overlaps another box, or has no edge left to move. *)
Definition stable (grow : box7 → option box7) (boxes : list box7) : Prop :=
  ∀ i box1, boxes !! i = Some box1 →
    is_pictorial (label box1) = true
    ∨ intersection_found i box1 boxes = true
    ∨ grow box1 = None.

(** The loop of a pass terminates: a sweep that reports a change has
    consumed room, a sweep that reports none has left the list as it
    was, and every run with more sweeps allowed than there is room
    returns one and the same list. *)
Definition pass_terminates (grow : box7 → option box7) (room : box7 → nat) : Prop :=
  (∀ boxes boxes', sweep grow boxes = (boxes', true) →
     (total_room room boxes' < total_room room boxes)%nat)
  ∧ (∀ boxes boxes', sweep grow boxes = (boxes', false) → boxes' = boxes)
  ∧ (∀ boxes, ∃ result,
       ∀ fuel, (total_room room boxes < fuel)%nat →
         sweep_until_stable grow fuel boxes = Some result).

(** How a box of the vertical copy relates to the input box at the same
    index: only the Y extent may have changed, by growth, and an edge
    that moved has not passed the page bound it moved towards. *)
Definition grown_vertically (y_max : Z) (box box' : box7) : Prop :=
  label box' = label box ∧ box_id box' = box_id box
  ∧ position box' = position box
  ∧ x_l box' = x_l box ∧ x_r box' = x_r box
  ∧ y_b box' ≤ y_b box ∧ y_t box ≤ y_t box'
  ∧ (y_b box' < y_b box → 0 ≤ y_b box')
  ∧ (y_t box < y_t box' → y_t box' ≤ y_max)
  ∧ (is_pictorial (label box) = true → box' = box).

(** The same for the horizontal copy. *)
Definition grown_horizontally (x_max : Z) (box box' : box7) : Prop :=
  label box' = label box ∧ box_id box' = box_id box
  ∧ position box' = position box
  ∧ y_b box' = y_b box ∧ y_t box' = y_t box
  ∧ x_l box' ≤ x_l box ∧ x_r box ≤ x_r box'
  ∧ (x_l box' < x_l box → 0 ≤ x_l box')
  ∧ (x_r box < x_r box' → x_r box' ≤ x_max)
  ∧ (is_pictorial (label box) = true → box' = box).

(** The rectangle invariant of the data model, in its weak form. *)
Definition well_formed (box : box7) : Prop :=
  x_l box ≤ x_r box ∧ y_b box ≤ y_t box.

(** [outer] covers [inner]. *)
Definition covers (outer inner : box7) : Prop :=
  x_l outer ≤ x_l inner ∧ x_r inner ≤ x_r outer
  ∧ y_b outer ≤ y_b inner ∧ y_t inner ≤ y_t outer.

(** The rectangle lies within the page [[0, 0, width, height]]. *)
Definition within_page (width height : Z) (box : box7) : Prop :=
  0 ≤ x_l box ∧ 0 ≤ y_b box ∧ x_r box ≤ width ∧ y_t box ≤ height.

(** No two distinct non-pictorial regions overlap. *)
Definition overlap_free (boxes : list box7) : Prop :=
  ∀ i j box1 box2, i ≠ j →
    boxes !! i = Some box1 → boxes !! j = Some box2 →
    is_pictorial (label box1) = false → is_pictorial (label box2) = false →
    rectOverlap (coords7 box1) (coords7 box2) = false.

Definition x_spans_meet (a b : box7) : Prop :=
  (x_l b ≤ x_l a ≤ x_r b) ∨ (x_l a ≤ x_l b ≤ x_r a).
Definition y_spans_meet (a b : box7) : Prop :=
  (y_b b ≤ y_b a ≤ y_t b) ∨ (y_b a ≤ y_b b ≤ y_t a).

(** Two boxes of the vertical copy are at most edge-adjacent: where
    their X spans meet, one ends where the other begins, or before. *)
Definition stacked (a b : box7) : Prop :=
  x_spans_meet a b → y_t a ≤ y_b b ∨ y_t b ≤ y_b a.

(** The same for the horizontal copy. *)
Definition side_by_side (a b : box7) : Prop :=
  y_spans_meet a b → x_r a ≤ x_l b ∨ x_r b ≤ x_l a.

(** [adjust_bounding_boxes_final] with both loops limited to [fuel]
    sweeps; [None] when a loop has not stopped by then. *)
Definition adjust_bounding_boxes_final_bounded (fuel : nat) (boxes : list box7)
    (image_bbox : coords) : option (list box7) :=
  let '(_, _, x_max, y_max) := image_bbox in
  adjusted_boxes_vertical ← sweep_until_stable (grow_vertical y_max) fuel boxes;
  adjusted_boxes_horizontal ← sweep_until_stable (grow_horizontal x_max) fuel boxes;
  Some (zip_with merge_axes adjusted_boxes_vertical adjusted_boxes_horizontal).

(** Each edge stays or moves one pixel outwards, not past its bound,
    and at least one edge moves. *)
Definition one_pixel_outwards (bound lo hi lo' hi' : Z) : Prop :=
  (lo' = lo ∨ (lo' = lo - 1 ∧ 0 ≤ lo'))
  ∧ (hi' = hi ∨ (hi' = hi + 1 ∧ hi' ≤ bound))
  ∧ (lo' ≠ lo ∨ hi' ≠ hi).

(** ** Example pages *)

(** Scenario 1 of the design document: two text regions side by side
    on a page 40 wide (and 10 high). *)
Definition scenario1 : list box7 :=
  [Box7 0 0 10 10 "Text" 0 0; Box7 20 0 30 10 "Text" 1 1].
Definition scenario1_page : coords := (0, 0, 40, 10).

(** Two text regions placed diagonally on a 6 by 6 page. *)
Definition diagonal : list box7 :=
  [Box7 0 0 2 2 "Text" 0 0; Box7 4 4 6 6 "Text" 1 1].

(** A text region next to a picture on a 40 by 40 page. *)
Definition text_and_picture : list box7 :=
  [Box7 0 0 10 10 "Text" 7 0; Box7 20 0 30 10 "Picture" 9 1].

(** A text region that reaches over the right edge of a 40 by 40 page. *)
Definition overhanging : list box7 := [Box7 0 0 50 10 "Text" 0 0].

(** A text region whose edges lie between two pixels, alone on a page
    10 by 10. *)
Definition between_pixels : list (box7_of float) :=
  [Box7 0.5 0.5 9.5 9.5 "Text" 0 0]%float.

(** Two text regions half a pixel apart on a page 20 by 10. *)
Definition half_a_pixel_apart : list (box7_of float) :=
  [Box7 0 0 10 10 "Text" 0 0; Box7 10.5 0 20 10 "Text" 1 1]%float.

(** A cell rectangle with fractional coordinates. *)
Definition fractional_cell : coords_of float := (12.1, 12.1, 20, 20)%float.

(** Scenario 3 of the design document: 300 regions on one page. *)
Definition scenario3 : list box6 :=
  (λ i : nat, Box6 (Z.of_nat i) (2 * Z.of_nat i) (Z.of_nat i + 10)
                   (2 * Z.of_nat i + 5) "Title" i) <$> seq 0 300.

(** Two regions with one and the same rectangle, and a prediction that
    names that rectangle. *)
Definition twin_regions : list box6 :=
  [Box6 0 0 10 10 "Picture" 0; Box6 0 0 10 10 "Formula" 1].
Definition twin_prediction : list order_box := [OrderBox (0, 0, 10, 10) 0].

(** Three regions one under the other, and a prediction that lists
    them out of order. *)
Definition column_regions : list box6 :=
  [Box6 0 0 10 10 "Title" 0; Box6 0 20 10 30 "Text" 1; Box6 0 40 10 50 "Text" 2].
Definition shuffled_prediction : list order_box :=
  [OrderBox (0, 40, 10, 50) 2; OrderBox (0, 0, 10, 10) 0; OrderBox (0, 20, 10, 30) 1].

(** A page with one table between two text regions, one line box inside
    the table, and a predictor whose call raises. *)
Definition table_page : list box7 :=
  [Box7 0 0 40 10 "Text" 0 0; Box7 0 10 40 30 "Table" 1 1;
   Box7 0 30 40 40 "Text" 2 2].
Definition table_page_lines : list coords := [(5, 12, 20, 18)].
Definition raising_predictor (_ : list coords) (_ : list (list coords))
  : option (list (list table_cell)) := None.

(** ** Region extraction, label codes and the first per-page loop *)

(** One entry of [layout_result.bboxes]. *)
Record layout_box : Type := LayoutBox {
  lb_bbox : coords;
  lb_label : string
}.

(** [layout_box.bbox + [label]] for every box of every result. *)
Definition extract_bounding_boxes (layout_predictions : list (list layout_box))
  : list box5 :=
  layout_result ← layout_predictions;
  (λ layout_box,
     let '(x1, y1, x2, y2) := lb_bbox layout_box in
     Box5 x1 y1 x2 y2 (lb_label layout_box)) <$> layout_result.

Definition label_map : gmap string string :=
  list_to_map
    [("Caption", "c"); ("Footnote", "fo"); ("Formula", "fr"); ("List-item", "l");
     ("Page-footer", "pf"); ("Page-header", "ph"); ("Picture", "p"); ("Figure", "f");
     ("Section-header", "s"); ("Table", "a"); ("Text", "e"); ("Title", "i")].

(** [label_map.get(label, 'u')]. *)
Definition get_shortened_label (label : string) : string :=
  default "u" (label_map !! label).

(** The labels of the closed set. *)
Definition known_labels : list string :=
  ["Caption"; "Footnote"; "Formula"; "List-item"; "Page-footer"; "Page-header";
   "Picture"; "Figure"; "Section-header"; "Table"; "Text"; "Title"].

(** The body of the first per-page loop of [get_layout], up to the
    lists it appends: the regions with their ids and the rectangles
    handed to the reading-order predictor. *)
Definition page_regions (layout_prediction sparse_layout_prediction : list layout_box)
  : list box6 * list coords :=
  let layout_regions := extract_bounding_boxes [layout_prediction] in
  let sparse_line_regions := extract_bounding_boxes [sparse_layout_prediction] in
  let filtered_adjusted_sparse_line_regions := filter_text_labels sparse_line_regions in
  let consolidated_regions :=
    consolidate_regions filtered_adjusted_sparse_line_regions layout_regions in
  let consolidated_regions_with_ids :=
    degeneracy_guard (assign_boxIDs consolidated_regions) in
  let vertically_swelled_layout_regions_scaled := consolidated_regions_with_ids in
  (consolidated_regions_with_ids,
   coords6 <$> vertically_swelled_layout_regions_scaled).

(** The labels in whose name the consolidator deletes layout regions. *)
Definition deleting_labels : list string :=
  ["Title"; "Section-header"; "Page-header"; "List-item";
   "Table"; "Caption"; "Footnote"; "Page-footer"].

(** A box of the ordered list without its order position. *)
Definition without_position (box : box7) : box6 :=
  Box6 (x_l box) (y_b box) (x_r box) (y_t box) (label box) (box_id box).

(** ** Cells and crops *)

(** The candidate cells of a table, as handed to the predictor. *)
Definition candidate_cells (sparse_line_bboxes : list coords) (region : box7)
  : list coords :=
  to_table_local (x_l region) (y_b region)
    <$> filter (λ cell, full_encapsulation (coords7 region) cell = true)
               sparse_line_bboxes.

(** The tables of a page, in order. *)
Definition tables_of (regions : list box7) : list box7 :=
  filter (λ region, label region = "Table") regions.

(** ** Pages and chunks ([process_document.py], [start.py]) *)

Definition MAX_PAGES : Z := 16.

(** [range(start, stop)]. *)
Definition py_range (start stop : Z) : list Z := seqZ start (stop - start).

(** [a // b]; [None] stands for [ZeroDivisionError]. *)
Definition floordiv (a b : Z) : option Z :=
  if decide (b = 0) then None else Some (a `div` b).

(** [pages_in_chunk] of [process_pdf]. *)
Definition pages_in_chunk (page_count max_pages chunk_num chunk_size : Z) : list Z :=
  let start_page := (chunk_num - 1) * chunk_size in
  let end_page := Z.min (start_page + chunk_size) (Z.min page_count max_pages) in
  py_range start_page end_page.

(** The [try] block of [process_single_document]: the pages it has
    [process_pdf] work on, one list per chunk, for a document of
    [page_count] pages.  [None] stands for the [ZeroDivisionError] that
    the count of the chunks raises inside the block. *)
Definition document_pages (page_count chunk_size : Z) : option (list (list Z)) :=
  let total_pages := Z.min page_count MAX_PAGES in
  num_chunks ← floordiv (total_pages + chunk_size - 1) chunk_size;
  Some ((λ chunk_num, pages_in_chunk page_count MAX_PAGES chunk_num chunk_size)
          <$> py_range 1 (num_chunks + 1)).

Inductive chunk_error : Type := ZeroDivisionError | UnboundLocalError.

(** The handler of [process_single_document], which ends in [raise].
    Before that it reads [chunk_input_dir], a name that the [try] block
    binds after it has counted the chunks: when the count has raised,
    the name is unbound, reading it raises [UnboundLocalError], and
    that error, not the one caught, leaves the function. *)
Definition cleanup_on_error (caught : chunk_error) : chunk_error :=
  match caught with
  | ZeroDivisionError => UnboundLocalError
  | UnboundLocalError => UnboundLocalError
  end.

(** [process_single_document]: the chunks worked on, or the error that
    leaves the function. *)
Definition process_single_document (page_count chunk_size : Z)
  : chunk_error + list (list Z) :=
  match document_pages page_count chunk_size with
  | Some chunks => inr chunks
  | None => inl (cleanup_on_error ZeroDivisionError)
  end.

(** [(start_page or 0) + page_number + 1] of [get_layout]. *)
Definition actual_page_num (start_page : option Z) (page_number : Z) : Z :=
  (match start_page with
   | Some s => if decide (s = 0) then 0 else s
   | None => 0
   end) + page_number + 1.

(** The numbers of the [.boxes] files written for one chunk: one for
    each page folder of the chunk, counted from 0. *)
Definition boxes_file_numbers (page_count chunk_num chunk_size : Z) : list Z :=
  let start_page := (chunk_num - 1) * chunk_size in
  let page_folders := pages_in_chunk page_count MAX_PAGES chunk_num chunk_size in
  actual_page_num (Some start_page) <$> py_range 0 (Z.of_nat (length page_folders)).

(** The [(from_page, to_page)] pairs that [split_pdf] hands to
    [insert_pdf], both inclusive. *)
Definition split_pdf (page_count chunk_size : Z) : option (list (Z * Z)) :=
  let num_pages := Z.min page_count MAX_PAGES in
  num_chunks ← floordiv (num_pages + chunk_size - 1) chunk_size;
  Some ((λ i, let start_page := i * chunk_size in
              let end_page := Z.min ((i + 1) * chunk_size) num_pages in
              (start_page, end_page - 1)) <$> py_range 0 num_chunks).

(** ** Word boxes ([process_document.py]) *)

Definition polygon_to_bbox (polygon : list (Z * Z)) : option coords :=
  let x_coords := fst <$> polygon in
  let y_coords := snd <$> polygon in
  match polygon with
  | [] => None                       (* [min] of an empty list: ValueError *)
  | _ :: _ => Some (py_min x_coords, py_min y_coords,
                    py_max x_coords, py_max y_coords)
  end.

(** [[[x1, y1], [x2, y1], [x2, y2], [x1, y2]]] of [get_layout]. *)
Definition craft_polygon (craft_bbox : coords) : list (Z * Z) :=
  let '(x1, y1, x2, y2) := craft_bbox in
  [(x1, y1); (x2, y1); (x2, y2); (x1, y2)].

(** ** Page selection ([surya/input/load.py]) *)

(** [if v:] for an optional integer argument. *)
Definition truthy (v : option Z) : bool :=
  match v with Some n => bool_decide (n ≠ 0) | None => false end.

(** [page_indices] of [load_pdf] for a document of [doc_len] pages;
    [None] stands for a failed [assert]. *)
Definition load_pdf_page_indices (doc_len : Z) (max_pages start_page : option Z)
  : option (list Z) :=
  let last_page := doc_len in
  start_page ← (if truthy start_page then
                  let s := default 0 start_page in
                  if bool_decide (s < last_page ∧ 0 ≤ s) then Some s else None
                else Some 0);
  last_page ← (if truthy max_pages then
                 let m := default 0 max_pages in
                 if bool_decide (0 ≤ m)
                 then Some (Z.min (start_page + m) last_page) else None
               else Some last_page);
  Some (py_range start_page last_page).

(** ** Names ([surya/input/load.py], the rasterizer of [get_layout]) *)

(** [c in s]. *)
Fixpoint occurs (c : ascii) (s : string) : bool :=
  match s with
  | EmptyString => false
  | String c' rest => bool_decide (c' = c) || occurs c rest
  end.

(** [p[p.rfind(sep) + 1:]]: what follows the last [sep], or all of [p]. *)
Fixpoint after_last (sep : ascii) (p : string) : string :=
  match p with
  | EmptyString => EmptyString
  | String c rest =>
      if occurs sep rest then after_last sep rest
      else if bool_decide (c = sep) then rest else p
  end.

(** [s.split(sep)[0]]: what precedes the first [sep], or all of [s]. *)
Fixpoint before_first (sep : ascii) (s : string) : string :=
  match s with
  | EmptyString => EmptyString
  | String c rest =>
      if bool_decide (c = sep) then EmptyString
      else String c (before_first sep rest)
  end.

(** [os.path.basename] of [posixpath]. *)
Definition basename (path : string) : string := after_last "/" path.

Definition get_name_from_path (path : string) : string :=
  before_first "." (basename path).

Fixpoint zeros (n : nat) : string :=
  match n with O => EmptyString | S n' => String "0" (zeros n') end.

(** [s.zfill(width)]: zeros on the left up to [width], after a leading
    sign if there is one. *)
Definition zfill (width : nat) (s : string) : string :=
  let fill := (width - String.length s)%nat in
  match s with
  | String c rest =>
      if bool_decide (c = "+"%char ∨ c = "-"%char)
      then String c (zeros fill +:+ rest)
      else zeros fill +:+ s
  | EmptyString => zeros fill
  end.

(** [file_name] in the last loop of [get_layout], for a page with
    [num_images] final regions.  [None] stands for the [TypeError] that
    [os.path.join] raises when a page region labelled "a" makes the
    loop take its integer box id for a file name. *)
Definition region_file_name (page_number num_images : nat) (region : final_region)
  : option string :=
  let num_digits := String.length (pretty num_images) in
  let name position label :=
    let padded_index := zfill num_digits (pretty position) in
    let shortened_label := get_shortened_label label in
    pretty page_number +:+ "_" +:+ padded_index +:+ "_" +:+ shortened_label
    +:+ ".png" in
  match region with
  | PageRegion region =>
      if decide (label region = "a") then None
      else Some (name (position region) (label region))
  | CellRegion _ _ _ _ label filename row_id _ =>
      if decide (label = "a") then Some filename
      else Some (name row_id label)
  end.

(** [s.lstrip("0")]. *)
Fixpoint strip_zeros (s : string) : string :=
  match s with
  | String c rest => if bool_decide (c = "0"%char) then strip_zeros rest else s
  | EmptyString => EmptyString
  end.

(** ** Sheets ([markdown.py], [ExcelProcessor]) *)

(** [CellCoordinate(row, col)]: equality and hash are those of the
    pair. *)
Definition CellCoordinate : Type := Z * Z.
Definition row (coord : CellCoordinate) : Z := coord.1.
Definition col (coord : CellCoordinate) : Z := coord.2.

Inductive exception : Type := IndexError | ValueError.

(** What a call comes to: a value, an exception, or a loop still
    running when the fuel of the model is used up. *)
Inductive outcome (A : Type) : Type :=
  | Returns (a : A)
  | Raises (e : exception)
  | OutOfFuel.
Arguments Returns {A} a.
Arguments Raises {A} e.
Arguments OutOfFuel {A}.

#[global] Instance outcome_ret : MRet outcome := @Returns.
#[global] Instance outcome_bind : MBind outcome := λ A B f m,
  match m with
  | Returns a => f a
  | Raises e => Raises e
  | OutOfFuel => OutOfFuel
  end.

(** The loop [for coord in body: if key(coord) not in seen or
    val(coord) < val(seen[key(coord)]): seen[key(coord)] = coord] of
    [find_left_cells] ([key] the row, [val] the column) and of
    [find_top_cells] ([key] the column, [val] the row). *)
Definition extreme_step (key val : CellCoordinate → Z)
    (seen : gmap Z CellCoordinate) (coord : CellCoordinate) : gmap Z CellCoordinate :=
  match seen !! key coord with
  | Some current =>
      if bool_decide (val coord < val current) then <[key coord := coord]> seen
      else seen
  | None => <[key coord := coord]> seen
  end.

Definition extreme_cells (key val : CellCoordinate → Z)
    (bodies : list (list CellCoordinate)) : gset CellCoordinate :=
  foldl (λ cells body, cells ∪ map_img (foldl (extreme_step key val) ∅ body))
        ∅ bodies.

(** A body is a Python set: it is given as the sequence in which the
    loop meets its cells, which the language leaves open. *)
Definition find_left_cells (bodies : list (list CellCoordinate)) : gset CellCoordinate :=
  extreme_cells row col bodies.

Definition find_top_cells (bodies : list (list CellCoordinate)) : gset CellCoordinate :=
  extreme_cells col row bodies.

(** [if key not in groups: groups[key] = []] followed by
    [groups[key].append(cell)], on a dictionary kept in insertion
    order. *)
Fixpoint group_append (key : Z) (cell : CellCoordinate)
    (groups : list (Z * list CellCoordinate)) : list (Z * list CellCoordinate) :=
  match groups with
  | [] => [(key, [cell])]
  | (k, cells) :: rest =>
      if decide (k = key) then (k, cells ++ [cell]) :: rest
      else (k, cells) :: group_append key cell rest
  end.

(** [min(key(cell) for cell in continuous_body)]. *)
Definition min_key (key : CellCoordinate → Z) (continuous_body : list CellCoordinate)
  : outcome Z :=
  match continuous_body with
  | [] => Raises ValueError
  | _ => Returns (py_min (key <$> continuous_body))
  end.

(** The body of [find_unique_leftmost_cells] ([key] the column) and of
    [find_unique_topmost_cells] ([key] the row). *)
Definition unique_cells (key : CellCoordinate → Z)
    (continuous_body : list CellCoordinate) : outcome (list CellCoordinate) :=
  let groups :=
    foldl (λ groups cell, group_append (key cell) cell groups) [] continuous_body in
  _ ← min_key key continuous_body;
  Returns (omap (λ '(k, cells),
                   if bool_decide (length cells = 1%nat)
                      && existsb (λ other, bool_decide (k < other)) groups.*1
                   then head cells else None) groups).

Definition find_unique_leftmost_cells (continuous_body : list CellCoordinate)
  : outcome (list CellCoordinate) := unique_cells col continuous_body.

Definition find_unique_topmost_cells (continuous_body : list CellCoordinate)
  : outcome (list CellCoordinate) := unique_cells row continuous_body.

(** An L-shaped body: the corner stands alone in its row, the two cells
    of the arm stand alone in their columns, and the arm's end is in the
    rightmost column. *)
Definition l_shaped_body : list CellCoordinate := [(0, 0); (1, 0); (1, 1); (1, 2)].

(** [l[i]], with Python's negative indices. *)
Definition py_index {A : Type} (l : list A) (i : Z) : outcome A :=
  let n := Z.of_nat (length l) in
  let item :=
    if bool_decide (0 ≤ i) then l !! Z.to_nat i
    else if bool_decide (- n ≤ i) then l !! Z.to_nat (n + i)
    else None in
  match item with
  | Some x => Returns x
  | None => Raises IndexError
  end.

(** [for x in xs: state = step(x, state)], stopped by the first
    exception. *)
Fixpoint for_each {A S : Type} (xs : list A) (step : A → S → outcome S) (state : S)
  : outcome S :=
  match xs with
  | [] => Returns state
  | x :: xs => state ← step x state; for_each xs step state
  end.

(** The state of [flood_fill]: the set [visited], which the caller
    shares with it, the [body] under construction and the queue. *)
Record fill_state : Type := FillState {
  visited : gset CellCoordinate;
  body : gset CellCoordinate;
  to_visit : list CellCoordinate
}.

Definition directions : list (Z * Z) := [(0, 1); (1, 0); (0, -1); (-1, 0)].

(** A sheet is a list of rows of cell values.  The flood fill asks one
    thing of a value, through the method [is_cell_empty]: whether it is
    [None] or a blank string. *)
Section sheet.
Context {value : Type} (is_cell_empty : value → bool) (data : list (list value)).

(** [data[r][c]]. *)
Definition cell_value (r c : Z) : outcome value :=
  line ← py_index data r; py_index line c.

(** [0 <= r < len(data) and 0 <= c < len(data[0])]. *)
Definition is_valid (r c : Z) : outcome bool :=
  if bool_decide (0 ≤ r < Z.of_nat (length data)) then
    first ← py_index data 0;
    Returns (bool_decide (0 ≤ c < Z.of_nat (length first)))
  else Returns false.

Fixpoint neighbors_in (r c : Z) (steps : list (Z * Z)) : outcome (list CellCoordinate) :=
  match steps with
  | [] => Returns []
  | (dr, dc) :: steps =>
      valid ← is_valid (r + dr) (c + dc);
      keep ← (if valid : bool then
                v ← cell_value (r + dr) (c + dc);
                Returns (negb (is_cell_empty v))
              else Returns false);
      rest ← neighbors_in r c steps;
      Returns (if keep : bool then (r + dr, c + dc) :: rest else rest)
  end.

Definition get_neighbors (coord : CellCoordinate) : outcome (list CellCoordinate) :=
  neighbors_in (row coord) (col coord) directions.

(** The body of [for neighbor in get_neighbors(current)]. *)
Definition visit (state : fill_state) (neighbor : CellCoordinate) : fill_state :=
  if decide (neighbor ∈ visited state) then state
  else {| visited := visited state ∪ {[neighbor]};
          body := body state ∪ {[neighbor]};
          to_visit := to_visit state ++ [neighbor] |}.

(** [while to_visit: ...]. *)
Fixpoint flood_loop (fuel : nat) (state : fill_state) : outcome fill_state :=
  match to_visit state with
  | [] => Returns state
  | current :: rest =>
      match fuel with
      | O => OutOfFuel
      | S fuel =>
          neighbors ← get_neighbors current;
          flood_loop fuel
            (foldl visit
               {| visited := visited state; body := body state; to_visit := rest |}
               neighbors)
      end
  end.

(** The sheet has [len(data) * len(data[0])] cells that can be queued,
    each at most once. *)
Definition cell_count : nat := (length data * length (default [] (head data)))%nat.

(** [flood_fill(start, visited)]: the body, and [visited] as the call
    leaves it. *)
Definition flood_fill (start : CellCoordinate) (visited : gset CellCoordinate)
  : outcome (gset CellCoordinate * gset CellCoordinate) :=
  if decide (start ∈ visited) then Returns (∅, visited)
  else
    v ← cell_value (row start) (col start);
    if is_cell_empty v then Returns (∅, visited)
    else
      '(FillState visited body _) ←
        flood_loop cell_count
          {| visited := visited ∪ {[start]}; body := {[start]}; to_visit := [start] |};
      Returns (body, visited).

(** The body of the inner loop of [get_continuous_bodies]. *)
Definition scan_cell (r c : Z) (state : gset CellCoordinate * list (gset CellCoordinate))
  : outcome (gset CellCoordinate * list (gset CellCoordinate)) :=
  let '(visited, bodies) := state in
  let coord : CellCoordinate := (r, c) in
  if decide (coord ∈ visited) then Returns state
  else
    v ← cell_value r c;
    if is_cell_empty v then Returns state
    else
      '(body, visited) ← flood_fill coord visited;
      Returns (visited, if decide (body = ∅) then bodies else bodies ++ [body]).

(** The body of the outer loop: [for c in range(len(data[0])): ...]. *)
Definition scan_line (r : Z) (state : gset CellCoordinate * list (gset CellCoordinate))
  : outcome (gset CellCoordinate * list (gset CellCoordinate)) :=
  first ← py_index data 0;
  for_each (py_range 0 (Z.of_nat (length first))) (scan_cell r) state.

Definition get_continuous_bodies : outcome (list (gset CellCoordinate)) :=
  '(_, bodies) ← for_each (py_range 0 (Z.of_nat (length data))) scan_line (∅, []);
  Returns bodies.

(** A cell of the sheet that is not empty. *)
Definition filled (coord : CellCoordinate) : bool :=
  bool_decide (0 ≤ row coord < Z.of_nat (length data))
  && bool_decide (0 ≤ col coord < Z.of_nat (length (default [] (head data))))
  && match data !! Z.to_nat (row coord) ≫= (.!! Z.to_nat (col coord)) with
     | Some v => negb (is_cell_empty v)
     | None => false
     end.
End sheet.

(** Two cells that share an edge. *)
Definition adjacent (a b : CellCoordinate) : Prop :=
  (row a = row b ∧ (col b = col a + 1 ∨ col b = col a - 1))
  ∨ (col a = col b ∧ (row b = row a + 1 ∨ row b = row a - 1)).

(** Two filled cells that share an edge. *)
Definition linked {value : Type} (is_cell_empty : value → bool)
    (data : list (list value)) (a b : CellCoordinate) : Prop :=
  adjacent a b ∧ filled is_cell_empty data a = true ∧ filled is_cell_empty data b = true.

(** No row is shorter than the first. *)
Definition no_short_row {value : Type} (data : list (list value)) : Prop :=
  Forall (λ line, (length (default [] (head data)) ≤ length line)%nat) data.

(** What the loop of [flood_fill] keeps true, for a fill that started
    at [start] with the set [visited0]. *)
Definition fill_invariant {value : Type} (is_cell_empty : value → bool)
    (data : list (list value)) (visited0 : gset CellCoordinate)
    (start : CellCoordinate) (state : fill_state) : Prop :=
  visited state = visited0 ∪ body state
  ∧ body state ## visited0
  ∧ start ∈ body state
  ∧ (∀ c, c ∈ to_visit state → c ∈ body state)
  ∧ (∀ c, c ∈ body state → filled is_cell_empty data c = true)
  ∧ (∀ c, c ∈ body state → rtc (linked is_cell_empty data) start c)
  ∧ (∀ c n, c ∈ body state → c ∉ to_visit state →
            linked is_cell_empty data c n → n ∈ visited state).

(** A set of filled cells that hangs together and that no filled cell
    outside it touches. *)
Definition component {value : Type} (is_cell_empty : value → bool)
    (data : list (list value)) (body : gset CellCoordinate) : Prop :=
  body ≠ ∅
  ∧ (∀ c, c ∈ body → filled is_cell_empty data c = true)
  ∧ (∀ c n, c ∈ body → linked is_cell_empty data c n → n ∈ body)
  ∧ (∀ c c', c ∈ body → c' ∈ body → rtc (linked is_cell_empty data) c c').

(** What the two nested loops of [get_continuous_bodies] keep true. *)
Definition scan_invariant {value : Type} (is_cell_empty : value → bool)
    (data : list (list value))
    (state : gset CellCoordinate * list (gset CellCoordinate)) : Prop :=
  (∀ c, c ∈ state.1 ↔ ∃ body, body ∈ state.2 ∧ c ∈ body)
  ∧ Forall (component is_cell_empty data) state.2
  ∧ (∀ i j b1 b2, i ≠ j → state.2 !! i = Some b1 → state.2 !! j = Some b2 → b1 ## b2).

(** A sheet with three bodies: an angle at the top left, a bar at the
    right and a single cell at the bottom left. *)
Definition sample_sheet : list (list (option Z)) :=
  [[Some 1; Some 2; None; None];
   [None; Some 3; None; Some 4];
   [None; None; None; Some 5];
   [Some 6; None; None; None]].

Definition blank (v : option Z) : bool := bool_decide (v = None).

Definition sample_bodies : list (gset CellCoordinate) :=
  [{[(0, 0); (0, 1); (1, 1)]}; {[(1, 3); (2, 3)]}; {[(3, 0)]}].

(** [cell_to_body] of [process_sheet]: [for body in bodies: for cell in
    body: cell_to_body[cell] = body]. *)
Definition cell_to_body (bodies : list (gset CellCoordinate))
  : gmap CellCoordinate (gset CellCoordinate) :=
  foldl (λ cell_to_body body,
           foldl (λ cell_to_body cell, <[cell := body]> cell_to_body)
                 cell_to_body (elements body))
        ∅ bodies.

(** * Properties *)

(** On integer coordinates the operations of [Number] are those of [Z]. *)
Ltac ints :=
  cbn [num_zero num_one num_le num_lt num_gt num_ne num_add num_sub num_int
       num_room Z_number] in *.

(** ** Geometry *)

Lemma valueInRange_spec v lo hi : valueInRange v lo hi = true ↔ lo ≤ v ≤ hi.
Proof. unfold valueInRange. rewrite andb_true_iff, !Z.leb_le. tauto. Qed.

Lemma rectOverlap_spec a1 b1 c1 d1 a2 b2 c2 d2 :
  rectOverlap (a1, b1, c1, d1) (a2, b2, c2, d2) = true ↔
  ((a2 ≤ a1 ≤ c2) ∨ (a1 ≤ a2 ≤ c1)) ∧ ((b2 ≤ b1 ≤ d2) ∨ (b1 ≤ b2 ≤ d1)).
Proof.
  unfold rectOverlap.
  rewrite andb_true_iff, !orb_true_iff, !valueInRange_spec. tauto.
Qed.

Lemma rectOverlap_sym (c d : coords) : rectOverlap c d = rectOverlap d c.
Proof.
  destruct c as [[[a1 b1] c1] d1], d as [[[a2 b2] c2] d2].
  apply eq_true_iff_eq. rewrite !rectOverlap_spec. tauto.
Qed.

Lemma full_encapsulation_spec a1 b1 c1 d1 a2 b2 c2 d2 :
  full_encapsulation (a1, b1, c1, d1) (a2, b2, c2, d2) = true ↔
  (a1 ≤ a2 < c2 ∧ c2 ≤ c1) ∧ (b1 ≤ b2 < d2 ∧ d2 ≤ d1).
Proof.
  unfold full_encapsulation.
  rewrite !andb_true_iff, !Z.leb_le, !Z.ltb_lt. tauto.
Qed.

(** ** Table coordinates *)

(** C8 (as the code has it). On integer coordinates, translating a
    rectangle into table-local coordinates (subtracting the table
    origin) and back to page-absolute coordinates (adding the same
    origin) yields the rectangle exactly; so does the opposite order. *)
Theorem table_translation_round_trip (x1 y1 : Z) (r : coords) :
  to_page_absolute x1 y1 (to_table_local x1 y1 r) = r
  ∧ to_table_local x1 y1 (to_page_absolute x1 y1 r) = r.
Proof.
  destruct r as [[[c0 c1] c2] c3]. unfold to_page_absolute, to_table_local. ints.
  split; repeat f_equal; lia.
Qed.

(** On floats each difference and each sum is rounded, and the round
    trip misses: [(12.1 - 3.7) + 3.7] is [12.099999999999998]. *)
Lemma table_translation_rounds :
  to_page_absolute 3.7%float 3.7%float
    (to_table_local 3.7%float 3.7%float fractional_cell)
  ≠ fractional_cell.
Proof.
  intros Heq.
  apply (f_equal (λ r : coords_of float, PrimFloat.eqb r.1.1.1 12.1%float)) in Heq.
  vm_compute in Heq. discriminate.
Qed.

(** ** Consolidator *)

Lemma enumerate_snoc {A : Type} (l : list A) (x : A) :
  enumerate (l ++ [x]) = enumerate l ++ [(length l, x)].
Proof. unfold enumerate. rewrite imap_app. simpl. by rewrite Nat.add_0_r. Qed.

(** The tests of the code, whatever the numbers are. *)
Lemma valueInRange_between {T : Type} `{Number T} (v lo hi : T) :
  valueInRange v lo hi = true ↔ between lo v hi.
Proof. unfold valueInRange, between. by rewrite andb_true_iff. Qed.

Lemma rectOverlap_rectangles_overlap {T : Type} `{Number T} (a b : box5_of T) :
  rectOverlap (coords5 a) (coords5 b) = true ↔ rectangles_overlap a b.
Proof.
  unfold rectOverlap, rectangles_overlap, coords5.
  by rewrite andb_true_iff, !orb_true_iff, !valueInRange_between.
Qed.

Lemma full_encapsulation_contained {T : Type} `{Number T} (a b : box5_of T) :
  full_encapsulation (coords5 a) (coords5 b) = true ↔ contained a b.
Proof.
  unfold full_encapsulation, contained, coords5. rewrite !andb_true_iff. tauto.
Qed.

Lemma marks_for_deletion_spec {T : Type} `{Number T}
    (primary_box secondary_box : box5_of T) :
  marks_for_deletion primary_box secondary_box = true ↔
  structural_rule primary_box secondary_box
  ∨ encapsulating_rule primary_box secondary_box.
Proof.
  unfold marks_for_deletion, structural_rule, encapsulating_rule, truncated_height.
  rewrite orb_true_iff, !andb_true_iff, !bool_decide_eq_true,
    rectOverlap_rectangles_overlap, full_encapsulation_contained, Z.gtb_lt.
  tauto.
Qed.

(** The inner loop adds exactly the indices of the layout regions that
    the given sparse region marks. *)
Lemma inner_loop_marks {T : Type} `{Number T} (primary_box : box5_of T)
    (layout_regions : list (box5_of T)) (acc : gset nat) (j : nat) :
  j ∈ foldl (λ (acc : gset nat) '(j, secondary_box),
               if marks_for_deletion primary_box secondary_box
               then {[ j ]} ∪ acc else acc)
            acc (enumerate layout_regions)
  ↔ j ∈ acc ∨ ∃ secondary_box, layout_regions !! j = Some secondary_box
                ∧ marks_for_deletion primary_box secondary_box = true.
Proof.
  induction layout_regions as [|s l IH] using rev_ind; simpl.
  - split; [auto|]. intros [?|(? & ? & ?)]; [done|]. by rewrite lookup_nil in *.
  - rewrite enumerate_snoc, foldl_snoc.
    destruct (marks_for_deletion primary_box s) eqn:Hs.
    + rewrite elem_of_union, elem_of_singleton, IH. split.
      * intros [->|[?|(s' & Hl & Hm)]]; [right|by left|right].
        -- exists s. split; [|done]. by rewrite lookup_app_r, Nat.sub_diag.
        -- exists s'. split; [|done]. rewrite lookup_app_l; [done|].
           by eapply lookup_lt_Some.
      * intros [?|(s' & Hl & Hm)]; [tauto|].
        apply lookup_snoc_Some in Hl as [[? ?]|[-> ->]]; [|tauto].
        right; right. eauto.
    + rewrite IH. split.
      * intros [?|(s' & Hl & Hm)]; [by left|right].
        exists s'. split; [|done]. rewrite lookup_app_l; [done|].
        by eapply lookup_lt_Some.
      * intros [?|(s' & Hl & Hm)]; [tauto|].
        apply lookup_snoc_Some in Hl as [[? ?]|[-> ->]]; [|congruence].
        right. eauto.
Qed.

(** After the double loop, the set holds exactly the indices of the
    layout regions marked by some sparse region. *)
Lemma double_loop_marks {T : Type} `{Number T}
    (sparse_line_regions layout_regions : list (box5_of T)) (j : nat) :
  j ∈ foldl (λ (acc : gset nat) '(i, primary_box),
               foldl (λ (acc : gset nat) '(j, secondary_box),
                        if marks_for_deletion primary_box secondary_box
                        then {[ j ]} ∪ acc else acc)
                     acc (enumerate layout_regions))
            ∅ (enumerate sparse_line_regions)
  ↔ ∃ primary_box secondary_box,
      primary_box ∈ sparse_line_regions
      ∧ layout_regions !! j = Some secondary_box
      ∧ marks_for_deletion primary_box secondary_box = true.
Proof.
  induction sparse_line_regions as [|p l IH] using rev_ind; simpl.
  - split; [set_solver|]. intros (? & ? & Hin & _). by apply elem_of_nil in Hin.
  - rewrite enumerate_snoc, foldl_snoc, inner_loop_marks, IH. split.
    + intros [(p' & s & ? & ? & ?)|(s & ? & ?)].
      * exists p', s. rewrite elem_of_app. tauto.
      * exists p, s. rewrite elem_of_app, list_elem_of_singleton. tauto.
    + intros (p' & s & Hin & ? & ?).
      apply elem_of_app in Hin as [?|Hin%list_elem_of_singleton]; subst; eauto 6.
Qed.

(** Filtering by a set of indices is filtering by content when
    membership of an index is decided by the element it holds. *)
Lemma keep_unmarked_by_content {A : Type} (P : A → Prop) `{!∀ x, Decision (P x)}
    (s : gset nat) (l : list A) :
  (∀ j x, l !! j = Some x → (j ∈ s ↔ P x)) →
  keep_unmarked s l = filter (λ x, ¬ P x) l.
Proof.
  unfold keep_unmarked.
  induction l as [|x l IH] using rev_ind; intros Hs; [done|].
  rewrite enumerate_snoc, !filter_app, fmap_app, IH.
  - f_equal. rewrite !filter_cons, !filter_nil. simpl.
    specialize (Hs (length l) x). rewrite lookup_app_r, Nat.sub_diag in Hs by lia.
    specialize (Hs eq_refl).
    repeat case_decide; simpl; tauto.
  - intros j y Hj. apply Hs. rewrite lookup_app_l; [done|].
    by eapply lookup_lt_Some.
Qed.

Lemma keep_unmarked_empty {A : Type} (l : list A) : keep_unmarked ∅ l = l.
Proof.
  rewrite (keep_unmarked_by_content (λ _, False)) by set_solver.
  induction l as [|x l IH]; [done|]. rewrite filter_cons_True by tauto. by f_equal.
Qed.

(** C3 (as the code has it). Whatever numbers the coordinates are,
    [consolidate_regions] returns every sparse region, in order,
    followed by the layout regions that survive, in order; a layout
    region is deleted exactly when some sparse region satisfies the
    structural rule (structural label, overlapping rectangles, twice the
    sparse height above the layout height, both heights taken between
    the Y coordinates cut to integers by [int()]) or the encapsulating
    rule (encapsulating label, layout rectangle half-open contained in
    the sparse one) against it. *)
Theorem consolidate_regions_spec {T : Type} `{Number T}
    (sparseRegions layoutRegions : list (box5_of T)) :
  consolidate_regions sparseRegions layoutRegions
  = sparseRegions ++ filter (λ layout, ¬ superseded sparseRegions layout) layoutRegions.
Proof.
  unfold consolidate_regions. rewrite keep_unmarked_empty. f_equal.
  apply keep_unmarked_by_content. intros j x Hj.
  rewrite double_loop_marks. unfold superseded. rewrite Exists_exists. split.
  - intros (p & s & Hp & Hs & Hm). exists p. split; [done|].
    apply marks_for_deletion_spec. congruence.
  - intros (p & Hp & Hr). exists p, x. by rewrite marks_for_deletion_spec.
Qed.

(** With a sparse edge between two pixel rows the rule of the design
    document and the rule of the code part: the title is 10.5 high, so
    twice its height does not exceed the 21 of the text region, but
    between [int(0.5) = 0] and 11 the code measures 11, and deletes the
    text region. *)
Lemma consolidate_regions_cuts_heights :
  consolidate_regions low_title tall_text
  ≠ low_title ++ filter (λ layout, ¬ superseded_as_written low_title layout) tall_text.
Proof. vm_compute. discriminate. Qed.

(** On integer coordinates [int()] changes nothing, and the two
    wordings of rule 1 agree. *)
Lemma superseded_as_written_int (sparseRegions : list box5) (layout : box5) :
  superseded_as_written sparseRegions layout ↔ superseded sparseRegions layout.
Proof.
  unfold superseded_as_written, superseded. rewrite !Exists_exists.
  assert (∀ sparse : box5, structural_rule_as_written sparse layout
                           ↔ structural_rule sparse layout) as Hrule.
  { intros sparse.
    unfold structural_rule_as_written, structural_rule, height, truncated_height.
    ints. rewrite Z.gtb_lt.
    destruct (Z.leb_spec (b5_y2 sparse) (b5_y1 sparse)),
             (Z.leb_spec (b5_y2 layout) (b5_y1 layout));
      split; intros (? & ? & ?); (split; [done|split; [done|lia]]). }
  split; intros (sparse & Hin & Hr); exists sparse; (split; [done|]);
    rewrite Hrule in *; done.
Qed.

(** On integer coordinates the consolidator deletes by the rules as the
    design document words them. *)
Corollary consolidate_regions_spec_int (sparseRegions layoutRegions : list box5) :
  consolidate_regions sparseRegions layoutRegions
  = sparseRegions
    ++ filter (λ layout, ¬ superseded_as_written sparseRegions layout) layoutRegions.
Proof.
  unfold consolidate_regions. rewrite keep_unmarked_empty. f_equal.
  apply keep_unmarked_by_content. intros j x Hj.
  rewrite double_loop_marks, superseded_as_written_int.
  unfold superseded. rewrite Exists_exists. split.
  - intros (p & s & Hp & Hs & Hm). exists p. split; [done|].
    apply marks_for_deletion_spec. congruence.
  - intros (p & Hp & Hr). exists p, x. by rewrite marks_for_deletion_spec.
Qed.

(** ** Degeneracy guard *)

Lemma foldl_min_spec (l : list Z) (v : Z) :
  foldl Z.min v l ∈ v :: l ∧ ∀ w, w ∈ v :: l → foldl Z.min v l ≤ w.
Proof.
  revert v. induction l as [|x l IH]; intros v; simpl.
  - split; [left|]. intros w ->%list_elem_of_singleton. lia.
  - destruct (IH (Z.min v x)) as [Hin Hle]. split.
    + apply elem_of_cons in Hin as [Heq|Hin].
      * rewrite Heq. destruct (Z.min_spec v x) as [[_ ->]|[_ ->]];
          [left|right; left].
      * do 2 right. done.
    + intros w Hw. apply elem_of_cons in Hw as [->|Hw].
      * specialize (Hle (Z.min v x)). etrans; [apply Hle; left|lia].
      * apply elem_of_cons in Hw as [->|Hw].
        -- specialize (Hle (Z.min v x)). etrans; [apply Hle; left|lia].
        -- apply Hle. by right.
Qed.

Lemma foldl_max_spec (l : list Z) (v : Z) :
  foldl Z.max v l ∈ v :: l ∧ ∀ w, w ∈ v :: l → w ≤ foldl Z.max v l.
Proof.
  revert v. induction l as [|x l IH]; intros v; simpl.
  - split; [left|]. intros w ->%list_elem_of_singleton. lia.
  - destruct (IH (Z.max v x)) as [Hin Hle]. split.
    + apply elem_of_cons in Hin as [Heq|Hin].
      * rewrite Heq. destruct (Z.max_spec v x) as [[_ ->]|[_ ->]];
          [right; left|left].
      * do 2 right. done.
    + intros w Hw. apply elem_of_cons in Hw as [->|Hw].
      * specialize (Hle (Z.max v x)). etrans; [|apply Hle; left]. lia.
      * apply elem_of_cons in Hw as [->|Hw].
        -- specialize (Hle (Z.max v x)). etrans; [|apply Hle; left]. lia.
        -- apply Hle. by right.
Qed.

Lemma py_min_is_minimum (l : list Z) : l ≠ [] → is_minimum (py_min l) l.
Proof. destruct l as [|v l]; [done|]. intros _. apply foldl_min_spec. Qed.

Lemma py_max_is_maximum (l : list Z) : l ≠ [] → is_maximum (py_max l) l.
Proof. destruct l as [|v l]; [done|]. intros _. apply foldl_max_spec. Qed.

(** C4. A list of 255 or more regions is replaced by exactly one region,
    labelled "Text" with id 0, whose rectangle is (least x1, least y1,
    greatest x2, greatest y2) over all regions; a list of fewer than 255
    regions is left unchanged. *)
Theorem degeneracy_guard_spec (regions : list box6) :
  ((255 ≤ length regions)%nat →
     ∃ x_min y_min x_max y_max,
       degeneracy_guard regions = [Box6 x_min y_min x_max y_max "Text" 0]
       ∧ is_minimum x_min (b6_x1 <$> regions)
       ∧ is_minimum y_min (b6_y1 <$> regions)
       ∧ is_maximum x_max (b6_x2 <$> regions)
       ∧ is_maximum y_max (b6_y2 <$> regions))
  ∧ ((length regions < 255)%nat → degeneracy_guard regions = regions).
Proof.
  unfold degeneracy_guard. split; intros Hlen.
  - rewrite bool_decide_eq_true_2 by done.
    assert (∀ f : box6 → Z, f <$> regions ≠ []) as Hne.
    { intros f Hnil. apply fmap_nil_inv in Hnil. subst. simpl in Hlen. lia. }
    eexists _, _, _, _. split; [reflexivity|].
    auto using py_min_is_minimum, py_max_is_maximum.
  - rewrite bool_decide_eq_false_2 by lia. done.
Qed.

(** Scenario 3 of the design document: the 300 regions collapse. *)
Lemma degeneracy_guard_spec_witness :
  ∃ x_min y_min x_max y_max,
    degeneracy_guard scenario3 = [Box6 x_min y_min x_max y_max "Text" 0]
    ∧ is_minimum x_min (b6_x1 <$> scenario3)
    ∧ is_minimum y_min (b6_y1 <$> scenario3)
    ∧ is_maximum x_max (b6_x2 <$> scenario3)
    ∧ is_maximum y_max (b6_y2 <$> scenario3).
Proof.
  apply (proj1 (degeneracy_guard_spec scenario3)).
  unfold scenario3. rewrite length_fmap, length_seq. lia.
Defined.

(** Scenario 3 evaluated: the synthetic region spans the extremes. *)
Example degeneracy_guard_scenario3 :
  degeneracy_guard scenario3 = [Box6 0 0 309 603 "Text" 0].
Proof. by vm_compute. Qed.

(** ** Order reconciler *)

(** The dictionary maps a rectangle to the last region that has it. *)
Lemma coord_to_box_map_lookup (regions : list box6) (rectangle : coords) :
  coord_to_box_map regions !! rectangle = matching_region regions rectangle.
Proof.
  unfold coord_to_box_map, matching_region.
  induction regions as [|r l IH] using rev_ind; [done|].
  rewrite foldl_snoc, filter_app, filter_cons, filter_nil, lookup_insert.
  repeat case_decide; try congruence.
  - by rewrite last_snoc.
  - by rewrite app_nil_r.
Qed.

(** The loop over the prediction appends one stamped region per entry
    that has a match and nothing for the others. *)
Lemma matched_regions_omap (regions : list box6) (order_prediction : list order_box) :
  matched_regions regions order_prediction
  = omap (stamped_match regions) order_prediction.
Proof.
  unfold matched_regions.
  induction order_prediction as [|e l IH] using rev_ind; [done|].
  rewrite foldl_snoc, omap_app, IH, coord_to_box_map_lookup. simpl.
  change (stamped_match regions e)
    with (matching_region regions (ob_bbox e)
          ≫= λ region, Some (with_position region (ob_position e))).
  destruct (matching_region regions (ob_bbox e)); simpl; [done|].
  by rewrite app_nil_r.
Qed.

#[global] Instance position_le_transitive : Transitive position_le.
Proof. intros a b c. unfold position_le. lia. Qed.

Lemma insert_by_position_perm (box : box7) (sorted : list box7) :
  insert_by_position box sorted ≡ₚ box :: sorted.
Proof.
  induction sorted as [|b l IH]; simpl; [done|].
  case_match; [done|]. rewrite IH. apply Permutation_swap.
Qed.

Lemma sort_by_position_perm (boxes : list box7) : sort_by_position boxes ≡ₚ boxes.
Proof.
  induction boxes as [|b l IH]; simpl; [done|].
  by rewrite insert_by_position_perm, IH.
Qed.

Lemma insert_by_position_sorted (box : box7) (sorted : list box7) :
  Sorted position_le sorted → Sorted position_le (insert_by_position box sorted).
Proof.
  induction 1 as [|b l Hl IH Hb]; simpl.
  - by repeat constructor.
  - destruct (position box <=? position b) eqn:Hle.
    + apply Z.leb_le in Hle. by repeat constructor.
    + apply Z.leb_gt in Hle. constructor; [done|].
      destruct Hb as [|c l' Hbc]; simpl.
      * constructor. unfold position_le. lia.
      * case_match; constructor; unfold position_le in *; lia.
Qed.

Lemma sort_by_position_sorted (boxes : list box7) :
  Sorted position_le (sort_by_position boxes).
Proof.
  induction boxes as [|b l IH]; simpl; [constructor|].
  by apply insert_by_position_sorted.
Qed.

(** The sort is stable: boxes with the same position keep their order. *)
Lemma insert_by_position_stable (p : Z) (box : box7) (sorted : list box7) :
  Sorted position_le sorted →
  filter (λ b, position b = p) (insert_by_position box sorted)
  = filter (λ b, position b = p) (box :: sorted).
Proof.
  intros Hs. apply Sorted_StronglySorted in Hs; [|apply _].
  induction Hs as [|b l Hl IH Hb]; simpl; [done|].
  destruct (position box <=? position b) eqn:Hle; [done|].
  apply Z.leb_gt in Hle.
  rewrite (filter_cons _ b), IH, !filter_cons.
  repeat case_decide; try done; lia.
Qed.

Lemma sort_by_position_stable (p : Z) (boxes : list box7) :
  filter (λ b, position b = p) (sort_by_position boxes)
  = filter (λ b, position b = p) boxes.
Proof.
  induction boxes as [|b l IH]; simpl; [done|].
  rewrite insert_by_position_stable by apply sort_by_position_sorted.
  by rewrite !(filter_cons _ b), IH.
Qed.

Lemma matching_region_hit_or_miss (regions : list box6) (rectangle : coords) :
  match matching_region regions rectangle with
  | Some region => region ∈ regions ∧ coords6 region = rectangle
  | None => ∀ region, region ∈ regions → coords6 region ≠ rectangle
  end.
Proof.
  unfold matching_region.
  destruct (last (filter _ regions)) as [region|] eqn:Hlast.
  - apply last_Some_elem_of, list_elem_of_filter in Hlast. tauto.
  - apply last_None in Hlast. intros region Hin Heq.
    by apply (filter_nil_not_elem_of _ _ region Hlast).
Qed.

(** C5 (as the code has it). The ordered output is sorted by order
    position, ascending, and consists of exactly one stamped region for
    each prediction entry whose rectangle equals the rectangle of some
    region: the last region of the list with that rectangle, carrying
    the entry's position.  An entry without an exact match contributes
    nothing, and a region that no entry designates does not appear. *)
Theorem reconcile_order_spec (regions : list box6) (order_prediction : list order_box) :
  Sorted position_le (reconcile_order regions order_prediction)
  ∧ reconcile_order regions order_prediction
    ≡ₚ omap (stamped_match regions) order_prediction
  ∧ (∀ box, box ∈ reconcile_order regions order_prediction ↔
       ∃ entry region,
         entry ∈ order_prediction
         ∧ matching_region regions (ob_bbox entry) = Some region
         ∧ box = with_position region (ob_position entry))
  ∧ (∀ rectangle,
       match matching_region regions rectangle with
       | Some region => region ∈ regions ∧ coords6 region = rectangle
       | None => ∀ region, region ∈ regions → coords6 region ≠ rectangle
       end).
Proof.
  assert (reconcile_order regions order_prediction
          ≡ₚ omap (stamped_match regions) order_prediction) as Hperm.
  { unfold reconcile_order. by rewrite sort_by_position_perm, matched_regions_omap. }
  split; [apply sort_by_position_sorted|]. split; [done|]. split.
  - intros box. rewrite Hperm, list_elem_of_omap. unfold stamped_match. split.
    + intros (entry & Hin & Hm).
      destruct (matching_region regions (ob_bbox entry)) as [region|] eqn:Hr;
        [|done]. simpl in Hm. injection Hm as <-. eauto.
    + intros (entry & region & Hin & Hr & ->). exists entry. by rewrite Hr.
  - intros rectangle. apply matching_region_hit_or_miss.
Qed.

(** The twin regions: the entry designates the later twin. *)
Lemma reconcile_order_spec_witness :
  with_position (Box6 0 0 10 10 "Formula" 1) 0
    ∈ reconcile_order twin_regions twin_prediction.
Proof.
  apply (proj1 (proj2 (proj2 (reconcile_order_spec twin_regions twin_prediction)))).
  exists (OrderBox (0, 0, 10, 10) 0), (Box6 0 0 10 10 "Formula" 1).
  split; [by left|]. split; reflexivity.
Defined.

Lemma filter_none {A : Type} (P : A → Prop) `{!∀ x, Decision (P x)} (l : list A) :
  Forall (λ x, ¬ P x) l → filter P l = [].
Proof. induction 1; [done|]. by rewrite filter_cons_False. Qed.

(** When the region rectangles are pairwise distinct, the region a
    rectangle designates is any region that has it. *)
Lemma matching_region_unique (regions : list box6) (region : box6) :
  NoDup (coords6 <$> regions) →
  region ∈ regions →
  matching_region regions (coords6 region) = Some region.
Proof.
  unfold matching_region. induction regions as [|r l IH]; intros Hnd Hin.
  - by apply elem_of_nil in Hin.
  - rewrite fmap_cons in Hnd. apply NoDup_cons in Hnd as [Hr Hnd].
    rewrite filter_cons. apply elem_of_cons in Hin as [->|Hin].
    + rewrite decide_True by done.
      replace (filter _ l) with (@nil box6); [done|].
      symmetry. apply filter_none, Forall_forall. intros r' Hr' Heq. apply Hr.
      rewrite <- Heq. by apply list_elem_of_fmap_2.
    + rewrite decide_False.
      * by apply IH.
      * intros Heq. apply Hr. rewrite Heq. by apply list_elem_of_fmap_2.
Qed.

(** Two regions with one rectangle: the entry that matches both yields
    only the later one, so the earlier (entry, region) pair, although
    its rectangles are equal, is not in the output. *)
Lemma reconcile_order_shadows_equal_rectangles :
  ∃ entry region,
    entry ∈ twin_prediction ∧ region ∈ twin_regions
    ∧ coords6 region = ob_bbox entry
    ∧ with_position region (ob_position entry)
        ∉ reconcile_order twin_regions twin_prediction.
Proof.
  exists (OrderBox (0, 0, 10, 10) 0), (Box6 0 0 10 10 "Picture" 0).
  split; [by left|]. split; [by left|]. split; [done|].
  apply (bool_decide_unpack _). by vm_compute.
Qed.

(** ** The fixed-point loop of a pass *)

Lemma intersection_found_true (i : nat) (box1 : box7) (boxes : list box7) :
  intersection_found i box1 boxes = true ↔
  ∃ j box2, i ≠ j ∧ boxes !! j = Some box2
            ∧ rectOverlap (coords7 box1) (coords7 box2) = true.
Proof.
  unfold intersection_found, enumerate.
  rewrite <- Is_true_true, existb_True, Exists_exists. split.
  - intros ([j box2] & Hin & Hb). apply elem_of_lookup_imap in Hin as (j' & b & Heq & Hl).
    inversion Heq; subst. apply andb_True in Hb as [Hne Hov].
    apply bool_decide_unpack in Hne. apply Is_true_true in Hov. eauto.
  - intros (j & box2 & Hne & Hl & Hov). exists (j, box2). split.
    + by apply (elem_of_lookup_imap_2 pair).
    + apply andb_True. split; [by apply bool_decide_pack|by apply Is_true_true].
Qed.

Lemma intersection_found_false (i : nat) (box1 : box7) (boxes : list box7) :
  intersection_found i box1 boxes = false ↔
  ∀ j box2, i ≠ j → boxes !! j = Some box2 →
            rectOverlap (coords7 box1) (coords7 box2) = false.
Proof.
  rewrite <- not_true_iff_false, intersection_found_true. split.
  - intros Hn j box2 Hne Hl. apply not_true_iff_false. intros Hov. apply Hn. eauto.
  - intros Hall (j & box2 & Hne & Hl & Hov). specialize (Hall j box2 Hne Hl). congruence.
Qed.

Section pass.
Context (grow : box7 → option box7).

Lemma sweep_step_cases (i : nat) (boxes : list box7) (changes_made : bool) :
  sweep_step grow i (boxes, changes_made) = (boxes, changes_made)
  ∨ ∃ boxes', guarded_write grow boxes boxes'
              ∧ (∃ new_box, boxes' = <[i := new_box]> boxes)
              ∧ sweep_step grow i (boxes, changes_made) = (boxes', true).
Proof.
  unfold sweep_step. destruct (boxes !! i) as [box1|] eqn:Hi; [|by left].
  destruct (is_pictorial (label box1)) eqn:Hp; [by left|].
  destruct (intersection_found i box1 boxes) eqn:Hx; [by left|].
  destruct (grow box1) as [new_box|] eqn:Hg; [|by left].
  right. exists (<[i := new_box]> boxes). split; [|eauto].
  exists i, box1, new_box. eauto.
Qed.

(** A property kept by every guarded write is kept by a sweep and by
    the whole loop. *)
Lemma sweep_steps_invariant (Inv : list box7 → Prop) :
  (∀ boxes boxes', guarded_write grow boxes boxes' → Inv boxes → Inv boxes') →
  ∀ indices state, Inv state.1 →
    Inv (foldl (λ state i, sweep_step grow i state) state indices).1.
Proof.
  intros Hstep indices. induction indices as [|i l IH]; intros [boxes c] HI; [done|].
  cbn [foldl]. apply IH.
  destruct (sweep_step_cases i boxes c) as [->|(boxes' & Hw & _ & ->)]; eauto.
Qed.

Lemma sweep_invariant (Inv : list box7 → Prop) :
  (∀ boxes boxes', guarded_write grow boxes boxes' → Inv boxes → Inv boxes') →
  ∀ boxes, Inv boxes → Inv (sweep grow boxes).1.
Proof.
  intros Hstep boxes HI.
  apply (sweep_steps_invariant Inv Hstep (seq 0 (length boxes)) (boxes, false) HI).
Qed.

Lemma sweep_until_stable_invariant (Inv : list box7 → Prop) :
  (∀ boxes boxes', guarded_write grow boxes boxes' → Inv boxes → Inv boxes') →
  ∀ fuel boxes result, Inv boxes →
    sweep_until_stable grow fuel boxes = Some result → Inv result.
Proof.
  intros Hstep fuel. induction fuel as [|fuel IH]; intros boxes result HI; [done|].
  simpl. pose proof (sweep_invariant Inv Hstep boxes HI) as HI'.
  destruct (sweep grow boxes) as [boxes' [|]]; simpl in HI'.
  - by apply IH.
  - by intros [= <-].
Qed.

(** The flag [changes_made], once set, stays set. *)
Lemma sweep_steps_flag_sticky (indices : list nat) (boxes : list box7) :
  (foldl (λ state i, sweep_step grow i state) (boxes, true) indices).2 = true.
Proof.
  revert boxes. induction indices as [|i l IH]; intros boxes; [done|].
  cbn [foldl]. destruct (sweep_step_cases i boxes true) as [->|(boxes' & _ & _ & ->)]; apply IH.
Qed.

(** A run of steps that ends with the flag unset has written nothing. *)
Lemma sweep_steps_unchanged (indices : list nat) (boxes boxes' : list box7) :
  foldl (λ state i, sweep_step grow i state) (boxes, false) indices = (boxes', false) →
  boxes' = boxes
  ∧ ∀ i, i ∈ indices → sweep_step grow i (boxes, false) = (boxes, false).
Proof.
  induction indices as [|i l IH]; cbn [foldl].
  - intros [= <-]. split; [done|]. intros i Hi. by apply elem_of_nil in Hi.
  - destruct (sweep_step_cases i boxes false) as [Hs|(bs & _ & _ & Hs)]; rewrite Hs.
    + intros [-> Hall]%IH. split; [done|].
      intros j [->|Hj]%elem_of_cons; auto.
    + intros Hf. pose proof (sweep_steps_flag_sticky l bs) as Ht.
      rewrite Hf in Ht. done.
Qed.

Lemma sweep_unchanged (boxes boxes' : list box7) :
  sweep grow boxes = (boxes', false) → boxes' = boxes.
Proof. intros H. by apply sweep_steps_unchanged in H as [-> _]. Qed.

Lemma sweep_step_noop (i : nat) (boxes : list box7) (box1 : box7) :
  boxes !! i = Some box1 →
  sweep_step grow i (boxes, false) = (boxes, false) ↔
  is_pictorial (label box1) = true ∨ intersection_found i box1 boxes = true
  ∨ grow box1 = None.
Proof.
  intros Hi. unfold sweep_step. rewrite Hi.
  destruct (is_pictorial (label box1)); [tauto|].
  destruct (intersection_found i box1 boxes); [tauto|].
  destruct (grow box1); [|tauto].
  split; [intros [= _ ?]; done|intros [?|[?|?]]; done].
Qed.

(** A sweep writes nothing exactly on a stable list. *)
Lemma sweep_stable (boxes : list box7) :
  sweep grow boxes = (boxes, false) ↔ stable grow boxes.
Proof.
  unfold sweep, stable. split.
  - intros [_ Hall]%sweep_steps_unchanged i box1 Hi.
    apply (sweep_step_noop i boxes box1 Hi), Hall.
    apply elem_of_seq. split; [lia|]. simpl. by eapply lookup_lt_Some.
  - intros Hst.
    assert (∀ indices,
      foldl (λ state i, sweep_step grow i state) (boxes, false) indices
      = (boxes, false)) as Hfold; [|apply Hfold].
    intros indices. induction indices as [|i l IH]; [done|]. cbn [foldl].
    replace (sweep_step grow i (boxes, false)) with (boxes, false); [done|].
    symmetry. destruct (boxes !! i) as [box1|] eqn:Hi.
    + apply (sweep_step_noop i boxes box1 Hi). eauto.
    + unfold sweep_step. by rewrite Hi.
Qed.

(** The loop returns a stable list. *)
Lemma sweep_until_stable_stable (fuel : nat) (boxes result : list box7) :
  sweep_until_stable grow fuel boxes = Some result → stable grow result.
Proof.
  revert boxes. induction fuel as [|fuel IH]; intros boxes; [done|]. simpl.
  destruct (sweep grow boxes) as [boxes' [|]] eqn:Hs.
  - apply IH.
  - intros [= <-]. apply sweep_stable.
    pose proof (sweep_unchanged _ _ Hs) as ->. done.
Qed.

(** On a stable list the loop stops after its first sweep. *)
Lemma sweep_until_stable_on_stable (fuel : nat) (boxes : list box7) :
  stable grow boxes → sweep_until_stable grow (S fuel) boxes = Some boxes.
Proof. intros Hst%sweep_stable. simpl. by rewrite Hst. Qed.

(** More sweeps allowed never changes a result. *)
Lemma sweep_until_stable_more_fuel (fuel fuel' : nat) (boxes result : list box7) :
  (fuel ≤ fuel')%nat →
  sweep_until_stable grow fuel boxes = Some result →
  sweep_until_stable grow fuel' boxes = Some result.
Proof.
  revert fuel' boxes. induction fuel as [|fuel IH]; intros fuel' boxes Hle; [done|].
  destruct fuel' as [|fuel']; [lia|]. simpl.
  destruct (sweep grow boxes) as [boxes' [|]]; [|done].
  apply IH. lia.
Qed.

Section termination.
Context (room : box7 → nat).
Hypothesis grow_consumes_room : ∀ box new_box,
  grow box = Some new_box → (room new_box < room box)%nat.

Lemma total_room_insert (boxes : list box7) (i : nat) (box new_box : box7) :
  boxes !! i = Some box →
  (total_room room (<[i := new_box]> boxes) + room box
   = total_room room boxes + room new_box)%nat.
Proof.
  intros Hi. unfold total_room.
  rewrite insert_take_drop by (by eapply lookup_lt_Some).
  rewrite <- (take_drop_middle boxes i box Hi) at 3.
  rewrite !sum_list_with_app. simpl. lia.
Qed.

Lemma guarded_write_consumes_room (boxes boxes' : list box7) :
  guarded_write grow boxes boxes' →
  (total_room room boxes' < total_room room boxes)%nat.
Proof.
  intros (i & box1 & new_box & Hi & _ & _ & Hg & ->).
  pose proof (total_room_insert boxes i box1 new_box Hi).
  pose proof (grow_consumes_room _ _ Hg). lia.
Qed.

Lemma sweep_steps_room (indices : list nat) (boxes0 : list box7)
    (state : list box7 * bool) :
  (total_room room state.1 + (if state.2 then 1 else 0)
   ≤ total_room room boxes0)%nat →
  let state' := foldl (λ state i, sweep_step grow i state) state indices in
  (total_room room state'.1 + (if state'.2 then 1 else 0)
   ≤ total_room room boxes0)%nat.
Proof.
  revert state. induction indices as [|i l IH]; intros [boxes c] Hle; [done|].
  cbn [foldl]. apply IH.
  destruct (sweep_step_cases i boxes c) as [->|(boxes' & Hw & _ & ->)]; [done|].
  apply guarded_write_consumes_room in Hw. simpl in *. destruct c; lia.
Qed.

Lemma sweep_consumes_room (boxes boxes' : list box7) :
  sweep grow boxes = (boxes', true) →
  (total_room room boxes' < total_room room boxes)%nat.
Proof.
  intros Hs. pose proof (sweep_steps_room (seq 0 (length boxes)) boxes (boxes, false)) as H.
  simpl in H. unfold sweep in Hs. rewrite Hs in H. simpl in H. lia.
Qed.

Lemma sweep_until_stable_enough (fuel : nat) (boxes : list box7) :
  (total_room room boxes < fuel)%nat →
  is_Some (sweep_until_stable grow fuel boxes).
Proof.
  revert boxes. induction fuel as [|fuel IH]; intros boxes Hlt; [lia|]. simpl.
  destruct (sweep grow boxes) as [boxes' [|]] eqn:Hs; [|done].
  apply IH. apply sweep_consumes_room in Hs. lia.
Qed.

(** The loop is total: the bound built into [fixed_point] is never
    reached, and any larger bound gives the same list. *)
Lemma sweep_until_stable_total (boxes : list box7) (fuel : nat) :
  (total_room room boxes < fuel)%nat →
  sweep_until_stable grow fuel boxes = Some (fixed_point grow room boxes).
Proof.
  intros Hlt. unfold fixed_point.
  destruct (sweep_until_stable_enough (S (total_room room boxes)) boxes)
    as [result Hr]; [lia|].
  rewrite Hr. simpl. eapply sweep_until_stable_more_fuel; [|done]. lia.
Qed.

Lemma pass_terminates_intro : pass_terminates grow room.
Proof.
  split; [apply sweep_consumes_room|]. split; [apply sweep_unchanged|].
  intros boxes. exists (fixed_point grow room boxes).
  apply sweep_until_stable_total.
Qed.

Lemma fixed_point_stable (boxes : list box7) : stable grow (fixed_point grow room boxes).
Proof.
  eapply sweep_until_stable_stable.
  apply (sweep_until_stable_total boxes (S (total_room room boxes))). lia.
Qed.

Lemma fixed_point_on_stable (boxes : list box7) :
  stable grow boxes → fixed_point grow room boxes = boxes.
Proof.
  intros Hst. unfold fixed_point. by rewrite sweep_until_stable_on_stable.
Qed.

Lemma fixed_point_invariant (Inv : list box7 → Prop) :
  (∀ boxes boxes', guarded_write grow boxes boxes' → Inv boxes → Inv boxes') →
  ∀ boxes, Inv boxes → Inv (fixed_point grow room boxes).
Proof.
  intros Hstep boxes HI.
  eapply (sweep_until_stable_invariant Inv Hstep); [done|].
  apply (sweep_until_stable_total boxes (S (total_room room boxes))). lia.
Qed.

(** Each box of the result is related to the input box at its index by
    any preorder that every write respects. *)
Lemma fixed_point_related (R : relation box7) `{!Reflexive R, !Transitive R} :
  (∀ box new_box, is_pictorial (label box) = false →
     grow box = Some new_box → R box new_box) →
  ∀ boxes, Forall2 R boxes (fixed_point grow room boxes).
Proof.
  intros Hgrow boxes.
  apply (fixed_point_invariant (Forall2 R boxes)).
  2:{ apply Forall_Forall2_diag, Forall_true. intros box. reflexivity. }
  intros bs bs' (i & box1 & new_box & Hi & Hp & _ & Hg & ->) HR.
  destruct (Forall2_lookup_r _ _ _ _ _ HR Hi) as (box0 & Hi0 & HR0).
  rewrite <- (list_insert_id boxes i box0 Hi0).
  apply Forall2_insert; [done|]. etrans; eauto.
Qed.

(** A relation between the boxes at two given indices survives the loop
    when a write to either box, made while the two do not overlap,
    keeps it. *)
Lemma fixed_point_pairwise (Q : box7 → box7 → Prop) :
  (∀ a a' b, grow a = Some a' →
     rectOverlap (coords7 a) (coords7 b) = false → Q a b → Q a' b) →
  (∀ a b b', grow b = Some b' →
     rectOverlap (coords7 b) (coords7 a) = false → Q a b → Q a b') →
  ∀ boxes i j a b a' b', i ≠ j →
    boxes !! i = Some a → boxes !! j = Some b → Q a b →
    fixed_point grow room boxes !! i = Some a' →
    fixed_point grow room boxes !! j = Some b' →
    Q a' b'.
Proof.
  intros Hl Hr boxes i j a b a' b' Hne Ha Hb HQ Ha' Hb'.
  assert (∃ a b, fixed_point grow room boxes !! i = Some a
                 ∧ fixed_point grow room boxes !! j = Some b ∧ Q a b)
    as (a1 & b1 & Ha1 & Hb1 & HQ1); [|congruence].
  apply (fixed_point_invariant
           (λ bs, ∃ a b, bs !! i = Some a ∧ bs !! j = Some b ∧ Q a b)); [|eauto].
  clear a b a' b' Ha Hb HQ Ha' Hb'.
  intros bs bs' (k & box1 & new_box & Hk & _ & Hx & Hg & ->).
  intros (a & b & Ha & Hb & HQ).
  pose proof (proj1 (intersection_found_false k box1 bs) Hx) as Hfree.
  destruct (decide (k = i)) as [->|Hki]; [|destruct (decide (k = j)) as [->|Hkj]].
  - exists new_box, b. rewrite list_lookup_insert_eq by (by eapply lookup_lt_Some).
    rewrite list_lookup_insert_ne by done. split; [done|]. split; [done|].
    assert (box1 = a) as -> by congruence. eauto.
  - exists a, new_box. rewrite list_lookup_insert_eq by (by eapply lookup_lt_Some).
    rewrite list_lookup_insert_ne by done. split; [done|]. split; [done|].
    assert (box1 = b) as -> by congruence. eauto.
  - exists a, b. rewrite !list_lookup_insert_ne by done. done.
Qed.

End termination.
End pass.

(** ** The two growth rules *)

Lemma grow_vertical_Some (y_max : Z) (box new_box : box7) :
  grow_vertical y_max box = Some new_box →
  new_box = Box7 (x_l box) (if y_b box >? 0 then y_b box - 1 else y_b box)
                 (x_r box) (if y_t box <? y_max then y_t box + 1 else y_t box)
                 (label box) (box_id box) (position box)
  ∧ (y_t box < y_max ∨ 0 < y_b box).
Proof.
  unfold grow_vertical. ints.
  destruct (y_t box <? y_max) eqn:Ht, (y_b box >? 0) eqn:Hb;
    repeat case_bool_decide; simpl; try (intros [= <-]); try done;
    try apply Z.ltb_lt in Ht; try apply Z.gtb_lt in Hb;
    (split; [done|lia]) || lia.
Qed.

Lemma grow_vertical_None (y_max : Z) (box : box7) :
  grow_vertical y_max box = None ↔ y_max ≤ y_t box ∧ y_b box ≤ 0.
Proof.
  unfold grow_vertical. ints.
  destruct (Z.ltb_spec (y_t box) y_max), (Z.gtb_spec (y_b box) 0);
    repeat case_bool_decide; simpl; split; try done; try lia;
    intros [??]; lia.
Qed.

Lemma grow_horizontal_Some (x_max : Z) (box new_box : box7) :
  grow_horizontal x_max box = Some new_box →
  new_box = Box7 (if x_l box >? 0 then x_l box - 1 else x_l box) (y_b box)
                 (if x_r box <? x_max then x_r box + 1 else x_r box) (y_t box)
                 (label box) (box_id box) (position box)
  ∧ (x_r box < x_max ∨ 0 < x_l box).
Proof.
  unfold grow_horizontal. ints.
  destruct (x_r box <? x_max) eqn:Ht, (x_l box >? 0) eqn:Hb;
    repeat case_bool_decide; simpl; try (intros [= <-]); try done;
    try apply Z.ltb_lt in Ht; try apply Z.gtb_lt in Hb;
    (split; [done|lia]) || lia.
Qed.

Lemma grow_horizontal_None (x_max : Z) (box : box7) :
  grow_horizontal x_max box = None ↔ x_max ≤ x_r box ∧ x_l box ≤ 0.
Proof.
  unfold grow_horizontal. ints.
  destruct (Z.ltb_spec (x_r box) x_max), (Z.gtb_spec (x_l box) 0);
    repeat case_bool_decide; simpl; split; try done; try lia;
    intros [??]; lia.
Qed.

(** Every write moves an edge one pixel towards its page bound, so it
    consumes room. *)
Lemma grow_vertical_consumes_room (y_max : Z) (box new_box : box7) :
  grow_vertical y_max box = Some new_box →
  (room_vertical y_max new_box < room_vertical y_max box)%nat.
Proof.
  intros [-> Hmove]%grow_vertical_Some. unfold room_vertical. ints. simpl.
  destruct (Z.ltb_spec (y_t box) y_max), (Z.gtb_spec (y_b box) 0); lia.
Qed.

Lemma grow_horizontal_consumes_room (x_max : Z) (box new_box : box7) :
  grow_horizontal x_max box = Some new_box →
  (room_horizontal x_max new_box < room_horizontal x_max box)%nat.
Proof.
  intros [-> Hmove]%grow_horizontal_Some. unfold room_horizontal. ints. simpl.
  destruct (Z.ltb_spec (x_r box) x_max), (Z.gtb_spec (x_l box) 0); lia.
Qed.

#[global] Instance grown_vertically_refl y_max : Reflexive (grown_vertically y_max).
Proof. intros b. unfold grown_vertically. repeat split; done || lia. Qed.
#[global] Instance grown_vertically_trans y_max : Transitive (grown_vertically y_max).
Proof.
  intros a b c Hab Hbc. unfold grown_vertically in *.
  destruct Hab as (Hl & ? & ? & ? & ? & ? & ? & ? & ? & Hp).
  destruct Hbc as (? & ? & ? & ? & ? & ? & ? & ? & ? & Hp').
  repeat split; try congruence; try lia.
  intros Ha. rewrite Hp' by (by rewrite Hp). auto.
Qed.
#[global] Instance grown_horizontally_refl x_max : Reflexive (grown_horizontally x_max).
Proof. intros b. unfold grown_horizontally. repeat split; done || lia. Qed.
#[global] Instance grown_horizontally_trans x_max : Transitive (grown_horizontally x_max).
Proof.
  intros a b c Hab Hbc. unfold grown_horizontally in *.
  destruct Hab as (Hl & ? & ? & ? & ? & ? & ? & ? & ? & Hp).
  destruct Hbc as (? & ? & ? & ? & ? & ? & ? & ? & ? & Hp').
  repeat split; try congruence; try lia.
  intros Ha. rewrite Hp' by (by rewrite Hp). auto.
Qed.

Lemma grow_vertical_grown (y_max : Z) (box new_box : box7) :
  is_pictorial (label box) = false →
  grow_vertical y_max box = Some new_box → grown_vertically y_max box new_box.
Proof.
  intros Hp [-> _]%grow_vertical_Some. unfold grown_vertically. simpl.
  destruct (Z.ltb_spec (y_t box) y_max), (Z.gtb_spec (y_b box) 0);
    repeat split; try done; try lia; congruence.
Qed.

Lemma grow_horizontal_grown (x_max : Z) (box new_box : box7) :
  is_pictorial (label box) = false →
  grow_horizontal x_max box = Some new_box → grown_horizontally x_max box new_box.
Proof.
  intros Hp [-> _]%grow_horizontal_Some. unfold grown_horizontally. simpl.
  destruct (Z.ltb_spec (x_r box) x_max), (Z.gtb_spec (x_l box) 0);
    repeat split; try done; try lia; congruence.
Qed.

(** ** The two passes *)

Lemma vertical_pass_grown (y_max : Z) (boxes : list box7) :
  Forall2 (grown_vertically y_max) boxes (vertical_pass y_max boxes).
Proof.
  apply fixed_point_related; try apply _.
  - apply grow_vertical_consumes_room.
  - apply grow_vertical_grown.
Qed.

Lemma horizontal_pass_grown (x_max : Z) (boxes : list box7) :
  Forall2 (grown_horizontally x_max) boxes (horizontal_pass x_max boxes).
Proof.
  apply fixed_point_related; try apply _.
  - apply grow_horizontal_consumes_room.
  - apply grow_horizontal_grown.
Qed.

Lemma vertical_pass_stable (y_max : Z) (boxes : list box7) :
  stable (grow_vertical y_max) (vertical_pass y_max boxes).
Proof. apply fixed_point_stable, grow_vertical_consumes_room. Qed.

Lemma horizontal_pass_stable (x_max : Z) (boxes : list box7) :
  stable (grow_horizontal x_max) (horizontal_pass x_max boxes).
Proof. apply fixed_point_stable, grow_horizontal_consumes_room. Qed.

(** C7. Both fixed-point loops of the expander terminate.  In either
    pass a sweep that reports a change has moved at least one edge
    towards its page bound (the room left, a natural number, has
    strictly decreased), a sweep that reports no change has left every
    box as it was and the loop exits, and every run allowed more sweeps
    than there is room returns the same list.  Every write moves edges
    by one pixel outwards and never past the page bound.  Hence
    [adjust_bounding_boxes_final] is total: limited to any large enough
    number of sweeps it returns, and always the same result. *)
Theorem expander_loops_terminate (x_max y_max : Z) :
  pass_terminates (grow_vertical y_max) (room_vertical y_max)
  ∧ pass_terminates (grow_horizontal x_max) (room_horizontal x_max)
  ∧ (∀ box new_box, grow_vertical y_max box = Some new_box →
       one_pixel_outwards y_max (y_b box) (y_t box) (y_b new_box) (y_t new_box))
  ∧ (∀ box new_box, grow_horizontal x_max box = Some new_box →
       one_pixel_outwards x_max (x_l box) (x_r box) (x_l new_box) (x_r new_box))
  ∧ ∀ boxes x_min y_min, ∃ bound, ∀ fuel, (bound ≤ fuel)%nat →
      adjust_bounding_boxes_final_bounded fuel boxes (x_min, y_min, x_max, y_max)
      = Some (adjust_bounding_boxes_final boxes (x_min, y_min, x_max, y_max)).
Proof.
  split; [|split; [|split; [|split]]].
  - apply pass_terminates_intro, grow_vertical_consumes_room.
  - apply pass_terminates_intro, grow_horizontal_consumes_room.
  - intros box new_box [-> Hmove]%grow_vertical_Some.
    unfold one_pixel_outwards. simpl.
    destruct (Z.ltb_spec (y_t box) y_max), (Z.gtb_spec (y_b box) 0); lia.
  - intros box new_box [-> Hmove]%grow_horizontal_Some.
    unfold one_pixel_outwards. simpl.
    destruct (Z.ltb_spec (x_r box) x_max), (Z.gtb_spec (x_l box) 0); lia.
  - intros boxes x_min y_min.
    exists (S (total_room (room_vertical y_max) boxes
               `max` total_room (room_horizontal x_max) boxes)).
    intros fuel Hfuel.
    unfold adjust_bounding_boxes_final_bounded, adjust_bounding_boxes_final.
    rewrite (sweep_until_stable_total _ (room_vertical y_max)
               (grow_vertical_consumes_room y_max)) by lia.
    rewrite (sweep_until_stable_total _ (room_horizontal x_max)
               (grow_horizontal_consumes_room x_max)) by lia.
    done.
Qed.

(** Scenario 1: the first horizontal sweep reports a change and leaves
    less room. *)
Lemma expander_loops_terminate_witness :
  (total_room (room_horizontal 40%Z)
     [Box7 0 0 11 10 "Text" 0 0; Box7 19 0 31 10 "Text" 1 1]%Z
   < total_room (room_horizontal 40%Z) scenario1)%nat.
Proof.
  apply (proj1 (proj1 (proj2 (expander_loops_terminate 40 10))) scenario1).
  reflexivity.
Defined.

(** ** The merged result *)

(** Each box of the result takes its X extent from the horizontal copy,
    its Y extent from the vertical copy and everything else from the
    input box at the same index. *)
Lemma adjust_lookup (boxes : list box7) (x_min y_min x_max y_max : Z)
    (i : nat) (box : box7) :
  boxes !! i = Some box →
  ∃ box_vertical box_horizontal,
    vertical_pass y_max boxes !! i = Some box_vertical
    ∧ horizontal_pass x_max boxes !! i = Some box_horizontal
    ∧ grown_vertically y_max box box_vertical
    ∧ grown_horizontally x_max box box_horizontal
    ∧ adjust_bounding_boxes_final boxes (x_min, y_min, x_max, y_max) !! i
      = Some (Box7 (x_l box_horizontal) (y_b box_vertical)
                   (x_r box_horizontal) (y_t box_vertical)
                   (label box) (box_id box) (position box)).
Proof.
  intros Hi.
  destruct (Forall2_lookup_l _ _ _ _ _ (vertical_pass_grown y_max boxes) Hi)
    as (v & Hv & Hgv).
  destruct (Forall2_lookup_l _ _ _ _ _ (horizontal_pass_grown x_max boxes) Hi)
    as (h & Hh & Hgh).
  exists v, h. do 4 (split; [done|]).
  unfold adjust_bounding_boxes_final. rewrite lookup_zip_with, Hv, Hh. simpl.
  f_equal. unfold merge_axes.
  destruct Hgv as (Hl & Hid & Hpos & _ & _ & _ & _ & _ & _ & Hpv).
  destruct Hgh as (_ & _ & _ & _ & _ & _ & _ & _ & _ & Hph).
  rewrite Hl. destruct (is_pictorial (label box)) eqn:Hp.
  - rewrite Hpv, Hph by done. by destruct box.
  - by rewrite Hid, Hpos.
Qed.

Lemma adjust_length (boxes : list box7) (image_bbox : coords) :
  length (adjust_bounding_boxes_final boxes image_bbox) = length boxes.
Proof.
  destruct image_bbox as [[[x_min y_min] x_max] y_max].
  unfold adjust_bounding_boxes_final. rewrite length_zip_with.
  rewrite <- (Forall2_length _ _ _ (vertical_pass_grown y_max boxes)).
  rewrite <- (Forall2_length _ _ _ (horizontal_pass_grown x_max boxes)). lia.
Qed.

(** C10. The result has the length of the input and, at every index,
    the label, box id and order position of the input box; only the
    four coordinates may differ, and a box labelled Picture or Figure is
    returned as it was. *)
Theorem expander_frame (boxes : list box7) (image_bbox : coords) :
  length (adjust_bounding_boxes_final boxes image_bbox) = length boxes
  ∧ ∀ i box box',
      boxes !! i = Some box →
      adjust_bounding_boxes_final boxes image_bbox !! i = Some box' →
      label box' = label box ∧ box_id box' = box_id box
      ∧ position box' = position box
      ∧ (is_pictorial (label box) = true → box' = box).
Proof.
  split; [apply adjust_length|]. intros i box box' Hi Hi'.
  destruct image_bbox as [[[x_min y_min] x_max] y_max].
  destruct (adjust_lookup boxes x_min y_min x_max y_max i box Hi)
    as (v & h & _ & _ & Hgv & Hgh & Hm).
  rewrite Hm in Hi'. injection Hi' as <-. simpl. do 3 (split; [done|]).
  intros Hp.
  destruct Hgv as (_ & _ & _ & _ & _ & _ & _ & _ & _ & Hpv).
  destruct Hgh as (_ & _ & _ & _ & _ & _ & _ & _ & _ & Hph).
  rewrite Hpv, Hph by done. by destruct box.
Qed.

Lemma expander_frame_witness :
  label (Box7 0 0 20 40 "Text" 7 0) = label (Box7 0 0 10 10 "Text" 7 0)
  ∧ box_id (Box7 0 0 20 40 "Text" 7 0) = box_id (Box7 0 0 10 10 "Text" 7 0)
  ∧ position (Box7 0 0 20 40 "Text" 7 0) = position (Box7 0 0 10 10 "Text" 7 0)
  ∧ (is_pictorial (label (Box7 0 0 10 10 "Text" 7 0)) = true →
     Box7 0 0 20 40 "Text" 7 0 = Box7 0 0 10 10 "Text" 7 0).
Proof.
  apply (proj2 (expander_frame text_and_picture (0, 0, 40, 40)) 0%nat);
    reflexivity.
Defined.

(** The picture of the same page comes back as it was. *)
Example expander_leaves_picture :
  adjust_bounding_boxes_final text_and_picture (0, 0, 40, 40) !! 1%nat
  = text_and_picture !! 1%nat.
Proof. reflexivity. Qed.

(** C2 (as the code has it). On integer coordinates the expander never
    moves an edge past the page bound it grows towards, and it never
    moves an edge inwards: a region whose input rectangle lies within
    the page [[0, 0, width, height]] has its expanded rectangle within
    the page. *)
Theorem expansion_stays_within_page (boxes : list box7) (width height : Z)
    (i : nat) (box box' : box7) :
  boxes !! i = Some box →
  adjust_bounding_boxes_final boxes (0, 0, width, height) !! i = Some box' →
  within_page width height box →
  within_page width height box'.
Proof.
  intros Hi Hi' (? & ? & ? & ?).
  destruct (adjust_lookup boxes 0 0 width height i box Hi)
    as (v & h & _ & _ & Hgv & Hgh & Hm).
  rewrite Hm in Hi'. injection Hi' as <-.
  unfold grown_vertically in Hgv. unfold grown_horizontally in Hgh.
  unfold within_page. simpl. lia.
Qed.

Lemma expansion_stays_within_page_witness :
  within_page 40 10 (Box7 0 0 15 10 "Text" 0 0).
Proof.
  apply (expansion_stays_within_page scenario1 40 10 0
           (Box7 0 0 10 10 "Text" 0 0));
    [reflexivity|reflexivity|unfold within_page; simpl; lia].
Defined.

(** A region that reaches over the right page edge on input still does
    on output: nothing clips it. *)
Lemma expansion_leaves_region_outside_page :
  ¬ Forall (within_page 40 40)
      (adjust_bounding_boxes_final overhanging (0, 0, 40, 40)).
Proof.
  replace (adjust_bounding_boxes_final _ _) with [Box7 0 0 50 40 "Text" 0 0]
    by (by vm_compute).
  intros [(_ & _ & Hx & _) _]%Forall_cons_1. simpl in Hx. lia.
Qed.

(** Between two pixels the guards [y_1t < y_max], [y_1b > 0] and their
    like let an edge that is less than a pixel from its bound take a
    whole step: a region inside the page ends half a pixel outside it
    on every side. *)
Example expansion_steps_over_page_bound :
  adjust_bounding_boxes_final between_pixels (0, 0, 10, 10)%float
  = [Box7 (-0.5) (-0.5) 10.5 10.5 "Text" 0 0]%float.
Proof. reflexivity. Qed.

(** ** Overlap after expansion *)

Lemma rectOverlap_false (a b : box7) :
  rectOverlap (coords7 a) (coords7 b) = false ↔
  ¬ (x_spans_meet a b ∧ y_spans_meet a b).
Proof.
  rewrite <- not_true_iff_false. unfold coords7.
  rewrite rectOverlap_spec. unfold x_spans_meet, y_spans_meet. tauto.
Qed.

Lemma vertical_pass_stacked (y_max : Z) (boxes : list box7) (i j : nat)
    (a b a' b' : box7) :
  i ≠ j → boxes !! i = Some a → boxes !! j = Some b →
  rectOverlap (coords7 a) (coords7 b) = false →
  vertical_pass y_max boxes !! i = Some a' →
  vertical_pass y_max boxes !! j = Some b' →
  stacked a' b'.
Proof.
  intros Hne Ha Hb Hfree Ha' Hb'.
  eapply (fixed_point_pairwise (grow_vertical y_max) (room_vertical y_max)
            (grow_vertical_consumes_room y_max) stacked);
    [| |exact Hne|exact Ha|exact Hb| |exact Ha'|exact Hb'].
  - clear. intros a a' b [-> _]%grow_vertical_Some Hfree%rectOverlap_false _.
    revert Hfree. unfold stacked, x_spans_meet, y_spans_meet. simpl.
    destruct (Z.ltb_spec (y_t a) y_max), (Z.gtb_spec (y_b a) 0); lia.
  - clear. intros a b b' [-> _]%grow_vertical_Some Hfree%rectOverlap_false _.
    revert Hfree. unfold stacked, x_spans_meet, y_spans_meet. simpl.
    destruct (Z.ltb_spec (y_t b) y_max), (Z.gtb_spec (y_b b) 0); lia.
  - apply rectOverlap_false in Hfree. revert Hfree.
    unfold stacked, x_spans_meet, y_spans_meet. lia.
Qed.

Lemma horizontal_pass_side_by_side (x_max : Z) (boxes : list box7) (i j : nat)
    (a b a' b' : box7) :
  i ≠ j → boxes !! i = Some a → boxes !! j = Some b →
  rectOverlap (coords7 a) (coords7 b) = false →
  horizontal_pass x_max boxes !! i = Some a' →
  horizontal_pass x_max boxes !! j = Some b' →
  side_by_side a' b'.
Proof.
  intros Hne Ha Hb Hfree Ha' Hb'.
  eapply (fixed_point_pairwise (grow_horizontal x_max) (room_horizontal x_max)
            (grow_horizontal_consumes_room x_max) side_by_side);
    [| |exact Hne|exact Ha|exact Hb| |exact Ha'|exact Hb'].
  - clear. intros a a' b [-> _]%grow_horizontal_Some Hfree%rectOverlap_false _.
    revert Hfree. unfold side_by_side, x_spans_meet, y_spans_meet. simpl.
    destruct (Z.ltb_spec (x_r a) x_max), (Z.gtb_spec (x_l a) 0); lia.
  - clear. intros a b b' [-> _]%grow_horizontal_Some Hfree%rectOverlap_false _.
    revert Hfree. unfold side_by_side, x_spans_meet, y_spans_meet. simpl.
    destruct (Z.ltb_spec (x_r b) x_max), (Z.gtb_spec (x_l b) 0); lia.
  - apply rectOverlap_false in Hfree. revert Hfree.
    unfold side_by_side, x_spans_meet, y_spans_meet. lia.
Qed.

(** C1 (as the code has it). On integer coordinates, take two distinct
    regions whose input rectangles do not overlap.  If their input X
    spans meet, then after expansion one ends, in Y, where the other
    begins or before; if their input Y spans meet, the same holds in X.  The two may share
    that edge coordinate, which the inclusive test [rectOverlap] counts
    as an overlap.  Nothing is promised for regions that overlap on
    input or whose input spans meet on neither axis. *)
Theorem expansion_keeps_neighbours_apart (boxes : list box7) (image_bbox : coords)
    (i j : nat) (a b a' b' : box7) :
  i ≠ j → boxes !! i = Some a → boxes !! j = Some b →
  rectOverlap (coords7 a) (coords7 b) = false →
  adjust_bounding_boxes_final boxes image_bbox !! i = Some a' →
  adjust_bounding_boxes_final boxes image_bbox !! j = Some b' →
  (x_spans_meet a b → y_t a' ≤ y_b b' ∨ y_t b' ≤ y_b a')
  ∧ (y_spans_meet a b → x_r a' ≤ x_l b' ∨ x_r b' ≤ x_l a').
Proof.
  intros Hne Ha Hb Hfree Ha' Hb'.
  destruct image_bbox as [[[x_min y_min] x_max] y_max].
  destruct (adjust_lookup boxes x_min y_min x_max y_max i a Ha)
    as (va & ha & Hva & Hha & Hgva & Hgha & Hma).
  destruct (adjust_lookup boxes x_min y_min x_max y_max j b Hb)
    as (vb & hb & Hvb & Hhb & Hgvb & Hghb & Hmb).
  rewrite Hma in Ha'. injection Ha' as <-.
  rewrite Hmb in Hb'. injection Hb' as <-. simpl.
  pose proof (vertical_pass_stacked y_max boxes i j a b va vb
                Hne Ha Hb Hfree Hva Hvb) as Hv.
  pose proof (horizontal_pass_side_by_side x_max boxes i j a b ha hb
                Hne Ha Hb Hfree Hha Hhb) as Hh.
  destruct Hgva as (_ & _ & _ & Hxa & Hxa' & _).
  destruct Hgvb as (_ & _ & _ & Hxb & Hxb' & _).
  destruct Hgha as (_ & _ & _ & Hya & Hya' & _).
  destruct Hghb as (_ & _ & _ & Hyb & Hyb' & _).
  unfold stacked, side_by_side, x_spans_meet, y_spans_meet in *.
  split; intros Hmeet; [apply Hv|apply Hh]; clear Hv Hh Hfree.
  - rewrite Hxa, Hxa', Hxb, Hxb'. exact Hmeet.
  - rewrite Hya, Hya', Hyb, Hyb'. exact Hmeet.
Qed.

(** Scenario 1: the two regions end sharing the edge [x = 15]. *)
Lemma expansion_keeps_neighbours_apart_witness :
  x_r (Box7 0 0 15 10 "Text" 0 0) ≤ x_l (Box7 15 0 35 10 "Text" 1 1)
  ∨ x_r (Box7 15 0 35 10 "Text" 1 1) ≤ x_l (Box7 0 0 15 10 "Text" 0 0).
Proof.
  apply (proj2 (expansion_keeps_neighbours_apart scenario1 scenario1_page 0 1
                  (Box7 0 0 10 10 "Text" 0 0) (Box7 20 0 30 10 "Text" 1 1)
                  (Box7 0 0 15 10 "Text" 0 0) (Box7 15 0 35 10 "Text" 1 1)
                  ltac:(lia) eq_refl eq_refl eq_refl eq_refl eq_refl)).
  unfold y_spans_meet. simpl. lia.
Defined.

(** Two text regions placed diagonally: each pass sees no overlap, both
    regions grow to the whole page on both axes, and the two results
    coincide. *)
Lemma expansion_output_overlaps :
  ¬ overlap_free (adjust_bounding_boxes_final diagonal (0, 0, 6, 6)).
Proof.
  intros H.
  specialize (H 0%nat 1%nat (Box7 0 0 6 6 "Text" 0 0) (Box7 0 0 6 6 "Text" 1 1)).
  discriminate H; (lia || reflexivity).
Qed.

(** Scenario 1: growth stops only once the regions share [x = 15], and
    the inclusive test reports that as an overlap. *)
Lemma expansion_output_touches :
  ¬ overlap_free (adjust_bounding_boxes_final scenario1 scenario1_page).
Proof.
  intros H.
  specialize (H 0%nat 1%nat (Box7 0 0 15 10 "Text" 0 0) (Box7 15 0 35 10 "Text" 1 1)).
  discriminate H; (lia || reflexivity).
Qed.

(** Half a pixel apart, the left region sees no overlap, takes a whole
    step and ends half a pixel inside its neighbour. *)
Example expansion_steps_into_neighbour :
  adjust_bounding_boxes_final half_a_pixel_apart (0, 0, 20, 10)%float
  = [Box7 0 0 11 10 "Text" 0 0; Box7 10.5 0 20 10 "Text" 1 1]%float
  ∧ num_lt 10.5%float 11%float = true.
Proof. split; reflexivity. Qed.

(** ** Expanding twice *)

(** Boxes that overlap still overlap after both have grown. *)
Lemma rectOverlap_covers (a b a' b' : box7) :
  well_formed a → well_formed b → covers a' a → covers b' b →
  rectOverlap (coords7 a) (coords7 b) = true →
  rectOverlap (coords7 a') (coords7 b') = true.
Proof.
  unfold well_formed, covers, coords7. rewrite !rectOverlap_spec. lia.
Qed.

Lemma merge_axes_diag (box : box7) : merge_axes box box = box.
Proof. unfold merge_axes. destruct box. simpl. by case_match. Qed.

Lemma zip_with_merge_axes_diag (boxes : list box7) :
  zip_with merge_axes boxes boxes = boxes.
Proof.
  induction boxes as [|b l IH]; [done|]. simpl. by rewrite merge_axes_diag, IH.
Qed.

(** What the result says about each of its boxes, read from the result. *)
Lemma adjust_lookup_inv (boxes : list box7) (x_min y_min x_max y_max : Z)
    (i : nat) (box' : box7) :
  adjust_bounding_boxes_final boxes (x_min, y_min, x_max, y_max) !! i = Some box' →
  ∃ box box_vertical box_horizontal,
    boxes !! i = Some box
    ∧ vertical_pass y_max boxes !! i = Some box_vertical
    ∧ horizontal_pass x_max boxes !! i = Some box_horizontal
    ∧ grown_vertically y_max box box_vertical
    ∧ grown_horizontally x_max box box_horizontal
    ∧ box' = Box7 (x_l box_horizontal) (y_b box_vertical)
                  (x_r box_horizontal) (y_t box_vertical)
                  (label box) (box_id box) (position box).
Proof.
  intros Hi'.
  destruct (lookup_lt_is_Some_2 boxes i) as [box Hi].
  { rewrite <- (adjust_length boxes (x_min, y_min, x_max, y_max)).
    by eapply lookup_lt_Some. }
  destruct (adjust_lookup boxes x_min y_min x_max y_max i box Hi)
    as (v & h & Hv & Hh & Hgv & Hgh & Hm).
  exists box, v, h. do 5 (split; [done|]). congruence.
Qed.

(** On well-formed input the merged result is stable for both growth
    rules: a box that was blocked in its own copy is still blocked, the
    boxes having only grown, and a box that was not blocked had reached
    both page bounds. *)
Lemma adjust_stable_vertical (boxes : list box7) (x_min y_min x_max y_max : Z) :
  Forall well_formed boxes →
  stable (grow_vertical y_max)
         (adjust_bounding_boxes_final boxes (x_min, y_min, x_max, y_max)).
Proof.
  intros Hwf i m Hm.
  apply adjust_lookup_inv in Hm as (b & v & h & Hb & Hv & Hh & Hgv & Hgh & ->).
  destruct (vertical_pass_stable y_max boxes i v Hv) as [Hp|[Hx|Hn]].
  - left. simpl. destruct Hgv as (<- & _). done.
  - right; left. apply intersection_found_true in Hx as (j & v2 & Hne & Hv2 & Hov).
    destruct (Forall2_lookup_r _ _ _ _ _ (vertical_pass_grown y_max boxes) Hv2)
      as (b2 & Hb2 & Hgv2).
    destruct (adjust_lookup boxes x_min y_min x_max y_max j b2 Hb2)
      as (v2' & h2 & Hv2' & Hh2 & _ & Hgh2 & Hm2).
    assert (v2' = v2) as -> by congruence.
    apply intersection_found_true. eexists j, _. split; [done|]. split; [exact Hm2|].
    pose proof (proj1 (Forall_lookup _ _) Hwf i b Hb) as Hwb.
    pose proof (proj1 (Forall_lookup _ _) Hwf j b2 Hb2) as Hwb2.
    apply (rectOverlap_covers v v2); [| | | |done];
      unfold well_formed, covers, grown_vertically, grown_horizontally in *;
      simpl; lia.
  - right; right. apply grow_vertical_None in Hn. apply grow_vertical_None. done.
Qed.

Lemma adjust_stable_horizontal (boxes : list box7) (x_min y_min x_max y_max : Z) :
  Forall well_formed boxes →
  stable (grow_horizontal x_max)
         (adjust_bounding_boxes_final boxes (x_min, y_min, x_max, y_max)).
Proof.
  intros Hwf i m Hm.
  apply adjust_lookup_inv in Hm as (b & v & h & Hb & Hv & Hh & Hgv & Hgh & ->).
  destruct (horizontal_pass_stable x_max boxes i h Hh) as [Hp|[Hx|Hn]].
  - left. simpl. destruct Hgh as (<- & _). done.
  - right; left. apply intersection_found_true in Hx as (j & h2 & Hne & Hh2 & Hov).
    destruct (Forall2_lookup_r _ _ _ _ _ (horizontal_pass_grown x_max boxes) Hh2)
      as (b2 & Hb2 & Hgh2).
    destruct (adjust_lookup boxes x_min y_min x_max y_max j b2 Hb2)
      as (v2 & h2' & Hv2 & Hh2' & Hgv2 & _ & Hm2).
    assert (h2' = h2) as -> by congruence.
    apply intersection_found_true. eexists j, _. split; [done|]. split; [exact Hm2|].
    pose proof (proj1 (Forall_lookup _ _) Hwf i b Hb) as Hwb.
    pose proof (proj1 (Forall_lookup _ _) Hwf j b2 Hb2) as Hwb2.
    apply (rectOverlap_covers h h2); [| | | |done];
      unfold well_formed, covers, grown_vertically, grown_horizontally in *;
      simpl; lia.
  - right; right. apply grow_horizontal_None in Hn. apply grow_horizontal_None. done.
Qed.

(** C6. The expander is idempotent: on every region list of the data
    model, whose rectangles have [x1 ≤ x2] and [y1 ≤ y2], a second run
    returns its input, the output of the first, unchanged. *)
Theorem expansion_idempotent (boxes : list box7) (image_bbox : coords) :
  Forall well_formed boxes →
  adjust_bounding_boxes_final (adjust_bounding_boxes_final boxes image_bbox) image_bbox
  = adjust_bounding_boxes_final boxes image_bbox.
Proof.
  intros Hwf. destruct image_bbox as [[[x_min y_min] x_max] y_max].
  set (once := adjust_bounding_boxes_final boxes (x_min, y_min, x_max, y_max)).
  assert (vertical_pass y_max once = once) as Hv.
  { apply fixed_point_on_stable. by apply adjust_stable_vertical. }
  assert (horizontal_pass x_max once = once) as Hh.
  { apply fixed_point_on_stable. by apply adjust_stable_horizontal. }
  unfold adjust_bounding_boxes_final at 1. rewrite Hv, Hh.
  apply zip_with_merge_axes_diag.
Qed.

(** Scenario 1, run twice. *)
Lemma expansion_idempotent_witness :
  adjust_bounding_boxes_final
    (adjust_bounding_boxes_final scenario1 scenario1_page) scenario1_page
  = adjust_bounding_boxes_final scenario1 scenario1_page.
Proof.
  apply (expansion_idempotent scenario1 scenario1_page).
  unfold scenario1, well_formed. repeat constructor; simpl; lia.
Defined.

(** With fractional coordinates a region can end outside the page or
    inside its neighbour; a second run still changes nothing. *)
Example expansion_twice_on_fractions :
  let once := adjust_bounding_boxes_final between_pixels (0, 0, 10, 10)%float in
  let once' := adjust_bounding_boxes_final half_a_pixel_apart (0, 0, 20, 10)%float in
  adjust_bounding_boxes_final once (0, 0, 10, 10)%float = once
  ∧ adjust_bounding_boxes_final once' (0, 0, 20, 10)%float = once'.
Proof. split; reflexivity. Qed.

(** ** Table decomposer *)

Lemma collect_tables_final_regions (sparse_line_bboxes : list coords)
    (regions : list box7) (acc : table_batch) :
  final_regions (foldl (collect_step sparse_line_bboxes) acc regions)
  = final_regions acc
    ++ (PageRegion <$> filter (λ region, label region ≠ "Table") regions).
Proof.
  revert acc. induction regions as [|r l IH]; intros acc; simpl.
  - by rewrite app_nil_r.
  - rewrite IH, filter_cons. unfold collect_step.
    case_bool_decide; simpl.
    + by rewrite decide_False by tauto.
    + rewrite decide_True by done. by rewrite <- app_assoc.
Qed.

Lemma collect_tables_table_images (sparse_line_bboxes : list coords)
    (regions : list box7) (acc : table_batch) :
  table_images (foldl (collect_step sparse_line_bboxes) acc regions)
  = table_images acc
    ++ (coords7 <$> filter (λ region, label region = "Table") regions).
Proof.
  revert acc. induction regions as [|r l IH]; intros acc; simpl.
  - by rewrite app_nil_r.
  - rewrite IH, filter_cons. unfold collect_step.
    case_bool_decide; simpl.
    + rewrite decide_True by done. by rewrite <- app_assoc.
    + by rewrite decide_False by done.
Qed.

(** C9. When the call of the table-recognition predictor raises, the
    final region list of the page is the non-table regions followed by
    every region labelled "Table" of the expanded ordered list, each
    unchanged; it holds the regions of that list and nothing else, so no
    table-cell region stands in it. *)
Theorem table_failure_restores_tables
    (batch_table_recognition :
       list coords → list (list coords) → option (list (list table_cell)))
    (page_number : nat) (regions : list box7) (sparse_line_bboxes : list coords) :
  batch_table_recognition
    (table_images (collect_tables regions sparse_line_bboxes))
    (table_cells_list (collect_tables regions sparse_line_bboxes)) = None →
  decompose_tables batch_table_recognition page_number regions sparse_line_bboxes
  = (PageRegion <$> filter (λ region, label region ≠ "Table") regions)
    ++ (PageRegion <$> filter (λ region, label region = "Table") regions)
  ∧ decompose_tables batch_table_recognition page_number regions sparse_line_bboxes
    ≡ₚ PageRegion <$> regions.
Proof.
  intros Hraise.
  assert (decompose_tables batch_table_recognition page_number regions
            sparse_line_bboxes
          = (PageRegion <$> filter (λ region, label region ≠ "Table") regions)
            ++ (PageRegion <$> filter (λ region, label region = "Table") regions))
    as Heq.
  { unfold decompose_tables. rewrite Hraise.
    unfold collect_tables.
    rewrite collect_tables_final_regions, collect_tables_table_images. simpl.
    destruct (filter (λ region, label region = "Table") regions); simpl; [|done].
    by rewrite app_nil_r. }
  split; [done|]. rewrite Heq, <- fmap_app. apply fmap_Permutation.
  rewrite Permutation_app_comm. apply filter_app_complement.
Qed.

(** The table page with the raising predictor. *)
Lemma table_failure_restores_tables_witness :
  decompose_tables raising_predictor 0 table_page table_page_lines
  = (PageRegion <$> filter (λ region, label region ≠ "Table") table_page)
    ++ (PageRegion <$> filter (λ region, label region = "Table") table_page)
  ∧ decompose_tables raising_predictor 0 table_page table_page_lines
    ≡ₚ PageRegion <$> table_page.
Proof.
  apply (table_failure_restores_tables raising_predictor 0 table_page
           table_page_lines).
  reflexivity.
Defined.

(** The same page evaluated: the table comes last, whole. *)
Example table_failure_on_table_page :
  decompose_tables raising_predictor 0 table_page table_page_lines
  = [PageRegion (Box7 0 0 40 10 "Text" 0 0);
     PageRegion (Box7 0 30 40 40 "Text" 2 2);
     PageRegion (Box7 0 10 40 30 "Table" 1 1)].
Proof. reflexivity. Qed.

(** Scenario 4 of the design document: three cells returned for a table
    at [(10, 20)] become three page regions, offset by the table origin
    and named after the table's order position. *)
Example table_cells_are_remapped :
  let regions := [Box7 10 20 110 80 "Table" 0 3] in
  let predictor := λ (_ : list coords) (_ : list (list coords)),
    Some [[TableCell (0, 0, 50, 30) 0 0; TableCell (50, 0, 100, 30) 0 1;
           TableCell (0, 30, 100, 60) 1 0]] in
  decompose_tables predictor 2 regions [(12, 22, 40, 40)]
  = [CellRegion 10 20 60 50 "a" "2_3_a_0_0.png" 0 0;
     CellRegion 60 20 110 50 "a" "2_3_a_0_1.png" 0 1;
     CellRegion 10 50 110 80 "a" "2_3_a_1_0.png" 1 0].
Proof. reflexivity. Qed.

(** ** Identifiers *)

Lemma assign_boxIDs_lookup (bounding_boxes : list box5) (i : nat) :
  assign_boxIDs bounding_boxes !! i
  = (λ bbox, Box6 (b5_x1 bbox) (b5_y1 bbox) (b5_x2 bbox) (b5_y2 bbox)
                  (b5_label bbox) i) <$> bounding_boxes !! i.
Proof.
  unfold assign_boxIDs, enumerate.
  rewrite list_lookup_fmap, list_lookup_imap.
  by destruct (bounding_boxes !! i).
Qed.

Lemma assign_boxIDs_ids (bounding_boxes : list box5) :
  b6_box_id <$> assign_boxIDs bounding_boxes = seq 0 (length bounding_boxes).
Proof.
  apply list_eq. intros i.
  rewrite list_lookup_fmap, assign_boxIDs_lookup.
  destruct (bounding_boxes !! i) as [b|] eqn:Hi; simpl.
  - symmetry. apply lookup_seq. split; [done|]. by eapply lookup_lt_Some.
  - symmetry. apply lookup_ge_None. rewrite length_seq. by apply lookup_ge_None.
Qed.

(** [assign_boxIDs] keeps every box in its place and gives the box at
    index [i] the id [i]; the ids are therefore pairwise distinct. *)
Theorem assign_boxIDs_spec (bounding_boxes : list box5) :
  length (assign_boxIDs bounding_boxes) = length bounding_boxes
  ∧ (∀ i box, assign_boxIDs bounding_boxes !! i = Some box ↔
       ∃ bbox, bounding_boxes !! i = Some bbox
               ∧ box = Box6 (b5_x1 bbox) (b5_y1 bbox) (b5_x2 bbox) (b5_y2 bbox)
                            (b5_label bbox) i)
  ∧ NoDup (b6_box_id <$> assign_boxIDs bounding_boxes).
Proof.
  split; [|split].
  - unfold assign_boxIDs, enumerate. by rewrite length_fmap, length_imap.
  - intros i box. rewrite assign_boxIDs_lookup.
    destruct (bounding_boxes !! i) as [b|]; simpl; split.
    + intros [= <-]. eauto.
    + intros (b' & [= <-] & ->). done.
    + done.
    + intros (? & ? & _). done.
  - rewrite assign_boxIDs_ids. apply NoDup_seq.
Qed.

(** ** Consolidation without a deleting label *)

Lemma marks_for_deletion_label (primary_box secondary_box : box5) :
  marks_for_deletion primary_box secondary_box = true →
  b5_label primary_box ∈ deleting_labels.
Proof.
  change deleting_labels
    with (["Title"; "Section-header"; "Page-header"; "List-item"]
          ++ ["Table"; "Caption"; "Footnote"; "Page-footer"]).
  rewrite elem_of_app.
  intros [(Hl & _)|(Hl & _)]%marks_for_deletion_spec; tauto.
Qed.

Lemma filter_all {A : Type} (P : A → Prop) `{!∀ x, Decision (P x)} (l : list A) :
  Forall P l → filter P l = l.
Proof. induction 1; [done|]. rewrite filter_cons_True by done. by f_equal. Qed.

(** Only the eight labels named in the two rules ever delete: when no
    sparse region carries one of them (in particular when there is no
    sparse region), [consolidate_regions] returns the sparse regions
    followed by all layout regions, whatever their rectangles. *)
Theorem consolidate_regions_keeps_all (sparseRegions layoutRegions : list box5) :
  Forall (λ sparse, b5_label sparse ∉ deleting_labels) sparseRegions →
  consolidate_regions sparseRegions layoutRegions = sparseRegions ++ layoutRegions.
Proof.
  intros Hlabels. unfold consolidate_regions. rewrite keep_unmarked_empty. f_equal.
  rewrite (keep_unmarked_by_content (λ _, False)).
  - apply filter_all, Forall_true. tauto.
  - intros j layout _. rewrite double_loop_marks. split; [|done].
    intros (sparse & layout' & Hin & _ & Hmark).
    apply (proj1 (Forall_forall _ _) Hlabels sparse Hin).
    by apply (marks_for_deletion_label sparse layout').
Qed.

Lemma consolidate_regions_keeps_all_witness :
  consolidate_regions [Box5 0 0 100 100 "Formula"] [Box5 10 10 20 20 "Text"]
  = [Box5 0 0 100 100 "Formula"] ++ [Box5 10 10 20 20 "Text"].
Proof.
  apply consolidate_regions_keeps_all.
  repeat constructor. simpl. apply (bool_decide_unpack _). by vm_compute.
Defined.

(** ** The regions of a page before ordering *)

Lemma degeneracy_guard_ids (regions : list box6) :
  (∀ i region, regions !! i = Some region → b6_box_id region = i) →
  ∀ i region, degeneracy_guard regions !! i = Some region → b6_box_id region = i.
Proof.
  intros Hids i region. unfold degeneracy_guard. case_bool_decide; [|apply Hids].
  destruct i as [|i]; simpl; [by intros [= <-]|by rewrite lookup_nil].
Qed.

Lemma degeneracy_guard_length (regions : list box6) :
  (length (degeneracy_guard regions) < 255)%nat.
Proof. unfold degeneracy_guard. case_bool_decide; simpl; lia. Qed.

(** Whatever the two detectors return, a page enters ordering with
    fewer than 255 regions, the region at index [i] has id [i] (so the
    ids are pairwise distinct and fit in one byte), and the predictor
    is handed exactly the rectangles of these regions, in order. *)
Theorem page_regions_ids (layout_prediction sparse_layout_prediction : list layout_box) :
  let '(regions, rectangles) :=
    page_regions layout_prediction sparse_layout_prediction in
  (length regions < 255)%nat
  ∧ (∀ i region, regions !! i = Some region → b6_box_id region = i)
  ∧ NoDup (b6_box_id <$> regions)
  ∧ rectangles = coords6 <$> regions.
Proof.
  unfold page_regions. cbv beta iota zeta.
  set (consolidated := consolidate_regions _ _).
  assert (∀ i region, degeneracy_guard (assign_boxIDs consolidated) !! i = Some region →
                      b6_box_id region = i) as Hids.
  { apply degeneracy_guard_ids. intros i region Hi.
    rewrite assign_boxIDs_lookup in Hi.
    destruct (consolidated !! i); simpl in Hi; [|done]. by injection Hi as <-. }
  split; [apply degeneracy_guard_length|]. split; [done|]. split; [|done].
  apply NoDup_alt. intros i j id Hi Hj.
  apply list_lookup_fmap_Some in Hi as (ri & -> & Hri).
  apply list_lookup_fmap_Some in Hj as (rj & Heq & Hrj).
  apply Hids in Hri, Hrj. congruence.
Qed.

(** ** Label codes *)

(** The twelve known labels have twelve different codes, none of them
    "u"; every other label gets "u". *)
Theorem get_shortened_label_codes :
  (∀ label1 label2, label1 ∈ known_labels → label2 ∈ known_labels →
     get_shortened_label label1 = get_shortened_label label2 → label1 = label2)
  ∧ (∀ label, label ∈ known_labels → get_shortened_label label ≠ "u")
  ∧ (∀ label, label ∉ known_labels → get_shortened_label label = "u").
Proof.
  split; [|split].
  - assert (Forall (λ label1, Forall (λ label2,
        get_shortened_label label1 = get_shortened_label label2 → label1 = label2)
        known_labels) known_labels) as Hall.
    { apply (bool_decide_unpack _). by vm_compute. }
    intros label1 label2 H1 H2.
    apply (proj1 (Forall_forall _ _)
             (proj1 (Forall_forall _ _) Hall label1 H1) label2 H2).
  - assert (Forall (λ label, get_shortened_label label ≠ "u") known_labels) as Hall.
    { apply (bool_decide_unpack _). by vm_compute. }
    intros label. apply (proj1 (Forall_forall _ _) Hall).
  - intros label Hnot. unfold get_shortened_label, label_map.
    rewrite (not_elem_of_list_to_map_1 _ label); [done|]. exact Hnot.
Qed.

Lemma get_shortened_label_codes_witness :
  get_shortened_label "Unknown" = "u".
Proof.
  apply (proj2 (proj2 get_shortened_label_codes) "Unknown").
  apply (bool_decide_unpack _). by vm_compute.
Defined.

(** ** Ordering under the predictor's contract *)

Lemma without_with_position (region : box6) (position : Z) :
  without_position (with_position region position) = region.
Proof. by destruct region. Qed.

Lemma omap_fmap_id {A B : Type} (f : B → option A) (g : A → B) (l : list A) :
  (∀ x, x ∈ l → f (g x) = Some x) → omap f (g <$> l) = l.
Proof.
  induction l as [|x l IH]; intros Hfg; [done|]. csimpl.
  rewrite Hfg by left. simpl. f_equal. apply IH. intros y Hy. apply Hfg. by right.
Qed.

Lemma omap_compose_fmap {A B C : Type} (f : B → option C) (g : A → B) (l : list A) :
  omap (λ x, f (g x)) l = omap f (g <$> l).
Proof. induction l as [|x l IH]; [done|]. csimpl. by rewrite IH. Qed.

(** When the region rectangles are pairwise distinct and the predictor
    returns each of them exactly once, as its contract says, no region
    is lost or repeated: stripped of their positions, the ordered
    regions are the input regions in some order. *)
Theorem reconcile_order_lossless (regions : list box6) (order_prediction : list order_box) :
  NoDup (coords6 <$> regions) →
  ob_bbox <$> order_prediction ≡ₚ coords6 <$> regions →
  without_position <$> reconcile_order regions order_prediction ≡ₚ regions
  ∧ length (reconcile_order regions order_prediction) = length regions.
Proof.
  intros Hnd Hperm.
  assert (without_position <$> reconcile_order regions order_prediction ≡ₚ regions)
    as Hout.
  { unfold reconcile_order.
    rewrite sort_by_position_perm, matched_regions_omap, list_fmap_omap.
    rewrite (list_omap_ext _ (λ entry, matching_region regions (ob_bbox entry))
               _ order_prediction).
    2:{ apply Forall2_same_length_lookup. split; [done|].
        intros i x y Hx Hy. assert (x = y) as -> by congruence.
        unfold stamped_match.
        destruct (matching_region regions (ob_bbox y)); simpl; [|done].
        by rewrite without_with_position. }
    rewrite (omap_compose_fmap (matching_region regions) ob_bbox), Hperm.
    rewrite omap_fmap_id; [done|].
    intros region Hin. by apply matching_region_unique. }
  split; [done|].
  rewrite <- (length_fmap without_position). by rewrite Hout.
Qed.

Lemma reconcile_order_lossless_witness :
  without_position
    <$> reconcile_order [Box6 0 0 10 10 "Title" 0; Box6 0 20 10 30 "Text" 1]
          [OrderBox (0, 20, 10, 30) 1; OrderBox (0, 0, 10, 10) 0]
  ≡ₚ [Box6 0 0 10 10 "Title" 0; Box6 0 20 10 30 "Text" 1]
  ∧ length (reconcile_order [Box6 0 0 10 10 "Title" 0; Box6 0 20 10 30 "Text" 1]
              [OrderBox (0, 20, 10, 30) 1; OrderBox (0, 0, 10, 10) 0]) = 2%nat.
Proof.
  apply (reconcile_order_lossless
           [Box6 0 0 10 10 "Title" 0; Box6 0 20 10 30 "Text" 1]
           [OrderBox (0, 20, 10, 30) 1; OrderBox (0, 0, 10, 10) 0]).
  - apply (bool_decide_unpack _). by vm_compute.
  - simpl. apply Permutation_swap.
Defined.

(** ** Ties *)

Lemma stamped_match_position (regions : list box6) (entry : order_box) (box : box7) :
  stamped_match regions entry = Some box → position box = ob_position entry.
Proof.
  unfold stamped_match. destruct (matching_region _ _); simpl; [|done].
  by intros [= <-].
Qed.

Lemma omap_filter_position (regions : list box6) (p : Z) (entries : list order_box) :
  filter (λ box, position box = p) (omap (stamped_match regions) entries)
  = omap (stamped_match regions) (filter (λ entry, ob_position entry = p) entries).
Proof.
  induction entries as [|e l IH]; [done|]. csimpl. rewrite (filter_cons _ e).
  destruct (stamped_match regions e) as [box|] eqn:Hm; csimpl.
  - apply stamped_match_position in Hm as Hp.
    rewrite filter_cons, IH, Hp. case_decide; csimpl; [by rewrite Hm|done].
  - rewrite IH. case_decide; csimpl; [by rewrite Hm|done].
Qed.

(** The regions that share an order position stand in the output in the
    order in which the prediction lists their entries: the sort is
    stable. *)
Theorem reconcile_order_stable (regions : list box6) (order_prediction : list order_box)
    (p : Z) :
  filter (λ box, position box = p) (reconcile_order regions order_prediction)
  = omap (stamped_match regions)
         (filter (λ entry, ob_position entry = p) order_prediction).
Proof.
  unfold reconcile_order.
  by rewrite sort_by_position_stable, matched_regions_omap, omap_filter_position.
Qed.

Lemma omap_positions_sublist (regions : list box6) (entries : list order_box) :
  position <$> omap (stamped_match regions) entries
  `sublist_of` ob_position <$> entries.
Proof.
  induction entries as [|e l IH]; [done|]. csimpl.
  destruct (stamped_match regions e) as [box|] eqn:Hm; csimpl.
  - apply stamped_match_position in Hm as ->. by apply sublist_skip.
  - by apply sublist_cons.
Qed.

Lemma sorted_without_ties (boxes : list box7) :
  Sorted position_le boxes → NoDup (position <$> boxes) →
  StronglySorted (λ a b, position a < position b) boxes.
Proof.
  intros Hs. apply Sorted_StronglySorted in Hs; [|apply _].
  induction Hs as [|b l Hl IH Hb]; intros Hnd; [constructor|].
  rewrite fmap_cons in Hnd. apply NoDup_cons in Hnd as [Hnotin Hnd].
  constructor; [by apply IH|].
  apply Forall_forall. intros c Hc.
  pose proof (proj1 (Forall_forall _ _) Hb c Hc) as Hle. unfold position_le in Hle.
  assert (position b ≠ position c); [|lia].
  intros Heq. apply Hnotin. rewrite Heq. by apply list_elem_of_fmap_2.
Qed.

(** When the prediction gives no order position twice, the output is
    strictly increasing in position: a total order without ties. *)
Theorem reconcile_order_strict (regions : list box6) (order_prediction : list order_box) :
  NoDup (ob_position <$> order_prediction) →
  StronglySorted (λ a b, position a < position b)
                 (reconcile_order regions order_prediction).
Proof.
  intros Hnd. unfold reconcile_order. apply sorted_without_ties.
  - apply sort_by_position_sorted.
  - rewrite sort_by_position_perm, matched_regions_omap.
    exact (sublist_NoDup _ _ Hnd (omap_positions_sublist regions order_prediction)).
Qed.

Lemma reconcile_order_strict_witness :
  StronglySorted (λ a b, position a < position b)
                 (reconcile_order column_regions shuffled_prediction).
Proof.
  apply reconcile_order_strict. apply (bool_decide_unpack _). by vm_compute.
Defined.

(** The three regions come out in the order of their positions. *)
Example reconcile_order_column :
  reconcile_order column_regions shuffled_prediction
  = [Box7 0 0 10 10 "Title" 0 0; Box7 0 20 10 30 "Text" 1 1;
     Box7 0 40 10 50 "Text" 2 2].
Proof. reflexivity. Qed.

(** ** What expansion reaches *)

(** The expander never shrinks or moves a region: every output
    rectangle covers the input rectangle at the same index. *)
Theorem expansion_covers_input (boxes : list box7) (image_bbox : coords)
    (i : nat) (box box' : box7) :
  boxes !! i = Some box →
  adjust_bounding_boxes_final boxes image_bbox !! i = Some box' →
  covers box' box.
Proof.
  intros Hi Hi'. destruct image_bbox as [[[x_min y_min] x_max] y_max].
  destruct (adjust_lookup boxes x_min y_min x_max y_max i box Hi)
    as (v & h & _ & _ & Hgv & Hgh & Hm).
  rewrite Hm in Hi'. injection Hi' as <-.
  destruct Hgv as (_ & _ & _ & _ & _ & ? & ? & _).
  destruct Hgh as (_ & _ & _ & _ & _ & ? & ? & _).
  unfold covers. simpl. lia.
Qed.

Lemma expansion_covers_input_witness :
  covers (Box7 0 0 15 10 "Text" 0 0) (Box7 0 0 10 10 "Text" 0 0).
Proof.
  apply (expansion_covers_input scenario1 scenario1_page 0); reflexivity.
Defined.

(** On well-formed input, growth stops only where it is blocked: in the
    output every region that is not a Picture or Figure overlaps some
    other output region, or has all four edges on or beyond the page
    bounds. *)
Theorem expansion_fills_gaps (boxes : list box7) (x_min y_min x_max y_max : Z)
    (i : nat) (box' : box7) :
  Forall well_formed boxes →
  adjust_bounding_boxes_final boxes (x_min, y_min, x_max, y_max) !! i = Some box' →
  is_pictorial (label box') = false →
  (∃ j other, i ≠ j
     ∧ adjust_bounding_boxes_final boxes (x_min, y_min, x_max, y_max) !! j = Some other
     ∧ rectOverlap (coords7 box') (coords7 other) = true)
  ∨ (x_l box' ≤ 0 ∧ y_b box' ≤ 0 ∧ x_max ≤ x_r box' ∧ y_max ≤ y_t box').
Proof.
  intros Hwf Hi Hp.
  destruct (adjust_stable_vertical boxes x_min y_min x_max y_max Hwf i box' Hi)
    as [Hpv|[Hx|Hv]]; [congruence| |].
  { left. by apply intersection_found_true. }
  destruct (adjust_stable_horizontal boxes x_min y_min x_max y_max Hwf i box' Hi)
    as [Hph|[Hx|Hh]]; [congruence| |].
  { left. by apply intersection_found_true. }
  right. apply grow_vertical_None in Hv. apply grow_horizontal_None in Hh. lia.
Qed.

Lemma expansion_fills_gaps_witness :
  (∃ j other, 0%nat ≠ j
     ∧ adjust_bounding_boxes_final scenario1 (0, 0, 40, 10) !! j = Some other
     ∧ rectOverlap (coords7 (Box7 0 0 15 10 "Text" 0 0)) (coords7 other) = true)
  ∨ (x_l (Box7 0 0 15 10 "Text" 0 0) ≤ 0 ∧ y_b (Box7 0 0 15 10 "Text" 0 0) ≤ 0
     ∧ 40 ≤ x_r (Box7 0 0 15 10 "Text" 0 0)
     ∧ 10 ≤ y_t (Box7 0 0 15 10 "Text" 0 0)).
Proof.
  apply (expansion_fills_gaps scenario1 0 0 40 10 0 (Box7 0 0 15 10 "Text" 0 0)).
  - unfold scenario1, well_formed. repeat constructor; simpl; lia.
  - reflexivity.
  - reflexivity.
Defined.

(** On integer coordinates a region alone on its page, inside the page
    and neither Picture nor Figure, is expanded to the whole page. *)
Theorem expansion_of_lone_region (box : box7) (x_min y_min x_max y_max : Z) :
  is_pictorial (label box) = false →
  within_page x_max y_max box →
  adjust_bounding_boxes_final [box] (x_min, y_min, x_max, y_max)
  = [Box7 0 0 x_max y_max (label box) (box_id box) (position box)].
Proof.
  intros Hp (? & ? & ? & ?).
  destruct (adjust_lookup [box] x_min y_min x_max y_max 0%nat box eq_refl)
    as (v & h & Hv & Hh & Hgv & Hgh & Hm).
  assert (length (adjust_bounding_boxes_final [box] (x_min, y_min, x_max, y_max))
          = 1%nat) as Hlen by apply adjust_length.
  destruct (adjust_bounding_boxes_final [box] (x_min, y_min, x_max, y_max))
    as [|m [|m' rest]]; try done.
  injection Hm as ->. f_equal.
  assert (∀ boxes (b : box7), length boxes = 1%nat →
            intersection_found 0%nat b boxes = false) as Halone.
  { intros boxes b Hl. apply intersection_found_false.
    intros j box2 Hne Hj. apply lookup_lt_Some in Hj. lia. }
  assert (length (vertical_pass y_max [box]) = 1%nat) as Hlv.
  { by rewrite <- (Forall2_length _ _ _ (vertical_pass_grown y_max [box])). }
  assert (length (horizontal_pass x_max [box]) = 1%nat) as Hlh.
  { by rewrite <- (Forall2_length _ _ _ (horizontal_pass_grown x_max [box])). }
  destruct (vertical_pass_stable y_max [box] 0%nat v Hv) as [Hpv|[Hx|Hnv]].
  { destruct Hgv as (Hl & _). congruence. }
  { rewrite Halone in Hx; done. }
  destruct (horizontal_pass_stable x_max [box] 0%nat h Hh) as [Hph|[Hx|Hnh]].
  { destruct Hgh as (Hl & _). congruence. }
  { rewrite Halone in Hx; done. }
  apply grow_vertical_None in Hnv. apply grow_horizontal_None in Hnh.
  destruct Hgv as (_ & _ & _ & _ & _ & ? & ? & ? & ? & _).
  destruct Hgh as (_ & _ & _ & _ & _ & ? & ? & ? & ? & _).
  f_equal; lia.
Qed.

Lemma expansion_of_lone_region_witness :
  adjust_bounding_boxes_final [Box7 3 4 5 6 "Title" 0 0] (0, 0, 30, 20)
  = [Box7 0 0 30 20 "Title" 0 0].
Proof.
  apply (expansion_of_lone_region (Box7 3 4 5 6 "Title" 0 0) 0 0 30 20).
  - reflexivity.
  - unfold within_page. simpl. lia.
Defined.

(** ** What the table stage hands over and takes back *)

Lemma collect_tables_table_cells_list (sparse_line_bboxes : list coords)
    (regions : list box7) (acc : table_batch) :
  table_cells_list (foldl (collect_step sparse_line_bboxes) acc regions)
  = table_cells_list acc
    ++ (candidate_cells sparse_line_bboxes <$> tables_of regions).
Proof.
  revert acc. unfold tables_of.
  induction regions as [|r l IH]; intros acc; simpl.
  - by rewrite app_nil_r.
  - rewrite IH, filter_cons. unfold collect_step.
    case_bool_decide; simpl.
    + rewrite decide_True by done. by rewrite <- app_assoc.
    + by rewrite decide_False by done.
Qed.

Lemma collect_tables_table_positions (sparse_line_bboxes : list coords)
    (regions : list box7) (acc : table_batch) :
  table_positions (foldl (collect_step sparse_line_bboxes) acc regions)
  = table_positions acc
    ++ ((λ region, (position region, coords7 region)) <$> tables_of regions).
Proof.
  revert acc. unfold tables_of.
  induction regions as [|r l IH]; intros acc; simpl.
  - by rewrite app_nil_r.
  - rewrite IH, filter_cons. unfold collect_step.
    case_bool_decide; simpl.
    + rewrite decide_True by done. by rewrite <- app_assoc.
    + by rewrite decide_False by done.
Qed.

(** The batch holds, for each table of the page in order, its crop
    window, its candidate cells and its position. *)
Lemma collect_tables_batch (regions : list box7) (sparse_line_bboxes : list coords) :
  collect_tables regions sparse_line_bboxes
  = TableBatch
      (PageRegion <$> filter (λ region, label region ≠ "Table") regions)
      (coords7 <$> tables_of regions)
      (candidate_cells sparse_line_bboxes <$> tables_of regions)
      ((λ region, (position region, coords7 region)) <$> tables_of regions).
Proof.
  unfold collect_tables.
  pose proof (collect_tables_final_regions sparse_line_bboxes regions
                (TableBatch [] [] [] [])) as H1.
  pose proof (collect_tables_table_images sparse_line_bboxes regions
                (TableBatch [] [] [] [])) as H2.
  pose proof (collect_tables_table_cells_list sparse_line_bboxes regions
                (TableBatch [] [] [] [])) as H3.
  pose proof (collect_tables_table_positions sparse_line_bboxes regions
                (TableBatch [] [] [] [])) as H4.
  destruct (foldl _ _ regions). simpl in *. by subst.
Qed.

(** A page without a table region is passed through: the predictor is
    not consulted, and the final list is the expanded list. *)
Theorem decompose_tables_without_table
    (batch_table_recognition :
       list coords → list (list coords) → option (list (list table_cell)))
    (page_number : nat) (regions : list box7) (sparse_line_bboxes : list coords) :
  Forall (λ region, label region ≠ "Table") regions →
  decompose_tables batch_table_recognition page_number regions sparse_line_bboxes
  = PageRegion <$> regions.
Proof.
  intros Hno. unfold decompose_tables. rewrite collect_tables_batch. simpl.
  unfold tables_of. rewrite (filter_none (λ region, label region = "Table")).
  - simpl. by rewrite filter_all.
  - eapply Forall_impl; [done|]. intros region Hr. exact Hr.
Qed.

Lemma decompose_tables_without_table_witness :
  decompose_tables raising_predictor 0 scenario1 table_page_lines
  = PageRegion <$> scenario1.
Proof.
  apply decompose_tables_without_table.
  unfold scenario1. repeat constructor; simpl; discriminate.
Defined.

(** ** Chunks *)

Lemma py_range_empty (start stop : Z) : stop ≤ start → py_range start stop = [].
Proof. intros. apply seqZ_nil. lia. Qed.

Lemma py_range_app (start mid stop : Z) :
  start ≤ mid → mid ≤ stop →
  py_range start mid ++ py_range mid stop = py_range start stop.
Proof.
  intros. unfold py_range.
  replace (stop - start) with ((mid - start) + (stop - mid)) by lia.
  rewrite seqZ_app by lia. do 2 f_equal. lia.
Qed.

Lemma py_range_snoc (start stop : Z) :
  start ≤ stop → py_range start (stop + 1) = py_range start stop ++ [stop].
Proof.
  intros. rewrite <- (py_range_app start stop (stop + 1)) by lia. f_equal.
  unfold py_range. rewrite seqZ_cons by lia. rewrite seqZ_nil by lia. done.
Qed.

(** The first [n] chunks cover the pages before [n * chunk_size], as
    far as the document goes. *)
Lemma chunks_prefix (total chunk_size : Z) (n : nat) :
  0 < chunk_size → 0 ≤ total →
  mjoin ((λ chunk_num,
            py_range ((chunk_num - 1) * chunk_size)
                     (Z.min ((chunk_num - 1) * chunk_size + chunk_size) total))
           <$> py_range 1 (Z.of_nat n + 1))
  = py_range 0 (Z.min (Z.of_nat n * chunk_size) total).
Proof.
  intros Hc Ht. induction n as [|n IH].
  - rewrite (py_range_empty 1) by lia. rewrite py_range_empty by lia. done.
  - replace (Z.of_nat (S n) + 1) with ((Z.of_nat n + 1) + 1) by lia.
    rewrite py_range_snoc by lia. rewrite fmap_app, join_app, IH. simpl.
    rewrite app_nil_r.
    replace (Z.of_nat n + 1 - 1) with (Z.of_nat n) by lia.
    replace (Z.of_nat (S n) * chunk_size)
      with (Z.of_nat n * chunk_size + chunk_size) by lia.
    destruct (decide (Z.of_nat n * chunk_size ≤ total)) as [Hle|Hgt].
    + rewrite (Z.min_l (Z.of_nat n * chunk_size)) by done.
      apply py_range_app; lia.
    + rewrite (Z.min_r (Z.of_nat n * chunk_size)) by lia.
      rewrite (Z.min_r (Z.of_nat n * chunk_size + chunk_size)) by lia.
      rewrite (py_range_empty (Z.of_nat n * chunk_size)) by lia.
      by rewrite app_nil_r.
Qed.

Lemma ceil_div_bounds (total chunk_size : Z) :
  0 < chunk_size → 0 ≤ total →
  let n := (total + chunk_size - 1) `div` chunk_size in
  0 ≤ n ∧ total ≤ n * chunk_size ∧ (n - 1) * chunk_size < total.
Proof.
  intros Hc Ht n.
  pose proof (Z.div_mod (total + chunk_size - 1) chunk_size ltac:(lia)) as Hdm.
  pose proof (Z.mod_pos_bound (total + chunk_size - 1) chunk_size Hc) as Hmod.
  fold n in Hdm. split; [apply Z.div_pos; lia|]. nia.
Qed.

(** [process_single_document] and [process_pdf] together visit every
    page below the page limit exactly once and in order: the chunks,
    put end to end, are the pages [0 .. min(page_count, MAX_PAGES) - 1],
    and every chunk holds at least one and at most [chunk_size] pages.
    With a chunk size of 0 the function is left by an
    [UnboundLocalError]: the handler of the division by zero reads a
    name that is not bound yet. *)
Theorem document_pages_partition (page_count chunk_size : Z) :
  (0 < chunk_size → 0 ≤ page_count →
     ∃ chunks,
       process_single_document page_count chunk_size = inr chunks
       ∧ mjoin chunks = py_range 0 (Z.min page_count MAX_PAGES)
       ∧ Forall (λ chunk, (0 < length chunk ≤ Z.to_nat chunk_size)%nat) chunks)
  ∧ (chunk_size = 0 →
     process_single_document page_count chunk_size = inl UnboundLocalError).
Proof.
  unfold process_single_document. split.
  - intros Hc Hp. unfold document_pages, floordiv.
    rewrite decide_False by lia. simpl.
    set (total := Z.min page_count MAX_PAGES).
    assert (0 ≤ total) as Ht by (unfold total, MAX_PAGES; lia).
    destruct (ceil_div_bounds total chunk_size Hc Ht) as (Hn & Hup & Hlow).
    set (n := (total + chunk_size - 1) `div` chunk_size) in *.
    eexists. split; [done|]. split.
    + pose proof (chunks_prefix total chunk_size (Z.to_nat n) Hc Ht) as Hpre.
      rewrite Z2Nat.id in Hpre by done.
      rewrite (Z.min_r (n * chunk_size)) in Hpre by lia.
      unfold pages_in_chunk. exact Hpre.
    + apply Forall_fmap, Forall_seqZ. intros k Hk. simpl.
      unfold pages_in_chunk, py_range. fold total. rewrite length_seqZ.
      assert ((k - 1) * chunk_size ≤ (n - 1) * chunk_size) by nia. lia.
  - intros ->. unfold document_pages, floordiv. by rewrite decide_True.
Qed.

Lemma document_pages_partition_witness :
  ∃ chunks,
    process_single_document 7 3 = inr chunks
    ∧ mjoin chunks = py_range 0 (Z.min 7 MAX_PAGES)
    ∧ Forall (λ chunk, (0 < length chunk ≤ Z.to_nat 3)%nat) chunks.
Proof. apply (proj1 (document_pages_partition 7 3)); lia. Defined.

(** Seven pages in chunks of three. *)
Example document_pages_7_3 :
  document_pages 7 3 = Some [[0; 1; 2]; [3; 4; 5]; [6]].
Proof. reflexivity. Qed.

(** The page limit cuts a long document after 16 pages. *)
Example document_pages_20_10 :
  document_pages 20 10
  = Some [[0; 1; 2; 3; 4; 5; 6; 7; 8; 9]; [10; 11; 12; 13; 14; 15]].
Proof. reflexivity. Qed.

(** In dataset mode the [.boxes] file of a page carries the number of
    the page in the document, counted from 1, whatever chunk the page
    falls in. *)
Theorem boxes_file_numbers_are_page_numbers (page_count chunk_num chunk_size : Z) :
  boxes_file_numbers page_count chunk_num chunk_size
  = (λ page, page + 1)
      <$> pages_in_chunk page_count MAX_PAGES chunk_num chunk_size.
Proof.
  unfold boxes_file_numbers, pages_in_chunk.
  set (start_page := (chunk_num - 1) * chunk_size).
  set (end_page := Z.min _ _).
  apply list_eq. intros i. unfold py_range.
  rewrite !list_lookup_fmap, length_seqZ.
  destruct (decide (Z.of_nat i < end_page - start_page)) as [Hlt|Hge].
  - rewrite !lookup_seqZ_lt by lia. simpl. f_equal.
    unfold actual_page_num. case_decide; lia.
  - rewrite !lookup_seqZ_ge by lia. done.
Qed.

(** [split_pdf] cuts the document at the same pages as [process_pdf]. *)
Theorem split_pdf_agrees (page_count chunk_size : Z) :
  fmap (M:=option)
       (fmap (M:=list) (λ '(from_page, to_page), py_range from_page (to_page + 1)))
       (split_pdf page_count chunk_size)
  = document_pages page_count chunk_size.
Proof.
  unfold split_pdf, document_pages.
  destruct (floordiv _ chunk_size) as [n|]; simpl; [|done]. f_equal.
  rewrite <- list_fmap_compose.
  unfold py_range at 1 3.
  replace (n + 1 - 1) with (n - 0) by lia.
  rewrite <- (fmap_add_seqZ 1 0). rewrite <- list_fmap_compose.
  apply list_fmap_ext. intros i k _. simpl. unfold pages_in_chunk.
  replace (1 + k - 1) with k by lia.
  replace (Z.min ((k + 1) * chunk_size) (Z.min page_count MAX_PAGES) - 1 + 1)
    with (Z.min (k * chunk_size + chunk_size) (Z.min page_count MAX_PAGES)) by lia.
  done.
Qed.

(** ** Word boxes *)

Lemma polygon_to_bbox_bounds (polygon : list (Z * Z)) (x1 y1 x2 y2 : Z) :
  polygon_to_bbox polygon = Some (x1, y1, x2, y2) →
  (∀ x y, (x, y) ∈ polygon → x1 ≤ x ≤ x2 ∧ y1 ≤ y ≤ y2)
  ∧ x1 ≤ x2 ∧ y1 ≤ y2.
Proof.
  intros Hbox. destruct polygon as [|point polygon]; [done|].
  unfold polygon_to_bbox in Hbox. injection Hbox as <- <- <- <-.
  assert (fst <$> point :: polygon ≠ []) as Hxs by done.
  assert (snd <$> point :: polygon ≠ []) as Hys by done.
  set (points := point :: polygon) in *.
  pose proof (py_min_is_minimum (fst <$> points) Hxs) as Hx1.
  pose proof (py_min_is_minimum (snd <$> points) Hys) as Hy1.
  pose proof (py_max_is_maximum (fst <$> points) Hxs) as Hx2.
  pose proof (py_max_is_maximum (snd <$> points) Hys) as Hy2.
  assert (∀ x y, (x, y) ∈ points →
            py_min (fst <$> points) ≤ x ≤ py_max (fst <$> points)
            ∧ py_min (snd <$> points) ≤ y ≤ py_max (snd <$> points)) as Hin.
  { intros x y Hxy.
    pose proof (list_elem_of_fmap_2 fst _ _ Hxy) as Hx.
    pose proof (list_elem_of_fmap_2 snd _ _ Hxy) as Hy. simpl in Hx, Hy.
    pose proof (proj2 Hx1 x Hx). pose proof (proj2 Hx2 x Hx).
    pose proof (proj2 Hy1 y Hy). pose proof (proj2 Hy2 y Hy). lia. }
  split; [done|].
  destruct point as [x y]. specialize (Hin x y ltac:(left)).
  change (py_min (fst <$> points) ≤ py_max (fst <$> points)
          ∧ py_min (snd <$> points) ≤ py_max (snd <$> points)).
  lia.
Qed.

(** [polygon_to_bbox] raises on an empty polygon only; otherwise it
    returns the tightest box around the points: every point lies in it,
    each of its four edges passes through a point, and it is well
    formed. *)
Theorem polygon_to_bbox_spec (polygon : list (Z * Z)) :
  (polygon_to_bbox polygon = None ↔ polygon = [])
  ∧ ∀ x1 y1 x2 y2, polygon_to_bbox polygon = Some (x1, y1, x2, y2) →
      is_minimum x1 (fst <$> polygon) ∧ is_minimum y1 (snd <$> polygon)
      ∧ is_maximum x2 (fst <$> polygon) ∧ is_maximum y2 (snd <$> polygon)
      ∧ (∀ x y, (x, y) ∈ polygon → x1 ≤ x ≤ x2 ∧ y1 ≤ y ≤ y2)
      ∧ x1 ≤ x2 ∧ y1 ≤ y2.
Proof.
  split; [by destruct polygon|].
  intros x1 y1 x2 y2 Hbox.
  pose proof (polygon_to_bbox_bounds polygon x1 y1 x2 y2 Hbox) as Hbounds.
  destruct polygon as [|point polygon]; [done|].
  unfold polygon_to_bbox in Hbox. injection Hbox as <- <- <- <-.
  assert (fst <$> point :: polygon ≠ []) as Hxs by done.
  assert (snd <$> point :: polygon ≠ []) as Hys by done.
  split; [exact (py_min_is_minimum _ Hxs)|].
  split; [exact (py_min_is_minimum _ Hys)|].
  split; [exact (py_max_is_maximum _ Hxs)|].
  split; [exact (py_max_is_maximum _ Hys)|].
  exact Hbounds.
Qed.

Lemma polygon_to_bbox_spec_witness :
  is_minimum 1 (fst <$> [(3, 2); (1, 5); (4, 4)])
  ∧ is_minimum 2 (snd <$> [(3, 2); (1, 5); (4, 4)])
  ∧ is_maximum 4 (fst <$> [(3, 2); (1, 5); (4, 4)])
  ∧ is_maximum 5 (snd <$> [(3, 2); (1, 5); (4, 4)])
  ∧ (∀ x y, (x, y) ∈ [(3, 2); (1, 5); (4, 4)] → 1 ≤ x ≤ 4 ∧ 2 ≤ y ≤ 5)
  ∧ 1 ≤ 4 ∧ 2 ≤ 5.
Proof.
  apply (proj2 (polygon_to_bbox_spec [(3, 2); (1, 5); (4, 4)]) 1 2 4 5).
  reflexivity.
Defined.

(** The four-corner polygon that [get_layout] builds from a word box
    returned by [polygon_to_bbox] has that box as its bounding box. *)
Theorem craft_polygon_round_trip (polygon : list (Z * Z)) (craft_bbox : coords) :
  polygon_to_bbox polygon = Some craft_bbox →
  polygon_to_bbox (craft_polygon craft_bbox) = Some craft_bbox.
Proof.
  destruct craft_bbox as [[[x1 y1] x2] y2]. intros Hbox.
  apply polygon_to_bbox_bounds in Hbox as (_ & Hx & Hy).
  unfold craft_polygon, polygon_to_bbox, py_min, py_max. simpl.
  repeat f_equal; lia.
Qed.

Lemma craft_polygon_round_trip_witness :
  polygon_to_bbox (craft_polygon (1, 2, 4, 5)) = Some (1, 2, 4, 5).
Proof.
  apply (craft_polygon_round_trip [(3, 2); (1, 5); (4, 4)]). reflexivity.
Defined.

(** ** Page selection *)

(** When [load_pdf] gets past its assertions, the pages it loads are
    consecutive pages of the document starting at [start_page] (0 when
    not given), at most [max_pages] of them when [max_pages] is given
    and not 0; with [max_pages] absent or 0 it loads up to the last
    page. *)
Theorem load_pdf_page_indices_spec (doc_len : Z) (max_pages start_page : option Z)
    (page_indices : list Z) :
  0 ≤ doc_len →
  load_pdf_page_indices doc_len max_pages start_page = Some page_indices →
  Forall (λ page, 0 ≤ page < doc_len) page_indices
  ∧ (∀ i page, page_indices !! i = Some page →
       page = default 0 start_page + Z.of_nat i)
  ∧ (∀ m, max_pages = Some m → m ≠ 0 → (length page_indices ≤ Z.to_nat m)%nat)
  ∧ (max_pages = None ∨ max_pages = Some 0 →
     length page_indices = Z.to_nat (doc_len - default 0 start_page)).
Proof.
  intros Hlen. unfold load_pdf_page_indices, truthy.
  destruct start_page as [s|], max_pages as [m|]; simpl;
    repeat case_bool_decide; simpl; try done; intros [= <-];
    (split; [apply Forall_seqZ; lia|]);
    (split; [intros i page [-> _]%lookup_seqZ; lia|]);
    (split; [intros m' [= <-] ?; unfold py_range; rewrite length_seqZ; lia
                   || intros m' ?; done|]);
    intros [?|?]; try done; unfold py_range; rewrite length_seqZ;
    try lia; simplify_eq; lia.
Qed.

Lemma load_pdf_page_indices_spec_witness :
  Forall (λ page, 0 ≤ page < 10) [2; 3; 4]
  ∧ (∀ i page, [2; 3; 4] !! i = Some page → page = default 0 (Some 2) + Z.of_nat i)
  ∧ (∀ m, Some 3 = Some m → m ≠ 0 → (length [2; 3; 4] ≤ Z.to_nat m)%nat)
  ∧ (Some 3 = None ∨ Some 3 = Some 0 →
     length [2; 3; 4] = Z.to_nat (10 - default 0 (Some 2))).
Proof.
  apply (load_pdf_page_indices_spec 10 (Some 3) (Some 2) [2; 3; 4]);
    [lia|reflexivity].
Defined.

(** [load_pdf] fails exactly when a start page other than 0 is given
    that is not a page of the document, or a negative [max_pages] is
    given. *)
Theorem load_pdf_page_indices_fails (doc_len : Z) (max_pages start_page : option Z) :
  load_pdf_page_indices doc_len max_pages start_page = None ↔
  (∃ s, start_page = Some s ∧ s ≠ 0 ∧ ¬ (0 ≤ s < doc_len))
  ∨ (∃ m, max_pages = Some m ∧ m < 0).
Proof.
  unfold load_pdf_page_indices, truthy.
  destruct start_page as [s|], max_pages as [m|]; simpl;
    repeat case_bool_decide; simpl; split; try done;
    try (intros _; (left; exists s; split; [done|]; lia)
                   || (right; exists m; split; [done|]; lia));
    intros [(s' & Hs & ? & ?)|(m' & Hm & ?)]; simplify_eq; lia.
Qed.

(** ** Names of documents *)

Lemma occurs_app (c : ascii) (s t : string) :
  occurs c (s +:+ t) = occurs c s || occurs c t.
Proof. induction s as [|c' s IH]; simpl; [done|]. by rewrite IH, orb_assoc. Qed.

Lemma after_last_free (sep : ascii) (p : string) : occurs sep (after_last sep p) = false.
Proof.
  induction p as [|c rest IH]; simpl; [done|].
  destruct (occurs sep rest) eqn:Hrest; [done|].
  case_bool_decide; simpl; [done|]. rewrite Hrest. by rewrite bool_decide_eq_false_2.
Qed.

Lemma after_last_app (sep : ascii) (s t : string) :
  occurs sep t = false → after_last sep (s +:+ String sep t) = t.
Proof.
  intros Ht. induction s as [|c s IH]; simpl.
  - rewrite Ht. by rewrite bool_decide_eq_true_2.
  - rewrite occurs_app. simpl. rewrite bool_decide_eq_true_2 by done.
    by rewrite orb_true_r.
Qed.

Lemma after_last_id (sep : ascii) (p : string) :
  occurs sep p = false → after_last sep p = p.
Proof.
  destruct p as [|c rest]; simpl; [done|].
  intros [Hc Hrest]%orb_false_elim. rewrite Hrest.
  by rewrite Hc.
Qed.

Lemma before_first_free (sep : ascii) (s : string) :
  occurs sep (before_first sep s) = false.
Proof.
  induction s as [|c rest IH]; simpl; [done|].
  case_bool_decide; simpl; [done|]. rewrite IH. by rewrite bool_decide_eq_false_2.
Qed.

Lemma before_first_keeps_free (c sep : ascii) (s : string) :
  occurs c s = false → occurs c (before_first sep s) = false.
Proof.
  induction s as [|c' rest IH]; simpl; [done|].
  intros [Hc Hrest]%orb_false_elim.
  destruct (bool_decide (c' = sep)); simpl; [done|].
  rewrite Hc. by apply IH.
Qed.

Lemma before_first_app (sep : ascii) (s t : string) :
  occurs sep s = false → before_first sep (s +:+ String sep t) = s.
Proof.
  induction s as [|c s IH]; simpl.
  - intros _. by rewrite bool_decide_eq_true_2.
  - intros [Hc Hs]%orb_false_elim. rewrite Hc. by rewrite IH.
Qed.

Lemma before_first_id (sep : ascii) (s : string) :
  occurs sep s = false → before_first sep s = s.
Proof.
  induction s as [|c s IH]; simpl; [done|].
  intros [Hc Hs]%orb_false_elim. rewrite Hc. by rewrite IH.
Qed.

(** The name of a document holds neither "." nor "/".  It is what
    stands between the last "/" of the path and the first "." after it:
    everything from that dot on is dropped, so [x.1.pdf] and [x.2.pdf]
    in one folder get the same name.  A path without "." and "/" is its
    own name. *)
Theorem get_name_from_path_spec :
  (∀ path, occurs "." (get_name_from_path path) = false
           ∧ occurs "/" (get_name_from_path path) = false)
  ∧ (∀ folder stem rest,
       occurs "/" stem = false → occurs "." stem = false →
       occurs "/" rest = false →
       get_name_from_path (folder +:+ "/" +:+ stem +:+ "." +:+ rest) = stem
       ∧ get_name_from_path (stem +:+ "." +:+ rest) = stem)
  ∧ (∀ path, occurs "/" path = false → occurs "." path = false →
       get_name_from_path path = path).
Proof.
  unfold get_name_from_path, basename. split; [|split].
  - intros path. split; [apply before_first_free|].
    apply before_first_keeps_free, after_last_free.
  - intros folder stem rest Hs Hd Hr. split.
    + change (folder +:+ "/" +:+ stem +:+ "." +:+ rest)
        with (folder +:+ String "/" (stem +:+ String "." rest)).
      rewrite after_last_app.
      * by apply before_first_app.
      * rewrite occurs_app. simpl. by rewrite Hs, Hr.
    + change (stem +:+ "." +:+ rest) with (stem +:+ String "." rest).
      rewrite after_last_id.
      * by apply before_first_app.
      * rewrite occurs_app. simpl. by rewrite Hs, Hr.
  - intros path Hs Hd. rewrite after_last_id by done. by apply before_first_id.
Qed.

Lemma get_name_from_path_spec_witness :
  get_name_from_path ("scans/2024" +:+ "/" +:+ "report" +:+ "." +:+ "v2.pdf")
  = "report"
  ∧ get_name_from_path ("report" +:+ "." +:+ "v2.pdf") = "report".
Proof.
  apply (proj1 (proj2 get_name_from_path_spec) "scans/2024" "report" "v2.pdf");
    reflexivity.
Defined.

(** ** Names of region images *)

Lemma append_sep_inj (sep : ascii) (s1 s2 t1 t2 : string) :
  occurs sep s1 = false → occurs sep s2 = false →
  s1 +:+ String sep t1 = s2 +:+ String sep t2 → s1 = s2 ∧ t1 = t2.
Proof.
  revert s2. induction s1 as [|c1 s1 IH]; intros [|c2 s2]; simpl.
  - intros _ _ [= ->]. done.
  - intros _ [Hc _]%orb_false_elim [= <- _]. by rewrite bool_decide_eq_true_2 in Hc.
  - intros [Hc _]%orb_false_elim _ [= -> _]. by rewrite bool_decide_eq_true_2 in Hc.
  - intros [_ H1]%orb_false_elim [_ H2]%orb_false_elim [= -> Heq].
    destruct (IH s2 H1 H2 Heq) as [-> ->]. done.
Qed.

Lemma pretty_N_go_occurs (c : ascii) (x : N) (s : string) :
  (∀ d : N, pretty_N_char d ≠ c) →
  occurs c (pretty_N_go x s) = occurs c s.
Proof.
  intros Hc. revert s. induction (N.lt_wf_0 x) as [x _ IH]; intros s.
  destruct (decide (x = 0)%N) as [->|Hx]; [by rewrite pretty_N_go_0|].
  rewrite pretty_N_go_step by lia. rewrite IH by (apply N.div_lt; lia).
  simpl. rewrite bool_decide_eq_false_2; [done|]. apply Hc.
Qed.

Lemma pretty_N_occurs (c : ascii) (x : N) :
  (∀ d : N, pretty_N_char d ≠ c) → occurs c (pretty x) = false.
Proof.
  intros Hc. unfold pretty, pretty_N. case_decide.
  - simpl. rewrite bool_decide_eq_false_2; [done|]. apply (Hc 0%N).
  - by rewrite pretty_N_go_occurs.
Qed.

Lemma not_a_digit_underscore (d : N) : pretty_N_char d ≠ "_"%char.
Proof. unfold pretty_N_char. by repeat case_match. Qed.
Lemma not_a_digit_dot (d : N) : pretty_N_char d ≠ "."%char.
Proof. unfold pretty_N_char. by repeat case_match. Qed.

Lemma pretty_nat_plain (n : nat) :
  occurs "_" (pretty n) = false ∧ occurs "." (pretty n) = false.
Proof.
  unfold pretty, pretty_nat.
  split; apply pretty_N_occurs; [apply not_a_digit_underscore|apply not_a_digit_dot].
Qed.

Lemma pretty_Z_plain (z : Z) :
  occurs "_" (pretty z) = false ∧ occurs "." (pretty z) = false.
Proof.
  unfold pretty, pretty_Z. destruct z as [|p|p]; [done|..];
    unfold pretty, pretty_positive; simpl;
    split; apply pretty_N_occurs;
      (apply not_a_digit_underscore || apply not_a_digit_dot).
Qed.

(** A decimal numeral starts with a digit other than 0, unless it is
    "0". *)
Lemma pretty_N_go_leading (x : N) (s : string) :
  (0 < x)%N →
  ∃ c rest, pretty_N_go x s = String c rest
            ∧ c ≠ "0"%char ∧ c ≠ "+"%char ∧ c ≠ "-"%char.
Proof.
  revert s. induction (N.lt_wf_0 x) as [x _ IH]; intros s Hx.
  rewrite pretty_N_go_step by done.
  destruct (decide (x `div` 10 = 0)%N) as [Hdiv|Hdiv].
  - rewrite Hdiv, pretty_N_go_0. eexists _, _. split; [done|].
    assert (x < 10)%N by (by apply N.div_small_iff in Hdiv).
    rewrite N.mod_small by done.
    assert (x = 1 ∨ x = 2 ∨ x = 3 ∨ x = 4 ∨ x = 5 ∨ x = 6
            ∨ x = 7 ∨ x = 8 ∨ x = 9)%N as Hcases by lia.
    destruct Hcases as [->|[->|[->|[->|[->|[->|[->|[->| ->]]]]]]]]; done.
  - apply IH; [apply N.div_lt; lia|].
    apply N.neq_0_lt_0. exact Hdiv.
Qed.

Lemma pretty_Z_leading (z : Z) :
  0 ≤ z →
  pretty z = "0"
  ∨ ∃ c rest, pretty z = String c rest
              ∧ c ≠ "0"%char ∧ c ≠ "+"%char ∧ c ≠ "-"%char.
Proof.
  intros Hz. destruct z as [|p|p]; [by left|right|lia].
  unfold pretty, pretty_Z, pretty, pretty_positive, pretty, pretty_N.
  rewrite decide_False by done. apply pretty_N_go_leading. lia.
Qed.

Lemma strip_zeros_zeros (n : nat) (s : string) :
  strip_zeros (zeros n +:+ s) = strip_zeros s.
Proof. induction n as [|n IH]; [done|]. exact IH. Qed.

(** Padding a numeral of a number that is not negative loses nothing. *)
Lemma zfill_pretty_inj (w1 w2 : nat) (z1 z2 : Z) :
  0 ≤ z1 → 0 ≤ z2 →
  zfill w1 (pretty z1) = zfill w2 (pretty z2) → z1 = z2.
Proof.
  intros H1 H2 Heq. apply (inj pretty).
  assert (∀ w z, 0 ≤ z → strip_zeros (zfill w (pretty z)) = strip_zeros (pretty z))
    as Hstrip.
  { intros w z Hz. unfold zfill.
    destruct (pretty_Z_leading z Hz) as [->|(c & rest & -> & ? & ? & ?)].
    - simpl. apply strip_zeros_zeros.
    - rewrite bool_decide_eq_false_2 by tauto. apply strip_zeros_zeros. }
  apply (f_equal strip_zeros) in Heq. rewrite !Hstrip in Heq by done.
  destruct (pretty_Z_leading z1 H1) as [E1|(c1 & r1 & E1 & ? & _)],
           (pretty_Z_leading z2 H2) as [E2|(c2 & r2 & E2 & ? & _)];
    rewrite E1, E2 in *; simpl in Heq;
    rewrite ?bool_decide_eq_false_2 in Heq by done; done.
Qed.

Lemma zfill_plain (c : ascii) (w : nat) (s : string) :
  c ≠ "0"%char → occurs c s = false → occurs c (zfill w s) = false.
Proof.
  intros Hc Hs.
  assert (∀ n t, occurs c t = false → occurs c (zeros n +:+ t) = false) as Hz.
  { intros n t Ht. induction n as [|n IH]; [done|].
    change (occurs c (String "0" (zeros n +:+ t)) = false).
    cbn [occurs]. rewrite IH. by rewrite bool_decide_eq_false_2. }
  assert (∀ n, occurs c (zeros n) = false) as Hz0.
  { intros n. induction n as [|n IH]; [done|].
    cbn [zeros occurs]. rewrite IH. by rewrite bool_decide_eq_false_2. }
  unfold zfill. destruct s as [|c' rest]; [apply Hz0|].
  destruct (bool_decide _); [|by apply Hz].
  cbn [occurs] in *. apply orb_false_elim in Hs as [-> Hrest]. by apply Hz.
Qed.

Lemma get_shortened_label_plain (label : string) :
  occurs "_" (get_shortened_label label) = false
  ∧ occurs "." (get_shortened_label label) = false.
Proof.
  unfold get_shortened_label.
  destruct (label_map !! label) as [code|] eqn:Hcode; simpl; [|done].
  unfold label_map in Hcode. apply elem_of_list_to_map_2 in Hcode.
  repeat (apply elem_of_cons in Hcode as [[= _ ->]|Hcode]; [done|]).
  by apply elem_of_nil in Hcode.
Qed.

(** Two page regions are written to the same file only if they carry
    the same page number, the same order position and the same label
    code: on a page whose order positions are distinct and not
    negative, no region image overwrites another. *)
Theorem page_region_file_names_distinct
    (page1 page2 images1 images2 : nat) (region1 region2 : box7) (name : string) :
  region_file_name page1 images1 (PageRegion region1) = Some name →
  region_file_name page2 images2 (PageRegion region2) = Some name →
  0 ≤ position region1 → 0 ≤ position region2 →
  page1 = page2
  ∧ position region1 = position region2
  ∧ get_shortened_label (label region1) = get_shortened_label (label region2).
Proof.
  unfold region_file_name.
  destruct (decide (label region1 = "a")); [done|].
  destruct (decide (label region2 = "a")); [done|].
  intros [= <-] [= Heq] Hp1 Hp2.
  change (?a +:+ "_" +:+ ?b) with (a +:+ String "_" b) in Heq.
  apply append_sep_inj in Heq as [Hpage Heq]; try apply pretty_nat_plain.
  apply append_sep_inj in Heq as [Hpad Heq];
    try (apply zfill_plain; [done|apply pretty_Z_plain]).
  change (?a +:+ ".png") with (a +:+ String "." "png") in Heq.
  apply append_sep_inj in Heq as [Hcode _]; try apply get_shortened_label_plain.
  split; [by apply (inj pretty) in Hpage|]. split; [|done].
  symmetry. by eapply zfill_pretty_inj.
Qed.

(** Two different regions of pages with 12 and 99 regions that are
    written to one file: they share the order position 3, and their two
    labels, both outside the closed set, share the code "u". *)
Lemma page_region_file_names_distinct_witness :
  0%nat = 0%nat
  ∧ position (Box7 0 0 15 10 "Header" 0 3) = position (Box7 20 30 40 50 "Sidebar" 7 3)
  ∧ get_shortened_label (label (Box7 0 0 15 10 "Header" 0 3))
    = get_shortened_label (label (Box7 20 30 40 50 "Sidebar" 7 3)).
Proof.
  apply (page_region_file_names_distinct 0 0 12 99
           (Box7 0 0 15 10 "Header" 0 3) (Box7 20 30 40 50 "Sidebar" 7 3)
           "0_03_u.png");
    [reflexivity|reflexivity|simpl; lia|simpl; lia].
Defined.

(** The regions of one page before and after the tenth. *)
Example region_file_name_padding :
  region_file_name 2 12 (PageRegion (Box7 0 0 15 10 "Title" 0 3)) = Some "2_03_i.png"
  ∧ region_file_name 2 12 (PageRegion (Box7 0 0 15 10 "Table" 4 11))
    = Some "2_11_a.png"
  ∧ region_file_name 2 12 (PageRegion (Box7 0 0 15 10 "a" 4 11)) = None.
Proof. repeat split; reflexivity. Qed.

(** The file name of a table cell determines the page number, the order
    position of the table, the row and the column, and is never the
    file name of a page region. *)
Theorem cell_filenames_distinct (page1 page2 : nat) (position1 position2 : Z)
    (cell1 cell2 : table_cell) :
  (cell_filename page1 position1 cell1 = cell_filename page2 position2 cell2 →
     page1 = page2 ∧ position1 = position2
     ∧ cell_row_id cell1 = cell_row_id cell2
     ∧ cell_col_id cell1 = cell_col_id cell2)
  ∧ ∀ images region,
      region_file_name page2 images (PageRegion region)
      ≠ Some (cell_filename page1 position1 cell1).
Proof.
  split.
  - unfold cell_filename. intros Heq.
    change (?a +:+ "_a_" +:+ ?b) with (a +:+ String "_" ("a" +:+ String "_" b)) in Heq.
    change (?a +:+ "_" +:+ ?b) with (a +:+ String "_" b) in Heq.
    apply append_sep_inj in Heq as [Hpage Heq]; try apply pretty_nat_plain.
    apply append_sep_inj in Heq as [Hpos Heq]; try apply pretty_Z_plain.
    apply append_sep_inj in Heq as [_ Heq]; try done.
    apply append_sep_inj in Heq as [Hrow Heq]; try apply pretty_Z_plain.
    change (?a +:+ ".png") with (a +:+ String "." "png") in Heq.
    apply append_sep_inj in Heq as [Hcol _]; try apply pretty_Z_plain.
    split; [by apply (inj pretty) in Hpage|].
    split; [by apply (inj pretty) in Hpos|].
    split; [by apply (inj pretty) in Hrow|by apply (inj pretty) in Hcol].
  - intros images region. unfold region_file_name, cell_filename.
    destruct (decide (label region = "a")); [done|]. intros [= Heq].
    change (?a +:+ "_a_" +:+ ?b) with (a +:+ String "_" ("a" +:+ String "_" b)) in Heq.
    change (?a +:+ "_" +:+ ?b) with (a +:+ String "_" b) in Heq.
    apply append_sep_inj in Heq as [_ Heq]; try apply pretty_nat_plain.
    apply append_sep_inj in Heq as [_ Heq];
      try apply pretty_Z_plain; try (apply zfill_plain; [done|apply pretty_Z_plain]).
    apply (f_equal (occurs "_")) in Heq. rewrite occurs_app in Heq.
    rewrite (proj1 (get_shortened_label_plain (label region))) in Heq.
    simpl in Heq. done.
Qed.

Lemma cell_filenames_distinct_witness :
  2%nat = 2%nat ∧ 3 = 3
  ∧ cell_row_id (TableCell (0, 0, 1, 1) 1 0) = cell_row_id (TableCell (5, 5, 6, 6) 1 0)
  ∧ cell_col_id (TableCell (0, 0, 1, 1) 1 0) = cell_col_id (TableCell (5, 5, 6, 6) 1 0).
Proof.
  apply (proj1 (cell_filenames_distinct 2 2 3 3 (TableCell (0, 0, 1, 1) 1 0)
                  (TableCell (5, 5, 6, 6) 1 0))).
  reflexivity.
Defined.

(** ** Label cells of a sheet *)

Section extreme_cells.
Context (key val : CellCoordinate → Z).
Hypothesis key_val_inj : ∀ a b, key a = key b → val a = val b → a = b.

Lemma extreme_step_fold_keys (body : list CellCoordinate) (k : Z) :
  is_Some (foldl (extreme_step key val) ∅ body !! k)
  ↔ ∃ c, c ∈ body ∧ key c = k.
Proof.
  induction body as [|x body IH] using rev_ind.
  { cbn [foldl]. rewrite lookup_empty. split; [by intros []|].
    intros (c & []%elem_of_nil & _). }
  rewrite foldl_snoc. unfold extreme_step at 1.
  set (seen := foldl (extreme_step key val) ∅ body) in *.
  assert (is_Some (<[key x:=x]> seen !! k) ↔ ∃ c, c ∈ body ++ [x] ∧ key c = k)
    as Hins.
  { rewrite lookup_insert_is_Some, IH. split.
    - intros [<-|[_ (c & Hc & Hk)]].
      + exists x. split; [|done]. apply elem_of_app. right. by left.
      + exists c. split; [|done]. apply elem_of_app. by left.
    - intros (c & [Hc| ->%list_elem_of_singleton]%elem_of_app & Hk); [|by left].
      destruct (decide (key x = k)); [by left|right]. split; [done|]. by exists c. }
  destruct (seen !! key x) as [current|] eqn:Hseen; [|done].
  case_bool_decide; [done|]. rewrite IH. split.
  - intros (c & Hc & Hk). exists c. split; [|done]. apply elem_of_app. by left.
  - intros (c & [Hc| ->%list_elem_of_singleton]%elem_of_app & Hk); [by exists c|].
    apply IH. by rewrite <- Hk, Hseen.
Qed.

Lemma extreme_step_fold (body : list CellCoordinate) (k : Z) (c : CellCoordinate) :
  foldl (extreme_step key val) ∅ body !! k = Some c
  ↔ c ∈ body ∧ key c = k ∧ ∀ c', c' ∈ body → key c' = k → val c ≤ val c'.
Proof.
  revert k c. induction body as [|x body IH] using rev_ind; intros k c.
  { cbn [foldl]. rewrite lookup_empty. split; [done|]. intros [[]%elem_of_nil _]. }
  pose proof (extreme_step_fold_keys body (key x)) as Hkeys.
  rewrite foldl_snoc. unfold extreme_step at 1.
  set (seen := foldl (extreme_step key val) ∅ body) in *.
  assert (∀ c', c' ∈ body ++ [x] ↔ c' ∈ body ∨ c' = x) as Hin.
  { intros c'. rewrite elem_of_app, list_elem_of_singleton. tauto. }
  assert (x ∈ body ++ [x]) as Hx by (apply Hin; by right).
  assert (k ≠ key x →
          (seen !! k = Some c
           ↔ c ∈ body ++ [x] ∧ key c = k
             ∧ ∀ c', c' ∈ body ++ [x] → key c' = k → val c ≤ val c')) as Hother.
  { intros Hk. rewrite IH. split.
    - intros (Hc & Hk' & Hmin'). split; [apply Hin; by left|]. split; [done|].
      intros c' [Hc'| ->]%Hin Hk''; [by apply Hmin'|congruence].
    - intros ([Hc| ->]%Hin & Hk' & Hmin'); [|congruence].
      split; [done|]. split; [done|].
      intros c' Hc'. apply Hmin', Hin. by left. }
  destruct (seen !! key x) as [current|] eqn:Hseen.
  - apply IH in Hseen as (Hcur & Hkey & Hmin).
    case_bool_decide as Hlt.
    + destruct (decide (k = key x)) as [->|Hk];
        [|by rewrite lookup_insert_ne by done; apply Hother].
      rewrite lookup_insert_eq. split.
      * intros [= <-]. split; [done|]. split; [done|].
        intros c' [Hc'| ->]%Hin Hk'; [|lia]. specialize (Hmin c' Hc' Hk'). lia.
      * intros ([Hc| ->]%Hin & Hk & Hmin'); [|done].
        specialize (Hmin' x Hx eq_refl). specialize (Hmin c Hc Hk). lia.
    + destruct (decide (k = key x)) as [->|Hk]; [|by apply Hother].
      rewrite IH. split.
      * intros (Hc & Hk' & Hmin'). split; [apply Hin; by left|]. split; [done|].
        intros c' [Hc'| ->]%Hin Hk''; [by apply Hmin'|].
        specialize (Hmin' _ Hcur Hkey). lia.
      * intros ([Hc| ->]%Hin & Hk' & Hmin').
        -- split; [done|]. split; [done|].
           intros c' Hc'. apply Hmin', Hin. by left.
        -- assert (current ∈ body ++ [x]) as Hcur' by (apply Hin; by left).
           specialize (Hmin' current Hcur' Hkey).
           assert (x = current) as -> by (apply key_val_inj; [done|lia]).
           done.
  - assert (∀ c', c' ∈ body → key c' ≠ key x) as Hfresh.
    { intros c' Hc' Hk'.
      destruct (proj2 Hkeys) as [? [=]]. by exists c'. }
    destruct (decide (k = key x)) as [->|Hk];
      [|by rewrite lookup_insert_ne by done; apply Hother].
    rewrite lookup_insert_eq. split.
    + intros [= <-]. split; [done|]. split; [done|].
      intros c' [Hc'| ->]%Hin Hk'; [by destruct (Hfresh c' Hc')|lia].
    + intros ([Hc| ->]%Hin & Hk & _); [by destruct (Hfresh c Hc)|done].
Qed.

Lemma extreme_cells_spec (bodies : list (list CellCoordinate)) (c : CellCoordinate) :
  c ∈ extreme_cells key val bodies
  ↔ ∃ body, body ∈ bodies ∧ c ∈ body
            ∧ ∀ c', c' ∈ body → key c' = key c → val c ≤ val c'.
Proof.
  unfold extreme_cells.
  induction bodies as [|body bodies IH] using rev_ind.
  { cbn [foldl]. rewrite elem_of_empty. split; [done|].
    intros (body & []%elem_of_nil & _). }
  rewrite foldl_snoc, elem_of_union, IH, elem_of_map_img. split.
  - intros [(b & Hb & Hc)|(k & (Hc & Hk & Hmin)%extreme_step_fold)].
    + exists b. split; [|done]. apply elem_of_app. by left.
    + exists body. split; [apply elem_of_app; right; by left|]. split; [done|].
      intros c' Hc' Hk'. apply Hmin; [done|congruence].
  - intros (b & [Hb| ->%list_elem_of_singleton]%elem_of_app & Hc & Hmin).
    + left. by exists b.
    + right. exists (key c). apply extreme_step_fold. done.
Qed.
End extreme_cells.

(** [find_left_cells] returns the cells that stand leftmost in their
    row within one of the bodies, and [find_top_cells] those that stand
    topmost in their column within one of the bodies, in whatever order
    the cells of a body are met. *)
Theorem find_left_top_cells_spec (bodies : list (list CellCoordinate))
    (c : CellCoordinate) :
  (c ∈ find_left_cells bodies
   ↔ ∃ body, body ∈ bodies ∧ c ∈ body
             ∧ ∀ c', c' ∈ body → row c' = row c → col c ≤ col c')
  ∧ (c ∈ find_top_cells bodies
     ↔ ∃ body, body ∈ bodies ∧ c ∈ body
               ∧ ∀ c', c' ∈ body → col c' = col c → row c ≤ row c').
Proof.
  split; apply extreme_cells_spec; intros [r1 c1] [r2 c2]; unfold row, col; simpl;
    congruence.
Qed.

Lemma group_append_keys (k0 : Z) (cell : CellCoordinate)
    (groups : list (Z * list CellCoordinate)) :
  (group_append k0 cell groups).*1
  = if decide (k0 ∈ groups.*1) then groups.*1 else groups.*1 ++ [k0].
Proof.
  induction groups as [|[k cells] groups IH]; [done|]. cbn [group_append].
  destruct (decide (k = k0)) as [->|Hk]; csimpl.
  - rewrite decide_True by left. done.
  - rewrite IH. destruct (decide (k0 ∈ groups.*1)).
    + rewrite decide_True by (by right). done.
    + rewrite decide_False; [done|]. intros [?|?]%elem_of_cons; congruence.
Qed.

Lemma group_append_elem (k0 : Z) (cell : CellCoordinate)
    (groups : list (Z * list CellCoordinate)) (k : Z) (cells : list CellCoordinate) :
  NoDup groups.*1 →
  (k, cells) ∈ group_append k0 cell groups
  ↔ (k ≠ k0 ∧ (k, cells) ∈ groups)
    ∨ (k = k0 ∧ ∃ old, cells = old ++ [cell]
                       ∧ ((k0, old) ∈ groups ∨ (old = [] ∧ k0 ∉ groups.*1))).
Proof.
  induction groups as [|[k' cells'] groups IH]; intros Hnd.
  { cbn [group_append]. rewrite list_elem_of_singleton. split.
    - intros [= -> ->]. right. split; [done|]. exists []. split; [done|].
      right. split; [done|]. apply not_elem_of_nil.
    - intros [[_ []%elem_of_nil]|(-> & old & -> & [[]%elem_of_nil|[-> _]])]. done. }
  apply NoDup_cons in Hnd as [Hk' Hnd]. specialize (IH Hnd).
  cbn [group_append]. destruct (decide (k' = k0)) as [->|Hne].
  - setoid_rewrite elem_of_cons. split.
    + intros [[= -> ->]|Hin].
      * right. split; [done|]. exists cells'. split; [done|]. left. by left.
      * left. split; [|by right]. intros ->. apply Hk'.
        apply list_elem_of_fmap. by exists (k0, cells).
    + intros [[Hk [[= -> ->]|Hin]]|(-> & old & -> & [[[= ->]|Hin]|[_ Hnot]])].
      * done.
      * by right.
      * by left.
      * destruct Hk'. apply list_elem_of_fmap. by exists (k0, old).
      * destruct Hnot. by left.
  - setoid_rewrite elem_of_cons. rewrite IH. split.
    + intros [[= -> ->]|[[Hk Hin]|(-> & old & -> & [Hin|[-> Hnot]])]].
      * left. split; [done|]. by left.
      * left. split; [done|]. by right.
      * right. split; [done|]. exists old. split; [done|]. left. by right.
      * right. split; [done|]. exists []. split; [done|]. right. split; [done|].
        intros [?|?]; simpl in *; [congruence|by apply Hnot].
    + intros [[Hk [[= -> ->]|Hin]]|(-> & old & -> & [[[= ->]|Hin]|[-> Hnot]])].
      * by left.
      * right. left. done.
      * done.
      * right. right. split; [done|]. exists old. split; [done|]. by left.
      * right. right. split; [done|]. exists []. split; [done|]. right.
        split; [done|]. intros Hin. apply Hnot. by right.
Qed.

Section unique_cells.
Context (key : CellCoordinate → Z).

Lemma groups_spec (body : list CellCoordinate) :
  let groups := foldl (λ groups cell, group_append (key cell) cell groups) [] body in
  NoDup groups.*1
  ∧ ∀ k cells, (k, cells) ∈ groups
               ↔ cells = filter (λ c, key c = k) body ∧ cells ≠ [].
Proof.
  induction body as [|x body IH] using rev_ind.
  { cbn. split; [constructor|]. intros k cells. split; [intros []%elem_of_nil|].
    by intros [-> ?]. }
  cbn zeta in *. rewrite foldl_snoc.
  set (groups := foldl _ [] body) in *. destruct IH as [Hnd IH]. split.
  { rewrite group_append_keys. case_decide; [done|].
    apply NoDup_app. split; [done|]. split; [|apply NoDup_singleton].
    by intros k Hk ->%list_elem_of_singleton. }
  intros k cells. rewrite group_append_elem by done. rewrite filter_app.
  assert (key x ∈ groups.*1 ↔ filter (λ c, key c = key x) body ≠ []) as Hkeys.
  { split.
    - intros ([k' old] & Hk & Hin)%list_elem_of_fmap. simpl in Hk.
      apply IH in Hin as [-> Hne]. by rewrite Hk.
    - intros Hne. apply list_elem_of_fmap.
      exists (key x, filter (λ c, key c = key x) body). split; [done|]. by apply IH. }
  destruct (decide (k = key x)) as [->|Hk].
  - rewrite filter_cons_True, filter_nil by done. split.
    + intros [[? _]|(_ & old & -> & [Hin|[-> Hnot]])]; [done|..].
      * apply IH in Hin as [<- _]. split; [done|]. by destruct old.
      * split; [|done]. f_equal.
        destruct (filter _ body) eqn:Hf; [done|]. destruct Hnot. by apply Hkeys.
    + intros [-> _]. right. split; [done|]. eexists. split; [done|].
      destruct (filter (λ c, key c = key x) body) eqn:Hf.
      * right. split; [done|]. intros Hin%Hkeys. done.
      * left. apply IH. by rewrite Hf.
  - rewrite filter_cons_False, filter_nil, app_nil_r by congruence. rewrite IH.
    split; [intros [[_ ?]|[? _]]; done|]. intros ?. by left.
Qed.

Lemma filter_singleton (body : list CellCoordinate) (k : Z) (cell : CellCoordinate) :
  NoDup body →
  filter (λ c, key c = k) body = [cell]
  ↔ cell ∈ body ∧ key cell = k ∧ ∀ c', c' ∈ body → key c' = k → c' = cell.
Proof.
  intros Hnd. split.
  - intros Hf.
    assert (∀ c, key c = k ∧ c ∈ body ↔ c = cell) as Hin.
    { intros c. split.
      - intros Hc%(list_elem_of_filter (λ c, key c = k)).
        rewrite Hf in Hc. by apply list_elem_of_singleton in Hc.
      - intros ->. apply (list_elem_of_filter (λ c, key c = k)).
        rewrite Hf. by left. }
    destruct (proj2 (Hin cell) eq_refl) as [? ?]. split; [done|]. split; [done|].
    intros c' ? ?. by apply Hin.
  - intros (Hcell & Hk & Huniq).
    pose proof (NoDup_filter (λ c, key c = k) _ Hnd) as Hndf.
    assert (cell ∈ filter (λ c, key c = k) body) as Hin
      by (by apply list_elem_of_filter).
    assert (∀ c, c ∈ filter (λ c, key c = k) body → c = cell) as Hall.
    { intros c [? ?]%list_elem_of_filter. by apply Huniq. }
    destruct (filter (λ c, key c = k) body) as [|a [|b l]].
    + by apply elem_of_nil in Hin.
    + f_equal. apply Hall. by left.
    + apply NoDup_cons in Hndf as [Hnot _]. destruct Hnot.
      rewrite (Hall a) by (by left). rewrite (Hall b) by (right; by left). by left.
Qed.

Lemma unique_cells_spec (body : list CellCoordinate) :
  NoDup body → body ≠ [] →
  ∃ result, unique_cells key body = Returns result
    ∧ ∀ cell, cell ∈ result
              ↔ cell ∈ body
                ∧ (∀ c', c' ∈ body → key c' = key cell → c' = cell)
                ∧ ∃ c', c' ∈ body ∧ key cell < key c'.
Proof.
  intros Hnd Hne. unfold unique_cells.
  destruct (groups_spec body) as [Hkeys Hgroups].
  set (groups := foldl _ [] body) in *.
  assert (min_key key body = Returns (py_min (key <$> body))) as ->
    by (by destruct body).
  eexists. split; [reflexivity|]. intros cell. rewrite list_elem_of_omap.
  assert (∀ k, existsb (λ other, bool_decide (k < other)) groups.*1 = true
               ↔ ∃ c', c' ∈ body ∧ k < key c') as Hright.
  { intros k. rewrite existsb_exists. split.
    - intros (other & ([k' cells] & -> & Hin)%list_elem_of_In%list_elem_of_fmap
              & Hlt%bool_decide_eq_true).
      apply Hgroups in Hin as [-> Hcells]. simpl in Hlt.
      destruct (filter (λ c, key c = k') body) as [|c' l] eqn:Hf; [done|].
      assert (c' ∈ filter (λ c, key c = k') body) as [<- ?]%list_elem_of_filter
        by (rewrite Hf; by left).
      by exists c'.
    - intros (c' & Hc' & Hlt). exists (key c'). split; [|by apply bool_decide_eq_true].
      apply list_elem_of_In, list_elem_of_fmap.
      exists (key c', filter (λ c, key c = key c') body). split; [done|].
      apply Hgroups. split; [done|].
      intros Hf. assert (c' ∈ filter (λ c, key c = key c') body) as Hin
        by (by apply list_elem_of_filter).
      rewrite Hf in Hin. by apply elem_of_nil in Hin. }
  split.
  - intros ([k cells] & Hin & Hsel). apply Hgroups in Hin as [-> _].
    destruct (bool_decide _) eqn:Hlen; [|done]. apply bool_decide_eq_true in Hlen.
    destruct (existsb _ _) eqn:Hex; [|done]. simpl in Hsel.
    destruct (filter (λ c, key c = k) body) as [|c [|??]] eqn:Hf; try done.
    injection Hsel as ->.
    apply filter_singleton in Hf as (? & <- & ?); [|done].
    split; [done|]. split; [done|]. by apply Hright.
  - intros (Hcell & Huniq & Hlt).
    exists (key cell, [cell]). split.
    + apply Hgroups. split; [|done]. symmetry. by apply filter_singleton.
    + simpl. apply Hright in Hlt. by rewrite Hlt.
Qed.
End unique_cells.

(** On a body that is not empty, [find_unique_leftmost_cells] returns
    the cells that stand alone in their column and have a cell of the
    body in a column further right: the cell need not be leftmost, and
    a cell of the rightmost column never qualifies.
    [find_unique_topmost_cells] does the same with rows.  On an empty
    body both raise [ValueError]. *)
Theorem find_unique_cells_spec (continuous_body : list CellCoordinate) :
  NoDup continuous_body →
  (continuous_body = [] →
     find_unique_leftmost_cells continuous_body = Raises ValueError
     ∧ find_unique_topmost_cells continuous_body = Raises ValueError)
  ∧ (continuous_body ≠ [] →
     (∃ result, find_unique_leftmost_cells continuous_body = Returns result
        ∧ ∀ cell, cell ∈ result
                  ↔ cell ∈ continuous_body
                    ∧ (∀ c', c' ∈ continuous_body → col c' = col cell → c' = cell)
                    ∧ ∃ c', c' ∈ continuous_body ∧ col cell < col c')
     ∧ (∃ result, find_unique_topmost_cells continuous_body = Returns result
        ∧ ∀ cell, cell ∈ result
                  ↔ cell ∈ continuous_body
                    ∧ (∀ c', c' ∈ continuous_body → row c' = row cell → c' = cell)
                    ∧ ∃ c', c' ∈ continuous_body ∧ row cell < row c')).
Proof.
  intros Hnd. split; [by intros ->|]. intros Hne.
  split; by apply unique_cells_spec.
Qed.

Lemma find_unique_cells_spec_witness :
  (∃ result, find_unique_leftmost_cells l_shaped_body = Returns result
     ∧ ∀ cell, cell ∈ result
               ↔ cell ∈ l_shaped_body
                 ∧ (∀ c', c' ∈ l_shaped_body → col c' = col cell → c' = cell)
                 ∧ ∃ c', c' ∈ l_shaped_body ∧ col cell < col c')
  ∧ (∃ result, find_unique_topmost_cells l_shaped_body = Returns result
     ∧ ∀ cell, cell ∈ result
               ↔ cell ∈ l_shaped_body
                 ∧ (∀ c', c' ∈ l_shaped_body → row c' = row cell → c' = cell)
                 ∧ ∃ c', c' ∈ l_shaped_body ∧ row cell < row c').
Proof.
  apply (find_unique_cells_spec l_shaped_body).
  - apply (bool_decide_unpack _). by vm_compute.
  - discriminate.
Defined.

Example find_unique_cells_l_shaped :
  find_unique_leftmost_cells l_shaped_body = Returns [(1, 1)]
  ∧ find_unique_topmost_cells l_shaped_body = Returns [(0, 0)]
  ∧ find_left_cells [l_shaped_body] = {[(0, 0); (1, 0)]}
  ∧ find_top_cells [l_shaped_body] = {[(0, 0); (1, 1); (1, 2)]}.
Proof. repeat split; apply (bool_decide_unpack _); by vm_compute. Qed.

(** ** Continuous bodies of a sheet *)

Lemma adjacent_sym (a b : CellCoordinate) : adjacent a b → adjacent b a.
Proof. unfold adjacent. lia. Qed.

Lemma bind_Returns {A B : Type} (f : A → outcome B) (a : A) : Returns a ≫= f = f a.
Proof. done. Qed.

Lemma py_index_lookup {A : Type} (l : list A) (i : Z) (x : A) :
  0 ≤ i → l !! Z.to_nat i = Some x → py_index l i = Returns x.
Proof. intros Hi Hx. unfold py_index. rewrite bool_decide_eq_true_2 by done. by rewrite Hx. Qed.

Lemma size_list_to_set_le (l : list CellCoordinate) :
  (size (list_to_set (C:=gset CellCoordinate) l) ≤ length l)%nat.
Proof.
  induction l as [|x l IH]; [done|]. cbn [list_to_set length].
  rewrite size_union_alt, size_singleton.
  pose proof (subseteq_size (list_to_set l ∖ {[x]}) (list_to_set (C:=gset CellCoordinate) l))
    as Hsub.
  assert (list_to_set l ∖ {[x]} ⊆ list_to_set (C:=gset CellCoordinate) l) as Hs
    by (intros c [? _]%elem_of_difference; done).
  specialize (Hsub Hs). lia.
Qed.

Lemma visit_all (neighbors : list CellCoordinate) (state : fill_state) :
  body state ⊆ visited state →
  visited (foldl visit state neighbors) = visited state ∪ list_to_set neighbors
  ∧ body (foldl visit state neighbors)
    = body state ∪ (list_to_set neighbors ∖ visited state)
  ∧ (∀ c, c ∈ to_visit (foldl visit state neighbors)
          ↔ c ∈ to_visit state ∨ (c ∈ neighbors ∧ c ∉ visited state))
  ∧ (length (to_visit (foldl visit state neighbors)) + size (body state)
     = length (to_visit state) + size (body (foldl visit state neighbors)))%nat.
Proof.
  revert state. induction neighbors as [|n l IH]; intros state Hsub.
  { cbn [foldl list_to_set]. split; [set_solver|]. split; [set_solver|].
    split; [|done]. intros c. rewrite elem_of_nil. tauto. }
  cbn [foldl list_to_set].
  destruct (decide (n ∈ visited state)) as [Hn|Hn].
  - assert (visit state n = state) as -> by (unfold visit; by rewrite decide_True).
    destruct (IH state Hsub) as (Hv & Hb & Hq & Hlen).
    split; [rewrite Hv; set_solver|]. split; [rewrite Hb; set_solver|].
    split; [|exact Hlen].
    intros c. rewrite Hq, elem_of_cons. split; [tauto|].
    intros [?|[[->|?] ?]]; tauto.
  - set (state' := {| visited := visited state ∪ {[n]}; body := body state ∪ {[n]};
                     to_visit := to_visit state ++ [n] |}).
    assert (visit state n = state') as -> by (unfold visit; by rewrite decide_False).
    destruct (IH state') as (Hv & Hb & Hq & Hlen); [subst state'; simpl; set_solver|].
    subst state'. cbn [visited body to_visit] in *.
    split; [rewrite Hv; set_solver|]. split.
    { rewrite Hb. apply set_eq. intros c. destruct (decide (c = n)); set_solver. }
    split.
    + intros c. rewrite Hq, elem_of_app, list_elem_of_singleton, elem_of_cons.
      rewrite elem_of_union, elem_of_singleton.
      destruct (decide (c = n)) as [->|]; tauto.
    + rewrite length_app in Hlen. cbn [length] in Hlen.
      rewrite (size_union (body state) {[n]}) in Hlen by set_solver.
      rewrite size_singleton in Hlen. lia.
Qed.

Section continuous_bodies.
Context {value : Type} (is_cell_empty : value → bool) (data : list (list value)).

Lemma first_row (r : Z) :
  0 ≤ r < Z.of_nat (length data) →
  ∃ first, head data = Some first ∧ py_index data 0 = Returns first.
Proof.
  intros Hr. destruct data as [|first rest]; [simpl in Hr; lia|].
  by exists first.
Qed.

Lemma is_valid_spec (r c : Z) :
  is_valid data r c
  = Returns (bool_decide (0 ≤ r < Z.of_nat (length data))
             && bool_decide (0 ≤ c < Z.of_nat (length (default [] (head data))))).
Proof.
  unfold is_valid. case_bool_decide as Hr; [|done].
  destruct (first_row r Hr) as (first & -> & ->). done.
Qed.

Lemma cell_value_valid (r c : Z) :
  0 ≤ r < Z.of_nat (length data) →
  0 ≤ c < Z.of_nat (length (default [] (head data))) →
  (∃ v, cell_value data r c = Returns v
        ∧ data !! Z.to_nat r ≫= (.!! Z.to_nat c) = Some v)
  ∨ (cell_value data r c = Raises IndexError ∧ ¬ no_short_row data).
Proof.
  intros Hr Hc.
  destruct (lookup_lt_is_Some_2 data (Z.to_nat r)) as [line Hline]; [lia|].
  unfold cell_value. rewrite (py_index_lookup data r line), bind_Returns by (done || lia).
  destruct (decide (Z.to_nat c < length line)%nat) as [Hlt|Hge].
  - destruct (lookup_lt_is_Some_2 line (Z.to_nat c)) as [v Hv]; [lia|].
    left. exists v. rewrite (py_index_lookup line c v) by (done || lia).
    by rewrite Hline.
  - right. split.
    + unfold py_index. rewrite bool_decide_eq_true_2 by lia.
      by rewrite lookup_ge_None_2 by lia.
    + intros Hrows.
      pose proof (proj1 (Forall_lookup _ _) Hrows _ _ Hline) as Hlen.
      cbv beta in Hlen. lia.
Qed.

(** What [get_neighbors] decides about one direction. *)
Lemma neighbor_kept (r c : Z) {B : Type} (k : bool → outcome B) :
  let run :=
    valid ← is_valid data r c;
    keep ← (if valid : bool then
              v ← cell_value data r c; Returns (negb (is_cell_empty v))
            else Returns false);
    k keep in
  run = k (filled is_cell_empty data (r, c))
  ∨ (run = Raises IndexError ∧ ¬ no_short_row data).
Proof.
  cbv zeta. rewrite is_valid_spec, bind_Returns. unfold filled, row, col. cbn [fst snd].
  destruct (bool_decide (0 ≤ r < _)) eqn:Hr; [|by left].
  destruct (bool_decide (0 ≤ c < _)) eqn:Hc; [|by left].
  apply bool_decide_eq_true in Hr, Hc. cbn [andb].
  destruct (cell_value_valid r c Hr Hc) as [(v & -> & ->)|[-> Hshort]];
    [by left|by right].
Qed.

Lemma neighbors_in_spec (r c : Z) (steps : list (Z * Z)) :
  neighbors_in is_cell_empty data r c steps
  = Returns (filter (λ n, filled is_cell_empty data n = true)
               ((λ step, (r + step.1, c + step.2)) <$> steps))
  ∨ (neighbors_in is_cell_empty data r c steps = Raises IndexError
     ∧ ¬ no_short_row data).
Proof.
  induction steps as [|[dr dc] steps IH]; [by left|].
  cbn [neighbors_in].
  destruct (neighbor_kept (r + dr) (c + dc)
              (λ keep, rest ← neighbors_in is_cell_empty data r c steps;
                       Returns (if keep : bool then (r + dr, c + dc) :: rest else rest)))
    as [->|[-> Hshort]]; [|by right].
  destruct IH as [->|[-> Hshort]]; [left|by right].
  rewrite bind_Returns, fmap_cons, filter_cons. cbn [fst snd].
  destruct (filled is_cell_empty data (r + dr, c + dc)) eqn:Hf.
  - by rewrite decide_True.
  - by rewrite decide_False.
Qed.

Lemma get_neighbors_elem (coord : CellCoordinate) :
  (∃ neighbors, get_neighbors is_cell_empty data coord = Returns neighbors
     ∧ ∀ n, n ∈ neighbors ↔ adjacent coord n ∧ filled is_cell_empty data n = true)
  ∨ (get_neighbors is_cell_empty data coord = Raises IndexError
     ∧ ¬ no_short_row data).
Proof.
  unfold get_neighbors.
  destruct (neighbors_in_spec (row coord) (col coord) directions) as [->|?];
    [left|by right].
  eexists. split; [done|].
  intros [r' c']. rewrite list_elem_of_filter. destruct coord as [r c].
  unfold directions, adjacent, row, col. cbn [fmap list_fmap fst snd].
  rewrite !elem_of_cons, elem_of_nil. split.
  - intros [Hf Hin]. split; [|done].
    destruct Hin as [[= -> ->]|[[= -> ->]|[[= -> ->]|[[= -> ->]|[]]]]]; lia.
  - intros [Hadj Hf]. split; [done|].
    destruct Hadj as [[<- [->| ->]]|[<- [->| ->]]].
    + left. f_equal; lia.
    + right; right; left. f_equal; lia.
    + right; left. f_equal; lia.
    + right; right; right; left. f_equal; lia.
Qed.

Lemma filled_valid (coord : CellCoordinate) :
  filled is_cell_empty data coord = true →
  0 ≤ row coord < Z.of_nat (length data)
  ∧ 0 ≤ col coord < Z.of_nat (length (default [] (head data))).
Proof.
  unfold filled. intros [[Hr Hc]%andb_true_iff _]%andb_true_iff.
  by apply bool_decide_eq_true in Hr, Hc.
Qed.

Lemma filled_bound (cells : gset CellCoordinate) :
  (∀ c, c ∈ cells → filled is_cell_empty data c = true) →
  (size cells ≤ cell_count data)%nat.
Proof.
  intros Hcells. unfold cell_count.
  set (rows := length data). set (cols := length (default [] (head data))).
  set (grid := r ← seqZ 0 (Z.of_nat rows); (λ c, (r, c)) <$> seqZ 0 (Z.of_nat cols)).
  assert (∀ l : list Z,
            length (r ← l; (λ c, (r, c)) <$> seqZ 0 (Z.of_nat cols))
            = (length l * cols)%nat) as Hlen.
  { induction l as [|r l IH]; [done|]. csimpl.
    rewrite length_app, length_fmap, length_seqZ, IH. lia. }
  trans (size (list_to_set (C:=gset CellCoordinate) grid)).
  - apply subseteq_size. intros [r c] Hc. apply elem_of_list_to_set.
    apply Hcells, filled_valid in Hc as [Hr Hc]. unfold row, col in *. simpl in *.
    apply list_elem_of_bind. exists r. split.
    + apply list_elem_of_fmap. exists c. split; [done|]. apply elem_of_seqZ. lia.
    + apply elem_of_seqZ. lia.
  - etrans; [apply size_list_to_set_le|]. unfold grid. rewrite Hlen, length_seqZ. lia.
Qed.

Lemma linked_sym (a b : CellCoordinate) :
  linked is_cell_empty data a b → linked is_cell_empty data b a.
Proof. intros (Hadj & Ha & Hb). split; [by apply adjacent_sym|done]. Qed.

Lemma rtc_linked_sym (a b : CellCoordinate) :
  rtc (linked is_cell_empty data) a b → rtc (linked is_cell_empty data) b a.
Proof.
  induction 1 as [|a b c Hab _ IH]; [done|].
  eapply rtc_r; [exact IH|]. by apply linked_sym.
Qed.

(** The loop of [flood_fill] ends before its fuel does: it keeps its
    invariant until the queue is empty, unless a short row stops it. *)
Lemma flood_loop_spec (visited0 : gset CellCoordinate) (start : CellCoordinate)
    (fuel : nat) (state : fill_state) :
  fill_invariant is_cell_empty data visited0 start state →
  (cell_count data + length (to_visit state) ≤ size (body state) + fuel)%nat →
  (∃ state', flood_loop is_cell_empty data fuel state = Returns state'
             ∧ fill_invariant is_cell_empty data visited0 start state'
             ∧ to_visit state' = [])
  ∨ (flood_loop is_cell_empty data fuel state = Raises IndexError
     ∧ ¬ no_short_row data).
Proof.
  revert state. induction fuel as [|fuel IH]; intros [V B Q] Hinv Hfuel;
    pose proof Hinv as (Hv & Hd & Hs & Hq & Hf & Hc & Hcl);
    cbn [visited body to_visit] in *; pose proof (filled_bound _ Hf) as Hbound.
  { destruct Q as [|current rest]; [|simpl in Hfuel; lia]. left. by eexists. }
  destruct Q as [|current rest]; [left; by eexists|].
  cbn [flood_loop to_visit visited body].
  destruct (get_neighbors_elem current) as [(neighbors & -> & Hn)|[-> Hshort]];
    [|by right].
  rewrite bind_Returns.
  assert (current ∈ B) as Hcurrent by (apply Hq; by left).
  destruct (visit_all neighbors (FillState V B rest)) as (Hv' & Hb' & Hq' & Hlen');
    [cbn; set_solver|].
  cbn [visited body to_visit] in *.
  set (state' := foldl visit (FillState V B rest) neighbors) in *.
  apply IH; [|simpl in Hfuel; lia].
  assert (∀ c, c ∈ body state' ↔ c ∈ B ∨ (c ∈ neighbors ∧ c ∉ V)) as Hbody.
  { intros c. rewrite Hb', elem_of_union, elem_of_difference, elem_of_list_to_set.
    done. }
  assert (∀ c, c ∈ visited state' ↔ c ∈ V ∨ c ∈ neighbors) as Hvisited.
  { intros c. by rewrite Hv', elem_of_union, elem_of_list_to_set. }
  assert (∀ c, c ∈ V ↔ c ∈ visited0 ∨ c ∈ B) as HV.
  { intros c. by rewrite Hv, elem_of_union. }
  split; [|split; [|split; [|split; [|split; [|split]]]]].
  - apply set_eq. intros c. rewrite elem_of_union, Hvisited, Hbody, HV.
    destruct (decide (c ∈ visited0)), (decide (c ∈ B)); tauto.
  - intros c [Hc'|[_ Hc']]%Hbody Hc0.
    + by apply (Hd c).
    + apply Hc', HV. by left.
  - apply Hbody. by left.
  - intros c [Hc'|Hc']%Hq'; apply Hbody; [left|by right]. apply Hq. by right.
  - intros c [Hc'|[Hc' _]]%Hbody; [by apply Hf|]. by apply Hn in Hc' as [_ ?].
  - intros c [Hc'|[Hc' _]]%Hbody; [by apply Hc|].
    apply Hn in Hc' as [Hadj Hfc]. eapply rtc_r; [by apply Hc|].
    split; [done|]. split; [by apply Hf|done].
  - intros c n [Hc'|Hc']%Hbody Hnot Hlink; [|destruct Hnot; apply Hq'; by right].
    apply Hvisited. destruct (decide (c = current)) as [->|Hne].
    + right. apply Hn. destruct Hlink as (? & _ & ?). done.
    + left. apply (Hcl c n); [done| |done].
      intros [->|Hrest]%elem_of_cons; [done|]. apply Hnot, Hq'. by left.
Qed.

Lemma flood_fill_spec (start : CellCoordinate) (visited0 : gset CellCoordinate) :
  start ∉ visited0 → filled is_cell_empty data start = true →
  (∃ body, flood_fill is_cell_empty data start visited0 = Returns (body, visited0 ∪ body)
     ∧ start ∈ body ∧ body ## visited0
     ∧ (∀ c, c ∈ body → filled is_cell_empty data c = true)
     ∧ (∀ c, c ∈ body → rtc (linked is_cell_empty data) start c)
     ∧ (∀ c n, c ∈ body → linked is_cell_empty data c n → n ∈ visited0 ∪ body))
  ∨ (flood_fill is_cell_empty data start visited0 = Raises IndexError
     ∧ ¬ no_short_row data).
Proof.
  intros Hstart Hfilled. unfold flood_fill. rewrite decide_False by done.
  destruct (filled_valid _ Hfilled) as [Hr Hc].
  destruct (cell_value_valid _ _ Hr Hc) as [(v & -> & Hv)|[-> Hshort]]; [|by right].
  rewrite bind_Returns.
  assert (is_cell_empty v = false) as ->.
  { unfold filled in Hfilled. rewrite Hv in Hfilled.
    by apply andb_true_iff in Hfilled as [_ ->%negb_true_iff]. }
  destruct (flood_loop_spec visited0 start (cell_count data)
              (FillState (visited0 ∪ {[start]}) {[start]} [start]))
    as [([V B Q] & -> & Hinv & HQ)|[-> Hshort]]; [| |left|by right].
  - split; [done|]. cbn [visited body to_visit].
    split; [set_solver|]. split; [set_solver|].
    split; [by intros c ->%list_elem_of_singleton; apply elem_of_singleton|].
    split; [by intros c ->%elem_of_singleton|].
    split; [by intros c ->%elem_of_singleton|].
    intros c n ->%elem_of_singleton Hnot. destruct Hnot. by left.
  - cbn [visited body to_visit length]. rewrite size_singleton. lia.
  - destruct Hinv as (Hv' & Hd & Hs & Hq & Hf & Hcn & Hcl).
    cbn [visited body to_visit] in *. subst Q V. cbn.
    exists B. split; [done|]. split; [done|]. split; [done|]. split; [done|].
    split; [done|]. intros c n Hc' Hlink. apply (Hcl c n); [done| |done].
    apply not_elem_of_nil.
Qed.

Lemma filled_readable (coord : CellCoordinate) :
  filled is_cell_empty data coord = true →
  is_Some (data !! Z.to_nat (row coord) ≫= (.!! Z.to_nat (col coord))).
Proof.
  unfold filled. intros [_ Hv]%andb_true_iff.
  by destruct (data !! Z.to_nat (row coord) ≫= (.!! Z.to_nat (col coord))).
Qed.

Lemma scan_cell_spec (r c : Z)
    (state : gset CellCoordinate * list (gset CellCoordinate)) :
  0 ≤ r < Z.of_nat (length data) →
  0 ≤ c < Z.of_nat (length (default [] (head data))) →
  scan_invariant is_cell_empty data state →
  (∃ state', scan_cell is_cell_empty data r c state = Returns state'
     ∧ scan_invariant is_cell_empty data state'
     ∧ state.1 ⊆ state'.1
     ∧ is_Some (data !! Z.to_nat r ≫= (.!! Z.to_nat c))
     ∧ (filled is_cell_empty data (r, c) = true → (r, c) ∈ state'.1))
  ∨ (scan_cell is_cell_empty data r c state = Raises IndexError
     ∧ ¬ no_short_row data).
Proof.
  intros Hr Hc Hinv. destruct state as [visited0 bodies]. unfold scan_cell.
  case_decide as Hin.
  { left. eexists. split; [done|]. split; [done|]. split; [done|]. split; [|done].
    destruct Hinv as (Hvis & Hcomp & _). cbn [fst snd] in *.
    apply Hvis in Hin as (b & Hb & Hin).
    destruct (proj1 (Forall_forall _ _) Hcomp b Hb) as (_ & Hf & _).
    apply (filled_readable (r, c)). by apply Hf. }
  destruct (cell_value_valid r c Hr Hc) as [(v & -> & Hv)|[-> Hshort]]; [|by right].
  rewrite bind_Returns.
  destruct (is_cell_empty v) eqn:Hempty.
  { left. eexists. split; [done|]. split; [done|]. split; [done|].
    split; [by rewrite Hv|].
    unfold filled, row, col. cbn [fst snd]. rewrite Hv, Hempty.
    by rewrite andb_false_r. }
  assert (filled is_cell_empty data (r, c) = true) as Hfilled.
  { unfold filled, row, col. cbn [fst snd]. rewrite Hv, Hempty.
    rewrite !bool_decide_eq_true_2 by done. done. }
  destruct (flood_fill_spec (r, c) visited0 Hin Hfilled)
    as [(body & -> & Hstart & Hdisj & Hf & Hconn & Hclosed)|[-> Hshort]];
    [left|by right].
  rewrite bind_Returns.
  rewrite decide_False by (intros ->; by apply elem_of_empty in Hstart).
  destruct Hinv as (Hvis & Hcomp & Hpair). cbn [fst snd] in *.
  eexists. split; [done|]. cbn [fst snd].
  split; [|split; [set_solver|split; [by rewrite Hv|intros _; set_solver]]].
  split; [|split]; cbn [fst snd].
  - intros c'. rewrite elem_of_union, Hvis. split.
    + intros [(b & Hb & Hc')|Hc'].
      * exists b. split; [|done]. apply elem_of_app. by left.
      * exists body. split; [|done]. apply elem_of_app. right. by left.
    + intros (b & [Hb| ->%list_elem_of_singleton]%elem_of_app & Hc'); [|by right].
      left. by exists b.
  - apply Forall_app. split; [done|]. apply Forall_singleton.
    split; [intros ->; by apply elem_of_empty in Hstart|]. split; [done|]. split.
    + intros a n Ha Hlink.
      pose proof (Hclosed a n Ha Hlink) as Hn.
      apply elem_of_union in Hn as [(b & Hb & Hn)%Hvis|Hn]; [|done].
      destruct (proj1 (Forall_forall _ _) Hcomp b Hb) as (_ & _ & Hbclosed & _).
      destruct (Hdisj a); [done|]. apply Hvis. exists b. split; [done|].
      apply (Hbclosed n a Hn). by apply linked_sym.
    + intros a a' Ha Ha'. etrans; [apply rtc_linked_sym|]; by apply Hconn.
  - intros i j b1 b2 Hne Hi Hj.
    apply lookup_app_Some in Hi as [Hi|[Hli Hi]], Hj as [Hj|[Hlj Hj]].
    + by apply (Hpair i j).
    + apply list_lookup_singleton_Some in Hj as [_ <-].
      intros a Ha1 Ha2. apply (Hdisj a Ha2), Hvis. exists b1. split; [|done].
      by eapply list_elem_of_lookup_2.
    + apply list_lookup_singleton_Some in Hi as [_ <-].
      intros a Ha1 Ha2. apply (Hdisj a Ha1), Hvis. exists b2. split; [|done].
      by eapply list_elem_of_lookup_2.
    + apply list_lookup_singleton_Some in Hi as [Hi _], Hj as [Hj _]. lia.
Qed.

Lemma scan_row_spec (r : Z) (columns : list Z)
    (state : gset CellCoordinate * list (gset CellCoordinate)) :
  0 ≤ r < Z.of_nat (length data) →
  (∀ c, c ∈ columns → 0 ≤ c < Z.of_nat (length (default [] (head data)))) →
  scan_invariant is_cell_empty data state →
  (∃ state', for_each columns (scan_cell is_cell_empty data r) state = Returns state'
     ∧ scan_invariant is_cell_empty data state'
     ∧ state.1 ⊆ state'.1
     ∧ ∀ c, c ∈ columns →
            is_Some (data !! Z.to_nat r ≫= (.!! Z.to_nat c))
            ∧ (filled is_cell_empty data (r, c) = true → (r, c) ∈ state'.1))
  ∨ (for_each columns (scan_cell is_cell_empty data r) state = Raises IndexError
     ∧ ¬ no_short_row data).
Proof.
  intros Hr. revert state. induction columns as [|c columns IH]; intros state Hcols Hinv.
  { left. exists state. split; [done|]. split; [done|]. split; [done|].
    by intros c []%elem_of_nil. }
  cbn [for_each].
  destruct (scan_cell_spec r c state Hr)
    as [(state1 & -> & Hinv1 & Hsub1 & Hread1 & Hc1)|[-> Hshort]];
    [apply Hcols; by left|done| |by right].
  rewrite bind_Returns.
  destruct (IH state1) as [(state2 & Hrun2 & Hinv2 & Hsub2 & Hc2)|[Hrun2 Hshort]];
    [intros c' Hc'; apply Hcols; by right|done| |by right].
  left. exists state2.
  split; [exact Hrun2|]. split; [done|]. split; [by etrans|].
  intros c' [->|Hc']%elem_of_cons; [|by apply Hc2].
  split; [done|]. intros Hf. by apply Hsub2, Hc1.
Qed.

Lemma scan_line_spec (r : Z)
    (state : gset CellCoordinate * list (gset CellCoordinate)) :
  0 ≤ r < Z.of_nat (length data) →
  scan_invariant is_cell_empty data state →
  (∃ state', scan_line is_cell_empty data r state = Returns state'
     ∧ scan_invariant is_cell_empty data state'
     ∧ state.1 ⊆ state'.1
     ∧ ∀ c, 0 ≤ c < Z.of_nat (length (default [] (head data))) →
            is_Some (data !! Z.to_nat r ≫= (.!! Z.to_nat c))
            ∧ (filled is_cell_empty data (r, c) = true → (r, c) ∈ state'.1))
  ∨ (scan_line is_cell_empty data r state = Raises IndexError ∧ ¬ no_short_row data).
Proof.
  intros Hr Hinv. destruct (first_row r Hr) as (first & Hhead & Hfirst).
  unfold scan_line. rewrite Hfirst, bind_Returns.
  destruct (scan_row_spec r (py_range 0 (Z.of_nat (length first))) state Hr)
    as [(state1 & -> & Hinv1 & Hsub1 & Hc1)|[-> Hshort]]; [|done| |by right].
  { intros c Hc%elem_of_seqZ. rewrite Hhead. simpl. lia. }
  left. exists state1. split; [done|]. split; [done|]. split; [done|].
  intros c Hc. apply Hc1, elem_of_seqZ. rewrite Hhead in Hc. simpl in Hc. lia.
Qed.

Lemma scan_rows_spec (lines : list Z)
    (state : gset CellCoordinate * list (gset CellCoordinate)) :
  (∀ r, r ∈ lines → 0 ≤ r < Z.of_nat (length data)) →
  scan_invariant is_cell_empty data state →
  (∃ state', for_each lines (scan_line is_cell_empty data) state = Returns state'
     ∧ scan_invariant is_cell_empty data state'
     ∧ state.1 ⊆ state'.1
     ∧ ∀ r c, r ∈ lines → 0 ≤ c < Z.of_nat (length (default [] (head data))) →
              is_Some (data !! Z.to_nat r ≫= (.!! Z.to_nat c))
              ∧ (filled is_cell_empty data (r, c) = true → (r, c) ∈ state'.1))
  ∨ (for_each lines (scan_line is_cell_empty data) state = Raises IndexError
     ∧ ¬ no_short_row data).
Proof.
  revert state. induction lines as [|r lines IH]; intros state Hlines Hinv.
  { left. exists state. split; [done|]. split; [done|]. split; [done|].
    by intros r c []%elem_of_nil. }
  cbn [for_each].
  destruct (scan_line_spec r state)
    as [(state1 & -> & Hinv1 & Hsub1 & Hc1)|[-> Hshort]];
    [apply Hlines; by left|done| |by right].
  rewrite bind_Returns.
  destruct (IH state1) as [(state2 & Hrun2 & Hinv2 & Hsub2 & Hc2)|[Hrun2 Hshort]];
    [intros r' Hr'; apply Hlines; by right|done| |by right].
  left. exists state2.
  split; [exact Hrun2|]. split; [done|]. split; [by etrans|].
  intros r' c [->|Hr']%elem_of_cons Hc; [|by apply Hc2].
  destruct (Hc1 c Hc) as [Hread Hin].
  split; [done|]. intros Hf. by apply Hsub2, Hin.
Qed.

(** [get_continuous_bodies] raises [IndexError] on a sheet with a row
    shorter than the first; on every other sheet it returns, and what
    it returns are the components of the filled cells. *)
Lemma get_continuous_bodies_correct :
  (no_short_row data
   ∧ ∃ bodies, get_continuous_bodies is_cell_empty data = Returns bodies
       ∧ (∀ c, filled is_cell_empty data c = true ↔ ∃ body, body ∈ bodies ∧ c ∈ body)
       ∧ Forall (component is_cell_empty data) bodies
       ∧ (∀ i j b1 b2, i ≠ j → bodies !! i = Some b1 → bodies !! j = Some b2 →
                       b1 ## b2))
  ∨ (¬ no_short_row data
     ∧ get_continuous_bodies is_cell_empty data = Raises IndexError).
Proof.
  unfold get_continuous_bodies.
  destruct (scan_rows_spec (py_range 0 (Z.of_nat (length data))) (∅, []))
    as [([visited' bodies] & -> & (Hvis & Hcomp & Hpair) & _ & Hall)|[-> Hshort]];
    [| |left|by right].
  - intros r Hr%elem_of_seqZ. lia.
  - split; [|split]; cbn [fst snd].
    + intros c. rewrite elem_of_empty. split; [done|]. by intros (b & []%elem_of_nil & _).
    + constructor.
    + intros i j b1 b2 _ [=].
  - cbn [fst snd] in *. split.
    + apply Forall_lookup. intros i line Hline.
      destruct (decide (length (default [] (head data)) = 0%nat)) as [->|Hcols]; [lia|].
      destruct (Hall (Z.of_nat i) (Z.of_nat (length (default [] (head data))) - 1))
        as [[v Hread] _].
      * apply elem_of_seqZ. apply lookup_lt_Some in Hline. lia.
      * lia.
      * rewrite Nat2Z.id, Hline in Hread. cbn in Hread.
        apply lookup_lt_Some in Hread. lia.
    + exists bodies. split; [done|]. split; [|done]. intros [r c]. split.
      * intros Hf. apply Hvis. destruct (filled_valid _ Hf) as [Hr Hc].
        apply Hall; [|done|done]. apply elem_of_seqZ. unfold row in Hr. simpl in Hr. lia.
      * intros (b & Hb & Hc).
        destruct (proj1 (Forall_forall _ _) Hcomp b Hb) as (_ & Hf & _). by apply Hf.
Qed.
End continuous_bodies.

(** On a sheet no row of which is shorter than the first,
    [get_continuous_bodies] returns, and the bodies it returns cover
    the cells that are not empty and no others: a cell is in some body
    exactly when it is a cell of the sheet that is not empty. *)
Theorem get_continuous_bodies_cover {value : Type} (is_cell_empty : value → bool)
    (data : list (list value)) :
  no_short_row data →
  ∃ bodies, get_continuous_bodies is_cell_empty data = Returns bodies
    ∧ ∀ c, filled is_cell_empty data c = true ↔ ∃ body, body ∈ bodies ∧ c ∈ body.
Proof.
  intros Hrows.
  destruct (get_continuous_bodies_correct is_cell_empty data)
    as [[_ (bodies & Hrun & Hcover & _)]|[Hshort _]]; [|done].
  by exists bodies.
Qed.

Lemma get_continuous_bodies_cover_witness :
  ∃ bodies, get_continuous_bodies blank sample_sheet = Returns bodies
    ∧ ∀ c, filled blank sample_sheet c = true ↔ ∃ body, body ∈ bodies ∧ c ∈ body.
Proof.
  apply (get_continuous_bodies_cover blank sample_sheet).
  apply (bool_decide_unpack _). by vm_compute.
Defined.

(** The bodies that [get_continuous_bodies] returns are not empty, every
    one of them, and pairwise disjoint: no cell is in two bodies. *)
Theorem get_continuous_bodies_disjoint {value : Type} (is_cell_empty : value → bool)
    (data : list (list value)) (bodies : list (gset CellCoordinate)) :
  no_short_row data →
  get_continuous_bodies is_cell_empty data = Returns bodies →
  (∀ body, body ∈ bodies → body ≠ ∅)
  ∧ (∀ i j body1 body2, i ≠ j →
       bodies !! i = Some body1 → bodies !! j = Some body2 → body1 ## body2).
Proof.
  intros Hrows Hrun.
  destruct (get_continuous_bodies_correct is_cell_empty data)
    as [[_ (bodies' & Hrun' & _ & Hcomp & Hpair)]|[Hshort _]]; [|done].
  rewrite Hrun in Hrun'. injection Hrun' as <-. split; [|exact Hpair].
  intros body Hbody.
  by destruct (proj1 (Forall_forall _ _) Hcomp body Hbody).
Qed.

Lemma get_continuous_bodies_disjoint_witness :
  (∀ body, body ∈ sample_bodies → body ≠ ∅)
  ∧ (∀ i j body1 body2, i ≠ j →
       sample_bodies !! i = Some body1 → sample_bodies !! j = Some body2 →
       body1 ## body2).
Proof.
  apply (get_continuous_bodies_disjoint blank sample_sheet sample_bodies).
  - apply (bool_decide_unpack _). by vm_compute.
  - by vm_compute.
Defined.

(** A sheet with a single filled cell has a single body, which is not
    empty. *)
Example get_continuous_bodies_single :
  get_continuous_bodies blank [[None; Some 1]] = Returns [{[(0, 1)]}].
Proof. by vm_compute. Qed.

(** Each body that [get_continuous_bodies] returns is the connected
    component of any of its cells: the cells of the body are exactly
    the cells that a path of filled cells, each sharing an edge with the
    next, joins to it. *)
Theorem get_continuous_bodies_components {value : Type} (is_cell_empty : value → bool)
    (data : list (list value)) (bodies : list (gset CellCoordinate))
    (body : gset CellCoordinate) (c c' : CellCoordinate) :
  no_short_row data →
  get_continuous_bodies is_cell_empty data = Returns bodies →
  body ∈ bodies → c ∈ body →
  c' ∈ body ↔ rtc (linked is_cell_empty data) c c'.
Proof.
  intros Hrows Hrun Hbody Hc.
  destruct (get_continuous_bodies_correct is_cell_empty data)
    as [[_ (bodies' & Hrun' & _ & Hcomp & _)]|[Hshort _]]; [|done].
  rewrite Hrun in Hrun'. injection Hrun' as <-.
  destruct (proj1 (Forall_forall _ _) Hcomp body Hbody) as (_ & _ & Hclosed & Hconn).
  split; [by apply Hconn|].
  induction 1 as [|a b d Hab _ IH]; [done|]. apply IH. by apply (Hclosed a b).
Qed.

Lemma get_continuous_bodies_components_witness :
  (1, 1) ∈ ({[(0, 0); (0, 1); (1, 1)]} : gset CellCoordinate)
  ↔ rtc (linked blank sample_sheet) (0, 0) (1, 1).
Proof.
  apply (get_continuous_bodies_components blank sample_sheet sample_bodies).
  - apply (bool_decide_unpack _). by vm_compute.
  - by vm_compute.
  - left.
  - apply (bool_decide_unpack _). by vm_compute.
Defined.

(** [get_continuous_bodies] raises [IndexError] exactly on the sheets
    that have a row shorter than the first; in the model, its loop never
    runs out of fuel. *)
Theorem get_continuous_bodies_raises {value : Type} (is_cell_empty : value → bool)
    (data : list (list value)) :
  (get_continuous_bodies is_cell_empty data = Raises IndexError ↔ ¬ no_short_row data)
  ∧ get_continuous_bodies is_cell_empty data ≠ Raises ValueError
  ∧ get_continuous_bodies is_cell_empty data ≠ OutOfFuel.
Proof.
  destruct (get_continuous_bodies_correct is_cell_empty data)
    as [[Hrows (bodies & -> & _)]|[Hshort ->]].
  - split; [|done]. split; [done|]. intros Hshort. by destruct Hshort.
  - done.
Qed.

Example get_continuous_bodies_ragged :
  get_continuous_bodies blank [[Some 1; None]; [Some 2]] = Raises IndexError
  ∧ get_continuous_bodies blank [[Some 1]; [Some 2; Some 3]] = Returns [{[(0, 0); (1, 0)]}]
  ∧ get_continuous_bodies blank [] = Returns [].
Proof. repeat split; by vm_compute. Qed.

Lemma cell_to_body_snoc (bodies : list (gset CellCoordinate))
    (body : gset CellCoordinate) (c : CellCoordinate) :
  cell_to_body (bodies ++ [body]) !! c
  = if decide (c ∈ body) then Some body else cell_to_body bodies !! c.
Proof.
  unfold cell_to_body. rewrite foldl_snoc.
  set (m := foldl _ ∅ bodies).
  assert (∀ (l : list CellCoordinate) (m : gmap CellCoordinate (gset CellCoordinate)),
            foldl (λ cell_to_body cell, <[cell := body]> cell_to_body) m l !! c
            = if decide (c ∈ l) then Some body else m !! c) as Hinner.
  { induction l as [|x l IH]; intros m'; cbn [foldl].
    - rewrite decide_False; [done|]. apply not_elem_of_nil.
    - rewrite IH. destruct (decide (c ∈ l)) as [Hl|Hl].
      + rewrite decide_True; [done|]. by right.
      + destruct (decide (c = x)) as [->|Hx].
        * rewrite lookup_insert_eq, decide_True; [done|]. by left.
        * rewrite lookup_insert_ne by done. rewrite decide_False; [done|].
          by intros [?|?]%elem_of_cons. }
  rewrite Hinner. destruct (decide (c ∈ body)) as [Hc|Hc].
  - rewrite decide_True; [done|]. by apply elem_of_elements.
  - rewrite decide_False; [done|]. by rewrite elem_of_elements.
Qed.

Lemma cell_to_body_lookup (bodies : list (gset CellCoordinate)) (c : CellCoordinate) :
  (∀ body, cell_to_body bodies !! c = Some body → body ∈ bodies ∧ c ∈ body)
  ∧ (∀ body, body ∈ bodies → c ∈ body → is_Some (cell_to_body bodies !! c)).
Proof.
  induction bodies as [|b bodies [IH1 IH2]] using rev_ind.
  { split; [done|]. by intros body []%elem_of_nil. }
  split; intros body; rewrite cell_to_body_snoc; destruct (decide (c ∈ b)) as [Hc|Hc].
  - intros [= <-]. split; [|done]. apply elem_of_app. right. by left.
  - intros [Hb Hin]%IH1. split; [|done]. apply elem_of_app. by left.
  - done.
  - intros [Hb| ->%list_elem_of_singleton]%elem_of_app Hin; [by apply (IH2 body)|done].
Qed.

(** In [process_sheet] the test [coord in cell_to_body] holds for every
    cell that is not empty, and [cell_to_body[coord]] is the connected
    component of [coord]. *)
Theorem process_sheet_cell_to_body {value : Type} (is_cell_empty : value → bool)
    (data : list (list value)) (bodies : list (gset CellCoordinate))
    (coord : CellCoordinate) :
  no_short_row data →
  get_continuous_bodies is_cell_empty data = Returns bodies →
  filled is_cell_empty data coord = true →
  ∃ body, cell_to_body bodies !! coord = Some body
    ∧ ∀ c, c ∈ body ↔ rtc (linked is_cell_empty data) coord c.
Proof.
  intros Hrows Hrun Hfilled.
  destruct (get_continuous_bodies_correct is_cell_empty data)
    as [[_ (bodies' & Hrun' & Hcover & Hcomp & _)]|[Hshort _]]; [|done].
  rewrite Hrun in Hrun'. injection Hrun' as <-.
  destruct (cell_to_body_lookup bodies coord) as [Hsome Hin].
  apply Hcover in Hfilled as (b & Hb & Hc).
  destruct (Hin b Hb Hc) as [body Hbody]. exists body. split; [done|].
  destruct (Hsome body Hbody) as [Hbody' Hcoord].
  destruct (proj1 (Forall_forall _ _) Hcomp body Hbody') as (_ & _ & Hclosed & Hconn).
  intros c. split; [by apply Hconn|]. intros Hpath. revert Hcoord.
  clear -Hpath Hclosed. induction Hpath as [|a a' d Hab _ IH]; [done|].
  intros Ha. apply IH. by apply (Hclosed a a').
Qed.

Lemma process_sheet_cell_to_body_witness :
  ∃ body, cell_to_body sample_bodies !! (2, 3) = Some body
    ∧ ∀ c, c ∈ body ↔ rtc (linked blank sample_sheet) (2, 3) c.
Proof.
  apply (process_sheet_cell_to_body blank sample_sheet sample_bodies (2, 3)).
  - apply (bool_decide_unpack _). by vm_compute.
  - by vm_compute.
  - reflexivity.
Defined.
